(** * Turbo-Bucketizer: bucket engine, statistics and dotted-quad parsing

    A shallow embedding of the C++17 sources
    ([include/tb/types.hpp], [src/bucket_engine.cpp], [src/stats.cpp],
    [src/utils.cpp], [apps/tb_cli.cpp]) and the properties their
    specification states, followed by further properties read off the code.

    Conventions of the embedding.
    - [std::uint32_t], [std::uint64_t] and [std::size_t] are [Z] with the
      wrap-around written out ([to_u32], [to_u64], [to_size]); [std::size_t]
      is the 64-bit one of the LP64 targets the project is built on.
    - [std::vector<std::size_t>] is [list Z], read and updated by index with
      stdpp's lookup and insert.
    - [double] is IEEE-754 binary64 and [long double] the x87 80-bit format,
      both as [spec_float] with the operations of [SpecFloat], rounding to
      nearest even.
    - The [for] loop of [distribution(start, end)] is a function indexed by
      fuel, one unit per turn; running out of fuel is [None].
    - A thrown [std::runtime_error] is [None]; where the kind of failure
      matters ([parse_args], [run_from_file]) it is a constructor of its own.
    - The command line is the list of the arguments after the program name,
      and a file is the string of its text.

    The definitions come first, the proofs after them. *)

From Stdlib Require Import ZArith Zpower List Lia Bool Ascii String.
From Stdlib Require Import Floats.SpecFloat.
From stdpp Require Import base list.

Local Open Scope Z_scope.

(** ** Machine integers *)

Definition to_u32 (x : Z) : Z := x mod 2 ^ 32.
Definition to_u64 (x : Z) : Z := x mod 2 ^ 64.
Definition to_size (x : Z) : Z := x mod 2 ^ 64.

Definition is_u32 (x : Z) : Prop := 0 <= x < 2 ^ 32.
Definition is_size (x : Z) : Prop := 0 <= x < 2 ^ 64.

(** ** [tb::Config] (types.hpp) *)

Module Config.

Record t : Type := mk { a : Z; b : Z; k : Z }.

(** [k] is an [unsigned int]; [a] and [b] are [std::uint32_t]. *)
Definition wf (cfg : t) : Prop :=
  is_u32 (a cfg) /\ is_u32 (b cfg) /\ is_u32 (k cfg).

Definition bucket_count (cfg : t) : Z :=
  if 32 <=? k cfg then to_size (Z.shiftl 1 32)
  else to_size (Z.shiftl 1 (k cfg)).

End Config.

(** ** [tb::BucketEngine] (bucket_engine.cpp) *)

Module BucketEngine.

Definition bucket_from_y (y k : Z) : Z :=
  if k =? 0 then 0
  else if 32 <=? k then y
  else
    let s := to_u32 (32 - k) in
    to_u32 (Z.shiftr (to_u64 y) s).

Definition bucket_index (cfg : Config.t) (ip : Z) : Z :=
  let y :=
    to_u32 (to_u64 (to_u64 (to_u64 (Config.a cfg) * to_u64 ip)
                    + to_u64 (Config.b cfg))) in
  bucket_from_y y (Config.k cfg).

Definition bucketize (cfg : Config.t) (ips : list Z) : list Z :=
  map (bucket_index cfg) ips.

(** [if (b < counts.size()) counts[b] += 1;] *)
Definition bump (counts : list Z) (b : Z) : list Z :=
  if b <? to_size (Z.of_nat (length counts)) then
    match counts !! Z.to_nat b with
    | Some c => <[Z.to_nat b := to_size (c + 1)]> counts
    | None => counts
    end
  else counts.

Definition zero_counts (m : Z) : list Z := replicate (Z.to_nat m) 0.

(** [distribution(const std::vector<IPv4>&)] *)
Definition distribution (cfg : Config.t) (ips : list Z) : list Z :=
  let m := Config.bucket_count cfg in
  let counts := zero_counts m in
  if m =? 0 then counts
  else fold_left (fun cs ip => bump cs (bucket_index cfg ip)) ips counts.

(** The [for] loop of [distribution(IPv4, IPv4)]: a 64-bit counter [v]
    runs while [v < e]; every turn of the loop spends one unit of fuel. *)
Fixpoint range_loop (fuel : nat) (cfg : Config.t) (v e : Z)
    (counts : list Z) : option (list Z) :=
  if v <? e then
    match fuel with
    | O => None
    | S fuel' =>
        range_loop fuel' cfg (to_u64 (v + 1)) e
          (bump counts (bucket_index cfg (to_u32 v)))
    end
  else Some counts.

(** [distribution(IPv4 start, IPv4 end)] *)
Definition distribution_range (fuel : nat) (cfg : Config.t)
    (start end_ : Z) : option (list Z) :=
  let m := Config.bucket_count cfg in
  let counts := zero_counts m in
  if m =? 0 then Some counts
  else if end_ <=? start then Some counts
  else range_loop fuel cfg (to_u64 start) (to_u64 end_) counts.

End BucketEngine.

(** ** Floating point: [double] and [long double] *)

Module Fp.

(** IEEE-754 binary64. *)
Definition dprec : Z := 53.
Definition demax : Z := 1024.
(** x87 double-extended, the [long double] of the x86-64 System V ABI. *)
Definition lprec : Z := 64.
Definition lemax : Z := 16384.

Definition zero : spec_float := S754_zero false.

Definition dsub := SFsub dprec demax.
Definition dmul := SFmul dprec demax.
Definition ddiv := SFdiv dprec demax.
Definition dsqrt := SFsqrt dprec demax.
Definition dabs := SFabs.
Definition dlt := SFltb.
Definition dle := SFleb.

Definition ladd := SFadd lprec lemax.
Definition lsub := SFsub lprec lemax.
Definition lmul := SFmul lprec lemax.
Definition ldiv := SFdiv lprec lemax.

(** [static_cast<double>(n)] and [static_cast<long double>(n)] of an
    integer. *)
Definition d_of_Z (n : Z) : spec_float := binary_normalize dprec demax n 0 false.
Definition ld_of_Z (n : Z) : spec_float := binary_normalize lprec lemax n 0 false.

(** Conversions between the two formats. *)
Definition ld_of_d (x : spec_float) : spec_float :=
  match x with
  | S754_finite s m e => binary_round lprec lemax s m e
  | _ => x
  end.

Definition d_of_ld (x : spec_float) : spec_float :=
  match x with
  | S754_finite s m e => binary_round dprec demax s m e
  | _ => x
  end.

(** The literals [1.0] and [100.0]. *)
Definition one : spec_float := S754_finite false 4503599627370496 (-52).
Definition hundred : spec_float := S754_finite false 7036874417766400 (-46).

(** [std::max(a, b)] is [(a < b) ? b : a]. *)
Definition dmax (x y : spec_float) : spec_float := if dlt x y then y else x.

End Fp.

(** ** [tb::compute_stats] (stats.cpp) and [tb::StatsResult] (types.hpp) *)

Module Stats.
Import Fp.

Record StatsResult : Type := mkStats {
  sample_count : Z;
  bucket_count : Z;
  mean : spec_float;
  stddev : spec_float;
  chi2 : spec_float;
  uniformity : spec_float
}.

(** [std::accumulate(counts.begin(), counts.end(), std::size_t{0})] *)
Definition accumulate (counts : list Z) : Z :=
  fold_left (fun acc c => to_size (acc + c)) counts 0.

(** The accumulator of the variance block. *)
Definition acc_step (mean : spec_float) (acc : spec_float) (c : Z) : spec_float :=
  let d := lsub (ld_of_Z c) (ld_of_d mean) in
  ladd acc (lmul d d).

(** The accumulator of the chi-square block. *)
Definition chi_step (mean : spec_float) (chi : spec_float) (c : Z) : spec_float :=
  let diff := lsub (ld_of_Z c) (ld_of_d mean) in
  ladd chi (ldiv (lmul diff diff) (ld_of_d mean)).

(** [std::minmax_element]: the first smallest and the last largest element,
    here as the pair of their values. *)
Fixpoint minmax_from (lo hi : Z) (l : list Z) : Z * Z :=
  match l with
  | [] => (lo, hi)
  | c :: t => minmax_from (if c <? lo then c else lo) (if c <? hi then hi else c) t
  end.

Definition minmax_element (counts : list Z) : Z * Z :=
  match counts with
  | [] => (0, 0)
  | c :: t => minmax_from c c t
  end.

(** The uniformity block, given the mean. *)
Definition uniformity_of (mean : spec_float) (counts : list Z) : spec_float :=
  let '(min_v, max_v) := minmax_element counts in
  let max_dev := dmax (dabs (dsub (d_of_Z max_v) mean))
                      (dabs (dsub (d_of_Z min_v) mean)) in
  let u := one in
  let u := if dlt zero mean then dsub one (ddiv max_dev mean) else u in
  let u := if dlt u zero then zero else u in
  let u := if dlt one u then one else u in
  dmul u hundred.

Definition compute_stats (counts : list Z) : StatsResult :=
  let m := to_size (Z.of_nat (length counts)) in
  let n := accumulate counts in
  if (m =? 0) || (n =? 0) then mkStats n m zero zero zero zero
  else
    let mean := ddiv (d_of_Z n) (d_of_Z m) in
    let acc := fold_left (acc_step mean) counts zero in
    let var := ldiv acc (ld_of_Z m) in
    let chi := fold_left (chi_step mean) counts zero in
    mkStats n m mean (dsqrt (d_of_ld var)) (d_of_ld chi)
      (uniformity_of mean counts).

End Stats.

(** ** [tb::parse_ipv4] (utils.cpp) *)

Module Utils.

(** The tokens that successive calls of [std::getline(iss, token, '.')]
    deliver until the call fails: a call at the end of the stream extracts
    nothing and fails, so no empty token follows a final dot. *)
Fixpoint getline_tokens (s : string) : list string :=
  match s with
  | EmptyString => []
  | String c s' =>
      if Ascii.eqb c "."%char then EmptyString :: getline_tokens s'
      else match getline_tokens s' with
           | [] => [String c EmptyString]
           | t :: ts => String c t :: ts
           end
  end.

(** [std::isspace] in the "C" locale. *)
Definition isspace (c : ascii) : bool :=
  let n := Z.of_nat (nat_of_ascii c) in
  (n =? 32) || ((9 <=? n) && (n <=? 13)).

Definition digit_val (c : ascii) : option Z :=
  let n := Z.of_nat (nat_of_ascii c) in
  if (48 <=? n) && (n <=? 57) then Some (n - 48) else None.

Fixpoint skip_space (s : string) : string :=
  match s with
  | String c s' => if isspace c then skip_space s' else s
  | EmptyString => s
  end.

(** The longest prefix of decimal digits, as a number; [None] when there is
    no digit at all. *)
Fixpoint read_digits (acc : option Z) (s : string) : option Z :=
  match s with
  | String c s' =>
      match digit_val c with
      | Some d => read_digits (Some (10 * default 0 acc + d)) s'
      | None => acc
      end
  | EmptyString => acc
  end.

(** [std::stoull(token)]: [strtoull] in base 10 (leading white space, an
    optional sign, then digits; what follows the digits is ignored since no
    position is asked for); [std::invalid_argument] and [std::out_of_range]
    are [None]. *)
Definition stoull (token : string) : option Z :=
  let s := skip_space token in
  let '(neg, s) :=
    match s with
    | String c r =>
        if Ascii.eqb c "-"%char then (true, r)
        else if Ascii.eqb c "+"%char then (false, r)
        else (false, s)
    | EmptyString => (false, s)
    end in
  match read_digits None s with
  | None => None
  | Some v =>
      if 2 ^ 64 - 1 <? v then None
      else Some (if neg then to_u64 (- v) else v)
  end.

(** One turn of the [while] loop, on the state [(idx, parts)]. *)
Definition parse_step (st : option (Z * list Z)) (token : string)
    : option (Z * list Z) :=
  match st with
  | None => None
  | Some (idx, parts) =>
      if 4 <=? idx then None
      else if String.eqb token EmptyString then None
      else match stoull token with
           | None => None
           | Some v =>
               if 255 <? v then None
               else Some (idx + 1, <[Z.to_nat idx := to_u32 v]> parts)
           end
  end.

Definition parse_ipv4 (s : string) : option Z :=
  match fold_left parse_step (getline_tokens s) (Some (0, [0; 0; 0; 0]%Z)) with
  | Some (idx, [p0; p1; p2; p3]) =>
      if negb (idx =? 4) then None
      else Some (Z.lor (Z.lor (Z.lor (to_u32 (Z.shiftl p0 24))
                                     (to_u32 (Z.shiftl p1 16)))
                              (to_u32 (Z.shiftl p2 8)))
                       p3)
  | _ => None
  end.

End Utils.

(** ** [run_demo] (apps/tb_cli.cpp) *)

Module Cli.


(** ** The parse helpers of [tb_cli.cpp] *)

(** [s.size()] *)
Definition size (s : string) : Z := Z.of_nat (String.length s).

(** A hexadecimal digit, in either case. *)
Definition hex_val (c : ascii) : option Z :=
  let n := Z.of_nat (nat_of_ascii c) in
  if (48 <=? n) && (n <=? 57) then Some (n - 48)
  else if (97 <=? n) && (n <=? 102) then Some (n - 87)
  else if (65 <=? n) && (n <=? 70) then Some (n - 55)
  else None.

Definition digit_of (base : Z) (c : ascii) : option Z :=
  if base =? 16 then hex_val c else Utils.digit_val c.

(** The longest prefix of digits of the base: its value and its length. *)
Fixpoint read_number (base v n : Z) (s : string) : Z * Z :=
  match s with
  | String c s' =>
      match digit_of base c with
      | Some d => read_number base (base * v + d) (n + 1) s'
      | None => (v, n)
      end
  | EmptyString => (v, n)
  end.

(** The [0x] or [0X] that [strtoull] skips in base 16, which it does only
    before a hexadecimal digit. *)
Definition skip_0x (base : Z) (s : string) : string :=
  if base =? 16 then
    match s with
    | String c0 (String c1 (String c2 r)) =>
        if Ascii.eqb c0 "0"%char
           && (Ascii.eqb c1 "x"%char || Ascii.eqb c1 "X"%char)
           && bool_decide (is_Some (hex_val c2))
        then String c2 r else s
    | _ => s
    end
  else s.

(** [std::stoull(str, &pos, base)] for the bases 10 and 16: the value and
    the position after the last character read; [std::invalid_argument] and
    [std::out_of_range] are [None]. *)
Definition stoull_pos (base : Z) (str : string) : option (Z * Z) :=
  let s := Utils.skip_space str in
  let '(neg, s) :=
    match s with
    | String c r =>
        if Ascii.eqb c "-"%char then (true, r)
        else if Ascii.eqb c "+"%char then (false, r)
        else (false, s)
    | EmptyString => (false, s)
    end in
  let s := skip_0x base s in
  let '(v, n) := read_number base 0 0 s in
  if n =? 0 then None
  else if 2 ^ 64 - 1 <? v then None
  else Some (if neg then to_u64 (- v) else v, size str - size s + n).

Definition parse_u64 (s : string) : option Z :=
  match stoull_pos 10 s with
  | None => None
  | Some (value, pos) => if negb (pos =? size s) then None else Some value
  end.

Definition parse_uint (s : string) : option Z :=
  match parse_u64 s with
  | None => None
  | Some v => if 2 ^ 32 - 1 <? v then None else Some (to_u32 v)
  end.

Definition parse_hex32 (s : string) : option Z :=
  let txt :=
    match s with
    | String c0 (String c1 r) =>
        if (2 <? size s) && Ascii.eqb c0 "0"%char
           && (Ascii.eqb c1 "x"%char || Ascii.eqb c1 "X"%char)
        then r else s
    | _ => s
    end in
  match stoull_pos 16 txt with
  | None => None
  | Some (value, pos) =>
      if negb (pos =? size txt) then None
      else if 0xFFFFFFFF <? value then None
      else Some (to_u32 value)
  end.

(** ** [Options], [apply_preset] and [parse_args] *)

Module Mode.
Inductive t : Type := None | Demo | FromFile.
End Mode.

Record Options : Type := mkOptions {
  mode : Mode.t;
  demo_count : Z;
  file_path : string;
  cfg : Config.t;
  preset_used : bool;
  show_buckets : bool;
  show_buckets_limit : Z
}.

(** How a call ends: it returns, it throws, or it ends the process with
    [std::exit(0)]. *)
Inductive outcome (A : Type) : Type :=
  | Returns (a : A)
  | Throws
  | Exits.
Arguments Returns {A} a.
Arguments Throws {A}.
Arguments Exits {A}.

(** [tb::Config{}], with the default member initialisers of types.hpp. *)
Definition default_config : Config.t := Config.mk 0x9E3779B1 0x85EBCA77 12.

(** [Options opt;] *)
Definition default_options : Options :=
  mkOptions Mode.None 0 EmptyString default_config false false 0.

Definition apply_preset (c : Config.t) (name : string) : option Config.t :=
  if String.eqb name "default" then Some (Config.mk 0x9E3779B1 0x85EBCA77 (Config.k c))
  else if String.eqb name "wang" then Some (Config.mk 0x27D4EB2D 0x165667B1 (Config.k c))
  else None.

(** The [for] loop of [parse_args] over [argv[1]], [argv[2]], ..., on the
    state made of [opt] and the local [cfg]. *)
Fixpoint parse_loop (args : list string) (opt : Options) (c : Config.t)
    : outcome (Options * Config.t) :=
  match args with
  | [] => Returns (opt, c)
  | arg :: rest =>
      if String.eqb arg "--help" || String.eqb arg "-h" then Exits
      else if String.eqb arg "--demo" then
        match rest with
        | [] => Throws
        | n :: rest' =>
            match parse_u64 n with
            | None => Throws
            | Some v =>
                parse_loop rest'
                  (mkOptions Mode.Demo v (file_path opt) (cfg opt) (preset_used opt)
                     (show_buckets opt) (show_buckets_limit opt)) c
            end
        end
      else if String.eqb arg "--from-file" then
        match rest with
        | [] => Throws
        | p :: rest' =>
            parse_loop rest'
              (mkOptions Mode.FromFile (demo_count opt) p (cfg opt) (preset_used opt)
                 (show_buckets opt) (show_buckets_limit opt)) c
        end
      else if String.eqb arg "--k" then
        match rest with
        | [] => Throws
        | n :: rest' =>
            match parse_uint n with
            | None => Throws
            | Some v => parse_loop rest' opt (Config.mk (Config.a c) (Config.b c) v)
            end
        end
      else if String.eqb arg "--a" then
        match rest with
        | [] => Throws
        | n :: rest' =>
            match parse_hex32 n with
            | None => Throws
            | Some v => parse_loop rest' opt (Config.mk v (Config.b c) (Config.k c))
            end
        end
      else if String.eqb arg "--b" then
        match rest with
        | [] => Throws
        | n :: rest' =>
            match parse_hex32 n with
            | None => Throws
            | Some v => parse_loop rest' opt (Config.mk (Config.a c) v (Config.k c))
            end
        end
      else if String.eqb arg "--preset" then
        match rest with
        | [] => Throws
        | name :: rest' =>
            match apply_preset c name with
            | None => Throws
            | Some c' =>
                parse_loop rest'
                  (mkOptions (mode opt) (demo_count opt) (file_path opt) (cfg opt) true
                     (show_buckets opt) (show_buckets_limit opt)) c'
            end
        end
      else if String.eqb arg "--show-buckets" then
        let opt := mkOptions (mode opt) (demo_count opt) (file_path opt) (cfg opt)
                     (preset_used opt) true (show_buckets_limit opt) in
        match rest with
        | next :: rest' =>
            match next with
            | String c0 _ =>
                if negb (Ascii.eqb c0 "-"%char) then
                  match parse_u64 next with
                  | None => Throws
                  | Some v =>
                      parse_loop rest'
                        (mkOptions (mode opt) (demo_count opt) (file_path opt) (cfg opt)
                           (preset_used opt) true (to_size v)) c
                  end
                else parse_loop rest opt c
            | EmptyString => parse_loop rest opt c
            end
        | [] => parse_loop rest opt c
        end
      else Throws
  end.

(** [parse_args(argc, argv)], on the arguments after the program name. *)
Definition parse_args (args : list string) : outcome Options :=
  match parse_loop args default_options default_config with
  | Returns (opt, c) =>
      match mode opt with
      | Mode.None => Throws
      | _ => Returns (mkOptions (mode opt) (demo_count opt) (file_path opt) c
                        (preset_used opt) (show_buckets opt) (show_buckets_limit opt))
      end
  | Throws => Throws
  | Exits => Exits
  end.

(** ** [run_from_file] *)

(** The lines that successive calls of [std::getline(in, line)] deliver: a
    call at the end of the stream fails, so no empty line follows a final
    newline. *)
Fixpoint getlines (s : string) : list string :=
  match s with
  | EmptyString => []
  | String c s' =>
      if Ascii.eqb c "010"%char then EmptyString :: getlines s'
      else match getlines s' with
           | [] => [String c EmptyString]
           | t :: ts => String c t :: ts
           end
  end.

Definition reverse (s : string) : string :=
  string_of_list_ascii (rev (list_ascii_of_string s)).

(** The two [erase] calls: white space is dropped at the front, then at the
    back. *)
Definition trim (line : string) : string :=
  let line := Utils.skip_space line in
  reverse (Utils.skip_space (reverse line)).

Inductive error : Type :=
  | CannotOpen
  | ParseError (line_no : Z)
  | NoAddresses.

(** The [while] loop of [run_from_file] on the lines left, with the line
    counter and the addresses read so far. *)
Fixpoint read_ips (lines : list string) (line_no : Z) (ips : list Z) : error + list Z :=
  match lines with
  | [] => inr ips
  | line :: rest =>
      let line_no := to_size (line_no + 1) in
      let line := trim line in
      match line with
      | EmptyString => read_ips rest line_no ips
      | String c _ =>
          if Ascii.eqb c "#"%char then read_ips rest line_no ips
          else match Utils.parse_ipv4 line with
               | Some ip => read_ips rest line_no (ips ++ [ip])
               | None => inl (ParseError line_no)
               end
      end
  end.

(** The histogram of [run_from_file]; [content] is the text of the file, or
    [None] when it cannot be opened. *)
Definition run_from_file_counts (content : option string) (c : Config.t)
    : error + list Z :=
  match content with
  | None => inl CannotOpen
  | Some text =>
      match read_ips (getlines text) 0 [] with
      | inl e => inl e
      | inr [] => inl NoAddresses
      | inr ips => inr (BucketEngine.distribution c ips)
      end
  end.

End Cli.

(** ** Notions used to state the properties *)

(** The sum of a histogram, on unbounded integers. *)
Definition sum_counts (h : list Z) : Z := foldr Z.add 0 h.

(** A [std::vector<std::size_t>]: every entry fits [std::size_t], and so
    does the length. *)
Definition wf_counts (h : list Z) : Prop :=
  Forall is_size h /\ Z.of_nat (length h) < 2 ^ 64.

(** How many of the addresses [vs] the configuration sends to bucket [i]. *)
Definition hits (cfg : Config.t) (i : Z) (vs : list Z) : Z :=
  Z.of_nat (length (filter (fun v => BucketEngine.bucket_index cfg v = i) vs)).

(** One address counted into a histogram. *)
Definition step (cfg : Config.t) (cs : list Z) (ip : Z) : list Z :=
  BucketEngine.bump cs (BucketEngine.bucket_index cfg ip).

(** [lo] is the least and [hi] the greatest count of [h]. *)
Definition is_min (lo : Z) (h : list Z) : Prop := In lo h /\ Forall (fun c => lo <= c) h.
Definition is_max (hi : Z) (h : list Z) : Prop := In hi h /\ Forall (fun c => c <= hi) h.

(** *** Floating-point values *)

(** [x] is not a NaN and carries the sign bit [s]. *)
Definition has_sign (s : bool) (x : spec_float) : Prop :=
  match x with
  | S754_zero s' | S754_infinity s' | S754_finite s' _ _ => s' = s
  | S754_nan => False
  end.

Definition not_nan (x : spec_float) : Prop := x <> S754_nan.

Definition finite_or_zero (x : spec_float) : Prop :=
  match x with S754_zero _ | S754_finite _ _ _ => True | _ => False end.

(** [m1 * 2^e1 <= m2 * 2^e2], on integers. *)
Definition vle (m1 e1 m2 e2 : Z) : Prop :=
  m1 * 2 ^ (e1 - Z.min e1 e2) <= m2 * 2 ^ (e2 - Z.min e1 e2).

(** The order [SFcompare] decides on positive canonical pairs. *)
Definition lex_le (m1 e1 m2 e2 : Z) : Prop :=
  e1 < e2 \/ (e1 = e2 /\ m1 <= m2).

(** The mantissa [m] has the exponent [e] that the format gives it. *)
Definition canonical (prec emax : Z) (m e : Z) : Prop :=
  fexp prec emax (Zdigits2 m + e) = e.

(** No bit shifted out so far was set. *)
Definition shr_exact (mrs : shr_record) : Prop :=
  shr_r mrs = false /\ shr_s mrs = false.

(** The last step of [binary_round_aux]: zero, a finite float or overflow. *)
Definition finish (prec emax : Z) (s : bool) (m e : Z) : spec_float :=
  match m with
  | Z0 => S754_zero s
  | Zpos p => if e <=? emax - prec then S754_finite s p e else S754_infinity s
  | Zneg _ => S754_nan
  end.

(** A mantissa that rounding carried up to [2^prec] is shifted back. *)
Definition renorm (prec : Z) (m e : Z) : Z * Z :=
  if m <? 2 ^ prec then (m, e) else (2 ^ (prec - 1), e + 1).

Definition dvalid (x : spec_float) : Prop := valid_binary Fp.dprec Fp.demax x = true.

(** A positive finite valid [double]. *)
Definition dpos (x : spec_float) : Prop :=
  exists m e, x = S754_finite false m e /\ dvalid x.

(** What the two clamping tests of [compute_stats] leave of [u]. *)
Definition clamp (u : spec_float) : spec_float :=
  let u := if Fp.dlt u Fp.zero then Fp.zero else u in
  if Fp.dlt Fp.one u then Fp.one else u.

(** A quotient that is at least one. *)
Definition ge_one (q : spec_float) : Prop :=
  match q with
  | S754_finite s m e => s = false /\ dvalid q /\ vle (2 ^ 52) (-52) (Zpos m) e
  | S754_infinity s => s = false
  | _ => False
  end.

(** *** The uniformity as the specification words it *)

(** The larger of two deviations. *)
Definition fmax_spec (x y : spec_float) : spec_float := if Fp.dle x y then y else x.

(** Clamping to [[0, 1]]. *)
Definition clamp01 (u : spec_float) : spec_float :=
  if Fp.dlt u Fp.zero then Fp.zero else if Fp.dlt Fp.one u then Fp.one else u.

(** [max_dev = max(|max - mean|, |min - mean|)]; the fraction is
    [1 - max_dev / mean] clamped to [[0, 1]] when [mean > 0] and [1] when
    [mean == 0]; the uniformity is the fraction times 100. The specification
    says nothing of any other mean. *)
Definition uniformity_spec (mean : spec_float) (lo hi : Z) : option spec_float :=
  let max_dev := fmax_spec (Fp.dabs (Fp.dsub (Fp.d_of_Z hi) mean))
                           (Fp.dabs (Fp.dsub (Fp.d_of_Z lo) mean)) in
  let fraction :=
    if Fp.dlt Fp.zero mean then Some (clamp01 (Fp.dsub Fp.one (Fp.ddiv max_dev mean)))
    else if SFeqb mean Fp.zero then Some Fp.one
    else None in
  option_map (fun f => Fp.dmul f Fp.hundred) fraction.

(** The mean as the specification words it: the sum of all counts over the
    length of the histogram, as a [double]. *)
Definition mean_spec (h : list Z) : spec_float :=
  Fp.ddiv (Fp.d_of_Z (sum_counts h)) (Fp.d_of_Z (Z.of_nat (length h))).

(** *** Histograms of equal counts *)

(** The mantissa and the exponent of a positive integer [v] of at most
    [prec] bits in a format of precision [prec]. *)
Definition int_mant (prec v : Z) : Z := v * 2 ^ (prec - Zdigits2 v).
Definition int_exp (prec v : Z) : Z := Zdigits2 v - prec.

(** *** Decimal and hexadecimal text *)

Definition is_digit (c : ascii) : bool :=
  (48 <=? Z.of_nat (nat_of_ascii c)) && (Z.of_nat (nat_of_ascii c) <=? 57).

Fixpoint all_digits (s : string) : bool :=
  match s with
  | EmptyString => true
  | String c r => is_digit c && all_digits r
  end.

(** The positional value of a string of decimal digits. *)
Fixpoint dec_value (s : string) : Z :=
  match s with
  | EmptyString => 0
  | String c r =>
      (Z.of_nat (nat_of_ascii c) - 48) * 10 ^ Z.of_nat (String.length r) + dec_value r
  end.

Definition is_hex (c : ascii) : bool :=
  let n := Z.of_nat (nat_of_ascii c) in
  ((48 <=? n) && (n <=? 57)) || ((65 <=? n) && (n <=? 70)) || ((97 <=? n) && (n <=? 102)).

Definition hex_digit (c : ascii) : Z :=
  let n := Z.of_nat (nat_of_ascii c) in
  if n <=? 57 then n - 48 else if n <=? 70 then n - 55 else n - 87.

Fixpoint all_hex (s : string) : bool :=
  match s with
  | EmptyString => true
  | String c r => is_hex c && all_hex r
  end.

(** The positional value of a string of hexadecimal digits. *)
Fixpoint hex_value (s : string) : Z :=
  match s with
  | EmptyString => 0
  | String c r => hex_digit c * 16 ^ Z.of_nat (String.length r) + hex_value r
  end.

(** Only white space. *)
Fixpoint all_space (s : string) : bool :=
  match s with
  | EmptyString => true
  | String c r => Utils.isspace c && all_space r
  end.

(** [s] is white space, an optional sign and then [ds]; [neg] tells whether
    the sign is a minus. *)
Definition signed_digits (s : string) (neg : bool) (ds : string) : Prop :=
  exists ws sgn, s = (ws ++ sgn ++ ds)%string /\ all_space ws = true /\
    (sgn = EmptyString \/ sgn = "+"%string \/ sgn = "-"%string) /\
    neg = String.eqb sgn "-".

(** *** Dotted quads *)

(** Token [t] is accepted as the octet [o]. *)
Definition octet_of (t : string) (o : Z) : Prop :=
  t <> EmptyString /\ Utils.stoull t = Some o /\ o <= 255.

(** A non-empty string of decimal digits whose value is at most 255. *)
Definition octet_text (t : string) : bool :=
  negb (String.eqb t EmptyString) && all_digits t && (dec_value t <=? 255).

(** The address with the octets [o0.o1.o2.o3]. *)
Definition quad (o0 o1 o2 o3 : Z) : Z := o0 * 2 ^ 24 + o1 * 2 ^ 16 + o2 * 2 ^ 8 + o3.

(** *** Lines of an address file *)

(** [t] does not start with white space. *)
Definition no_leading_space (t : string) : Prop :=
  match t with
  | String c _ => Utils.isspace c = false
  | EmptyString => True
  end.

(** What a line contributes: nothing for a blank line or a comment, else the
    address it parses to, or a failure. *)
Inductive line_kind : Type :=
  | Skipped
  | Address (ip : Z)
  | Malformed.

Definition classify (line : string) : line_kind :=
  match Cli.trim line with
  | EmptyString => Skipped
  | String c r =>
      if Ascii.eqb c "#"%char then Skipped
      else match Utils.parse_ipv4 (String c r) with
           | Some ip => Address ip
           | None => Malformed
           end
  end.

(** The addresses of the lines that hold one, in their order. *)
Definition addresses (lines : list string) : list Z :=
  omap (fun l => match classify l with Address ip => Some ip | _ => None end) lines.

Definition well_formed_line (l : string) : Prop := classify l <> Malformed.

(** * Proofs *)

Import Fp.

(** A power of two is positive. *)
Ltac pow_pos := apply Z.pow_pos_nonneg; lia.

(** ** Machine integers and the bucket index *)

Lemma to_u32_small x : 0 <= x < 2 ^ 32 -> to_u32 x = x.
Proof. intros. unfold to_u32. apply Z.mod_small. lia. Qed.

Lemma to_u64_small x : 0 <= x < 2 ^ 64 -> to_u64 x = x.
Proof. intros. unfold to_u64. apply Z.mod_small. lia. Qed.

Lemma to_size_small x : 0 <= x < 2 ^ 64 -> to_size x = x.
Proof. intros. unfold to_size. apply Z.mod_small. lia. Qed.

Lemma affine_wrap a b x :
  to_u32 (to_u64 (to_u64 (to_u64 a * to_u64 x) + to_u64 b)) = (a * x + b) mod 2 ^ 32.
Proof.
  unfold to_u32, to_u64.
  rewrite <- Z.mul_mod by lia.
  rewrite <- Z.add_mod by lia.
  apply Z.mod_mod_divide. exists (2 ^ 32). reflexivity.
Qed.

Lemma bucket_from_y_spec y k :
  0 <= y < 2 ^ 32 -> 0 <= k < 2 ^ 32 ->
  BucketEngine.bucket_from_y y k =
    if k =? 0 then 0 else if 32 <=? k then y else Z.shiftr y (32 - k).
Proof.
  intros Hy Hk. unfold BucketEngine.bucket_from_y.
  destruct (Z.eqb_spec k 0); [done|].
  destruct (Z.leb_spec 32 k); [done|].
  rewrite (to_u32_small (32 - k)) by lia.
  rewrite (to_u64_small y) by lia.
  apply to_u32_small.
  rewrite Z.shiftr_div_pow2 by lia.
  split; [apply Z.div_pos; lia|].
  apply Z.div_lt_upper_bound; [lia|].
  assert (0 < 2 ^ (32 - k)) by pow_pos. nia.
Qed.

Lemma bucket_count_spec cfg :
  0 <= Config.k cfg ->
  Config.bucket_count cfg = 2 ^ (Z.min (Config.k cfg) 32).
Proof.
  intros Hk. unfold Config.bucket_count.
  destruct (Z.leb_spec 32 (Config.k cfg)).
  - rewrite Z.min_r by lia. reflexivity.
  - rewrite Z.min_l by lia. rewrite Z.shiftl_1_l.
    apply to_size_small. split; [lia|].
    apply Z.pow_lt_mono_r; lia.
Qed.

Lemma bucket_count_range cfg :
  0 <= Config.k cfg -> 1 <= Config.bucket_count cfg <= 2 ^ 32.
Proof.
  intros Hk. rewrite bucket_count_spec by done.
  split.
  - assert (0 < 2 ^ Z.min (Config.k cfg) 32) by pow_pos. lia.
  - apply Z.pow_le_mono_r; lia.
Qed.

Lemma bucket_index_lt cfg x :
  0 <= Config.k cfg < 2 ^ 32 ->
  0 <= BucketEngine.bucket_index cfg x < Config.bucket_count cfg.
Proof.
  intros Hk. unfold BucketEngine.bucket_index.
  rewrite affine_wrap.
  set (y := (Config.a cfg * x + Config.b cfg) mod 2 ^ 32).
  assert (Hy : 0 <= y < 2 ^ 32) by (apply Z.mod_pos_bound; lia).
  rewrite bucket_from_y_spec by lia.
  rewrite bucket_count_spec by lia.
  destruct (Z.eqb_spec (Config.k cfg) 0) as [->|].
  - simpl. lia.
  - destruct (Z.leb_spec 32 (Config.k cfg)).
    + rewrite Z.min_r by lia. lia.
    + rewrite Z.min_l by lia. rewrite Z.shiftr_div_pow2 by lia.
      split; [apply Z.div_pos; lia|].
      apply Z.div_lt_upper_bound; [lia|].
      rewrite <- Z.pow_add_r by lia.
      replace (32 - Config.k cfg + Config.k cfg) with 32 by lia. lia.
Qed.

Section Histogram.

Lemma sum_counts_insert (l : list Z) (i : nat) (c v : Z) :
  l !! i = Some c -> sum_counts (<[i := v]> l) = sum_counts l - c + v.
Proof.
  revert i. induction l as [|x l IH]; intros [|i] H; simplify_eq/=; try lia.
  rewrite (IH i) by done. lia.
Qed.

Lemma sum_counts_lookup_le (l : list Z) (i : nat) (c : Z) :
  Forall (fun x => 0 <= x) l -> l !! i = Some c -> c <= sum_counts l.
Proof.
  intros Hl. revert i. induction Hl as [|x l Hx Hl IH]; intros [|i] H; simplify_eq/=.
  - assert (0 <= sum_counts l); [|lia].
    clear -Hl. induction Hl; simpl; lia.
  - specialize (IH i H). lia.
Qed.

Lemma sum_counts_replicate (n : nat) : sum_counts (replicate n 0) = 0.
Proof. induction n; simpl; lia. Qed.

Lemma bump_length (counts : list Z) (b : Z) :
  length (BucketEngine.bump counts b) = length counts.
Proof.
  unfold BucketEngine.bump. destruct (_ <? _); [|done].
  destruct (counts !! _); [|done]. apply length_insert.
Qed.

Lemma bump_in_range (counts : list Z) (b : Z) :
  0 <= b < Z.of_nat (length counts) -> Z.of_nat (length counts) < 2 ^ 64 ->
  exists c, counts !! Z.to_nat b = Some c /\
    BucketEngine.bump counts b = <[Z.to_nat b := to_size (c + 1)]> counts.
Proof.
  intros Hb Hlen. unfold BucketEngine.bump.
  rewrite to_size_small by lia.
  destruct (Z.ltb_spec b (Z.of_nat (length counts))); [|lia].
  destruct (lookup_lt_is_Some_2 counts (Z.to_nat b)) as [c Hc]; [lia|].
  exists c. by rewrite Hc.
Qed.

Lemma bump_sum (counts : list Z) (b : Z) :
  0 <= b < Z.of_nat (length counts) -> Z.of_nat (length counts) < 2 ^ 64 ->
  Forall (fun x => 0 <= x) counts -> sum_counts counts < 2 ^ 64 - 1 ->
  sum_counts (BucketEngine.bump counts b) = sum_counts counts + 1 /\
  Forall (fun x => 0 <= x) (BucketEngine.bump counts b).
Proof.
  intros Hb Hlen Hpos Hsum.
  destruct (bump_in_range counts b Hb Hlen) as (c & Hc & ->).
  pose proof (sum_counts_lookup_le _ _ _ Hpos Hc) as Hle.
  assert (0 <= c) by (eapply (Forall_lookup_1 _ _ _ _ Hpos Hc)).
  rewrite to_size_small by lia.
  split.
  - rewrite (sum_counts_insert _ _ c) by done. lia.
  - apply Forall_insert; [done|lia].
Qed.

Lemma bump_lookup (counts : list Z) (b : Z) (i : nat) (c : Z) :
  0 <= b < Z.of_nat (length counts) -> Z.of_nat (length counts) < 2 ^ 64 ->
  counts !! i = Some c -> 0 <= c < 2 ^ 64 - 1 ->
  BucketEngine.bump counts b !! i = Some (if decide (b = Z.of_nat i) then c + 1 else c).
Proof.
  intros Hb Hlen Hi Hc.
  destruct (bump_in_range counts b Hb Hlen) as (c' & Hc' & ->).
  case_decide as Hbi.
  - subst b. rewrite Nat2Z.id in *. simplify_eq.
    rewrite list_lookup_insert_eq by (by eapply lookup_lt_Some).
    by rewrite to_size_small by lia.
  - rewrite list_lookup_insert_ne by lia. done.
Qed.

Variable cfg : Config.t.
Hypothesis Hk : 0 <= Config.k cfg < 2 ^ 32.

Lemma hits_cons (i v : Z) (vs : list Z) :
  hits cfg i (v :: vs) =
    (if decide (BucketEngine.bucket_index cfg v = i) then 1 else 0) + hits cfg i vs.
Proof.
  unfold hits. rewrite filter_cons. case_decide; simpl; lia.
Qed.

Lemma hits_range (i : Z) (vs : list Z) : 0 <= hits cfg i vs <= Z.of_nat (length vs).
Proof.
  unfold hits. pose proof (length_filter (fun v => BucketEngine.bucket_index cfg v = i) vs). lia.
Qed.

Lemma fold_step_length (vs counts : list Z) :
  length (fold_left (step cfg) vs counts) = length counts.
Proof.
  revert counts. induction vs as [|v vs IH]; intros counts; simpl; [done|].
  rewrite IH. apply bump_length.
Qed.

Lemma fold_step_sum (vs counts : list Z) :
  Z.of_nat (length counts) = Config.bucket_count cfg ->
  Forall (fun x => 0 <= x) counts ->
  sum_counts counts + Z.of_nat (length vs) < 2 ^ 64 ->
  sum_counts (fold_left (step cfg) vs counts) = sum_counts counts + Z.of_nat (length vs).
Proof.
  revert counts. induction vs as [|v vs IH]; intros counts Hlen Hpos Hsum; simpl in *; [lia|].
  pose proof (bucket_index_lt cfg v Hk) as Hb.
  pose proof (bucket_count_range cfg ltac:(lia)) as Hm.
  destruct (bump_sum counts (BucketEngine.bucket_index cfg v)) as [Hs Hp]; [lia | lia | done | lia |].
  unfold step at 2. rewrite IH; rewrite ?bump_length; try done; lia.
Qed.

Lemma fold_step_lookup (vs counts : list Z) (i : nat) (c : Z) :
  Z.of_nat (length counts) = Config.bucket_count cfg ->
  counts !! i = Some c -> 0 <= c -> c + Z.of_nat (length vs) < 2 ^ 64 ->
  fold_left (step cfg) vs counts !! i = Some (c + hits cfg (Z.of_nat i) vs).
Proof.
  revert counts c. induction vs as [|v vs IH]; intros counts c Hlen Hi Hc Hsum; simpl in *.
  - unfold hits. simpl. rewrite Z.add_0_r. done.
  - pose proof (bucket_index_lt cfg v Hk) as Hb.
    pose proof (bucket_count_range cfg ltac:(lia)) as Hm.
    rewrite hits_cons. unfold step at 2.
    set (bi := BucketEngine.bucket_index cfg v) in *.
    assert (Hc' : 0 <= hits cfg (Z.of_nat i) vs) by apply hits_range.
    rewrite (IH (BucketEngine.bump counts bi) (if decide (bi = Z.of_nat i) then c + 1 else c)).
    + f_equal. repeat case_decide; lia.
    + by rewrite bump_length.
    + apply bump_lookup; [lia | lia | done | lia].
    + case_decide; lia.
    + case_decide; lia.
Qed.

End Histogram.

Lemma range_loop_unroll (cfg : Config.t) (n : nat) :
  forall (fuel : nat) (v e : Z) (counts : list Z),
  0 <= v -> e < 2 ^ 64 -> Z.of_nat n = e - v -> (n <= fuel)%nat ->
  BucketEngine.range_loop fuel cfg v e counts =
    Some (fold_left (step cfg) (to_u32 <$> seqZ v (e - v)) counts).
Proof.
  induction n as [|n IH]; intros fuel v e counts Hv He Hn Hfuel.
  - replace (e - v) with 0 by lia.
    destruct fuel; simpl; destruct (Z.ltb_spec v e); try lia; done.
  - destruct fuel as [|fuel]; [lia|]. simpl.
    destruct (Z.ltb_spec v e); [|lia].
    rewrite (to_u64_small (v + 1)) by lia.
    rewrite IH by lia.
    rewrite (seqZ_cons v (e - v)) by lia. simpl.
    replace (Z.pred (e - v)) with (e - (v + 1)) by lia.
    replace (Z.succ v) with (v + 1) by lia. done.
Qed.

Lemma fmap_to_u32_seqZ (v len : Z) :
  0 <= v -> v + len <= 2 ^ 32 -> to_u32 <$> seqZ v len = seqZ v len.
Proof.
  intros Hv Hlen. apply list_eq. intros i.
  rewrite list_lookup_fmap.
  destruct (seqZ v len !! i) as [x|] eqn:Hx; [|done]. simpl.
  apply lookup_seqZ in Hx as [-> ?]. f_equal. apply to_u32_small. lia.
Qed.

(** ** IEEE-754 rounding *)
(** *** Binary digits *)

Lemma digits2_pos_size (p : positive) : digits2_pos p = Pos.size p.
Proof. induction p; simpl; congruence. Qed.

Lemma Zdigits2_bounds (m : Z) :
  0 < m -> 0 < Zdigits2 m /\ 2 ^ (Zdigits2 m - 1) <= m < 2 ^ Zdigits2 m.
Proof.
  destruct m as [|p|p]; try lia. intros _. cbn [Zdigits2].
  rewrite digits2_pos_size.
  pose proof (Pos.size_gt p) as Hgt. pose proof (Pos.size_le p) as Hle.
  split; [lia|].
  assert (Hpow : forall q, Zpos (2 ^ q) = 2 ^ Zpos q) by (intros; apply Pos2Z.inj_pow).
  assert (Zpos p < 2 ^ Zpos (Pos.size p)) by (rewrite <- Hpow; lia).
  assert (2 ^ Zpos (Pos.size p) <= 2 * Zpos p) by (rewrite <- Hpow; lia).
  split; [|lia].
  assert (2 ^ Zpos (Pos.size p) = 2 * 2 ^ (Zpos (Pos.size p) - 1)).
  { rewrite <- Z.pow_succ_r by lia. f_equal. lia. }
  lia.
Qed.

Lemma Zdigits2_unique (m d : Z) :
  2 ^ (d - 1) <= m < 2 ^ d -> 0 < m -> Zdigits2 m = d.
Proof.
  intros [Hlo Hhi] Hm.
  destruct (Zdigits2_bounds m Hm) as (Hd & Hlo' & Hhi').
  assert (0 < d).
  { destruct (Z_lt_le_dec 0 d) as [|Hd0]; [done|].
    assert (2 ^ d <= 2 ^ 0) by (apply Z.pow_le_mono_r; lia).
    change (2 ^ 0) with 1 in *. lia. }
  destruct (Z.lt_trichotomy (Zdigits2 m) d) as [Hlt|[Heq|Hgt]]; [|done|].
  - assert (2 ^ Zdigits2 m <= 2 ^ (d - 1)) by (apply Z.pow_le_mono_r; lia). lia.
  - assert (2 ^ d <= 2 ^ (Zdigits2 m - 1)) by (apply Z.pow_le_mono_r; lia). lia.
Qed.

Lemma Zdigits2_mul_pow2 (m n : Z) :
  0 < m -> 0 <= n -> Zdigits2 (m * 2 ^ n) = Zdigits2 m + n.
Proof.
  intros Hm Hn. destruct (Zdigits2_bounds m Hm) as (Hd & Hlo & Hhi).
  assert (Hp : 0 < 2 ^ n) by pow_pos.
  apply Zdigits2_unique; [|nia].
  replace (Zdigits2 m + n - 1) with (Zdigits2 m - 1 + n) by lia.
  rewrite !Z.pow_add_r by lia. nia.
Qed.

Lemma Zdigits2_le (m d : Z) : 0 < m -> m < 2 ^ d -> Zdigits2 m <= d.
Proof.
  intros Hm Hlt. destruct (Zdigits2_bounds m Hm) as (Hd & Hlo & Hhi).
  destruct (Z_lt_le_dec d (Zdigits2 m)); [|done].
  assert (2 ^ d <= 2 ^ (Zdigits2 m - 1)) by (apply Z.pow_le_mono_r; lia). lia.
Qed.

Lemma Zdigits2_ge (m d : Z) : 0 < m -> 2 ^ (d - 1) <= m -> d <= Zdigits2 m.
Proof.
  intros Hm Hlt. destruct (Zdigits2_bounds m Hm) as (Hd & Hlo & Hhi).
  destruct (Z_lt_le_dec (Zdigits2 m) d); [|done].
  assert (2 ^ Zdigits2 m <= 2 ^ (d - 1)) by (apply Z.pow_le_mono_r; lia). lia.
Qed.

(** *** Shifting right *)

Lemma iter_pos_nat {A : Type} (f : A -> A) (p : positive) (x : A) :
  SpecFloat.iter_pos f p x = Nat.iter (Pos.to_nat p) f x.
Proof.
  revert x. induction p as [p IH|p IH|]; intros x; cbn [SpecFloat.iter_pos].
  - rewrite !IH, Pos2Nat.inj_xI.
    replace (S (2 * Pos.to_nat p)) with (Pos.to_nat p + S (Pos.to_nat p))%nat by lia.
    rewrite Nat.iter_add. f_equal. by rewrite Nat.iter_succ_r.
  - rewrite !IH, Pos2Nat.inj_xO.
    replace (2 * Pos.to_nat p)%nat with (Pos.to_nat p + Pos.to_nat p)%nat by lia.
    by rewrite Nat.iter_add.
  - done.
Qed.

Lemma shr_1_m (mrs : shr_record) :
  0 <= shr_m mrs -> shr_m (shr_1 mrs) = shr_m mrs / 2.
Proof.
  destruct mrs as [m r s]. simpl. intros Hm.
  destruct m as [|[p|p|]|p]; simpl; try lia; try done.
  - rewrite Pos2Z.inj_xI. apply (Z.div_unique _ _ _ 1); lia.
  - rewrite Pos2Z.inj_xO. apply (Z.div_unique _ _ _ 0); lia.
Qed.

Lemma shr_1_exact (mrs : shr_record) :
  0 <= shr_m mrs -> shr_exact mrs -> shr_m mrs mod 2 = 0 -> shr_exact (shr_1 mrs).
Proof.
  destruct mrs as [m r s]. unfold shr_exact. simpl. intros Hm [-> ->] Hmod.
  destruct m as [|[p|p|]|p]; simpl; try lia; try done.
  rewrite Pos2Z.inj_xI in Hmod.
  rewrite <- (Z.mod_unique (2 * Zpos p + 1) 2 (Zpos p) 1) in Hmod; lia.
Qed.

Lemma shr_iter (n : nat) (mrs : shr_record) :
  0 <= shr_m mrs ->
  shr_m (Nat.iter n shr_1 mrs) = shr_m mrs / 2 ^ Z.of_nat n /\
  (shr_exact mrs -> shr_m mrs mod 2 ^ Z.of_nat n = 0 ->
   shr_exact (Nat.iter n shr_1 mrs)).
Proof.
  intros Hm. induction n as [|n [IHm IHx]].
  - simpl. rewrite Z.div_1_r. done.
  - assert (Hp : 0 < 2 ^ Z.of_nat n) by pow_pos.
    assert (Hpow : 2 ^ Z.of_nat (S n) = 2 ^ Z.of_nat n * 2).
    { rewrite Nat2Z.inj_succ, Z.pow_succ_r by lia. lia. }
    assert (H0 : 0 <= shr_m (Nat.iter n shr_1 mrs)).
    { rewrite IHm. apply Z.div_pos; lia. }
    change (Nat.iter (S n) shr_1 mrs) with (shr_1 (Nat.iter n shr_1 mrs)). split.
    + rewrite shr_1_m by done. rewrite IHm, Hpow, Z.div_div by lia. done.
    + intros Hx Hmod. rewrite Hpow in Hmod.
      rewrite Z.rem_mul_r in Hmod by lia.
      assert (0 <= shr_m mrs mod 2 ^ Z.of_nat n < 2 ^ Z.of_nat n) by (apply Z.mod_pos_bound; lia).
      assert (0 <= (shr_m mrs / 2 ^ Z.of_nat n) mod 2 < 2) by (apply Z.mod_pos_bound; lia).
      apply shr_1_exact; [done| |].
      * apply IHx; [done|nia].
      * rewrite IHm. nia.
Qed.

Lemma shr_spec (mrs : shr_record) (e n : Z) :
  0 <= shr_m mrs -> 0 <= n ->
  snd (shr mrs e n) = e + n /\
  shr_m (fst (shr mrs e n)) = shr_m mrs / 2 ^ n /\
  (shr_exact mrs -> shr_m mrs mod 2 ^ n = 0 -> shr_exact (fst (shr mrs e n))) /\
  (n = 0 -> fst (shr mrs e n) = mrs).
Proof.
  intros Hm Hn. destruct n as [|p|p]; [| |lia].
  - simpl. rewrite Z.div_1_r. split; [lia|]. split; [done|]. split; [tauto|done].
  - simpl. rewrite iter_pos_nat.
    destruct (shr_iter (Pos.to_nat p) mrs Hm) as [H1 H2].
    rewrite positive_nat_Z in *. split; [done|]. split; [done|]. split; [done|lia].
Qed.

Lemma rne_bounds (m : Z) (l : location) :
  m <= round_nearest_even m l <= m + 1.
Proof.
  destruct l as [|[| |]]; simpl; try lia. destruct (Z.even m); lia.
Qed.

Lemma loc_of_shr_exact (mrs : shr_record) :
  shr_exact mrs -> loc_of_shr_record mrs = loc_Exact.
Proof. destruct mrs as [m r s]. intros [H1 H2]. simpl in *. by subst. Qed.

Lemma shr_m_record_of_loc (m : Z) (l : location) :
  shr_m (shr_record_of_loc m l) = m.
Proof. by destruct l as [|[| |]]. Qed.

Lemma shr_exact_of_loc (m : Z) : shr_exact (shr_record_of_loc m loc_Exact).
Proof. done. Qed.

Lemma vle_base (b m1 e1 m2 e2 : Z) :
  b <= e1 -> b <= e2 ->
  (vle m1 e1 m2 e2 <-> m1 * 2 ^ (e1 - b) <= m2 * 2 ^ (e2 - b)).
Proof.
  intros H1 H2. unfold vle. set (c := Z.min e1 e2).
  assert (Hc : 0 < 2 ^ (c - b)) by pow_pos.
  replace (e1 - b) with ((e1 - c) + (c - b)) by lia.
  replace (e2 - b) with ((e2 - c) + (c - b)) by lia.
  rewrite !Z.pow_add_r by lia.
  rewrite !Z.mul_assoc. split; intros H; [nia|].
  apply Z.mul_le_mono_pos_r in H; done.
Qed.

Lemma vle_shift_r (M E m e k : Z) :
  0 <= k -> (vle M E (m * 2 ^ k) (e - k) <-> vle M E m e).
Proof.
  intros Hk. set (b := Z.min E (e - k)).
  rewrite (vle_base b M E (m * 2 ^ k) (e - k)) by lia.
  rewrite (vle_base b M E m e) by lia.
  replace (e - b) with (k + (e - k - b)) by lia.
  rewrite Z.pow_add_r by lia. by rewrite Z.mul_assoc.
Qed.

Lemma vle_shift_l (M E m e k : Z) :
  0 <= k -> (vle (m * 2 ^ k) (e - k) M E <-> vle m e M E).
Proof.
  intros Hk. set (b := Z.min E (e - k)).
  rewrite (vle_base b (m * 2 ^ k) (e - k) M E) by lia.
  rewrite (vle_base b m e M E) by lia.
  replace (e - b) with (k + (e - k - b)) by lia.
  rewrite Z.pow_add_r by lia. by rewrite Z.mul_assoc.
Qed.

Lemma shl_align_spec (mx : positive) (ex ex' : Z) :
  let '(mz, ez) := shl_align mx ex ex' in
  ez = Z.min ex ex' /\ Zpos mz = Zpos mx * 2 ^ (ex - ez).
Proof.
  unfold shl_align. destruct (ex' - ex) as [|d|d] eqn:Hd.
  - rewrite Z.min_l by lia. rewrite Z.sub_diag. lia.
  - rewrite Z.min_l by lia. rewrite Z.sub_diag. lia.
  - rewrite Z.min_r by lia. split; [done|].
    change (Pos.iter xO mx d) with (shift_pos d mx).
    rewrite shift_pos_correct. replace (ex - ex') with (Zpos d) by lia.
    change (Z.pow_pos 2 d) with (2 ^ Zpos d). lia.
Qed.

Section Round.
Variables prec emax : Z.
Hypothesis Hprec : 0 < prec.

Local Abbreviation fexp := (SpecFloat.fexp prec emax).
Local Abbreviation emin := (SpecFloat.emin prec emax).
Local Abbreviation canon := (canonical prec emax).

Lemma fexp_ge_emin (e : Z) : emin <= fexp e.
Proof. unfold SpecFloat.fexp. lia. Qed.

Lemma fexp_mono (e e' : Z) : e <= e' -> fexp e <= fexp e'.
Proof. unfold SpecFloat.fexp. lia. Qed.

Lemma shr_nonpos (mrs : shr_record) (e n : Z) : n <= 0 -> shr mrs e n = (mrs, e).
Proof. destruct n; [done|lia|done]. Qed.

(** What [binary_round_aux] computes on a mantissa with enough digits: the
    mantissa is cut to the exponent [e1] of the format, rounded to [m2] (one
    of the two neighbours, the lower one when nothing was cut off), and
    shifted once more if the rounding carried. *)
Lemma bra_spec (s : bool) (m e : Z) (l : location) :
  0 < m -> e <= fexp (Zdigits2 m + e) ->
  let e1 := fexp (Zdigits2 m + e) in
  let m1 := m / 2 ^ (e1 - e) in
  exists m2, m1 <= m2 <= m1 + 1 /\ m1 < 2 ^ prec /\
    (emin < e1 -> 2 ^ (prec - 1) <= m1) /\
    (l = loc_Exact -> m mod 2 ^ (e1 - e) = 0 -> m2 = m1) /\
    binary_round_aux prec emax s m e l =
      finish prec emax s (fst (renorm prec m2 e1)) (snd (renorm prec m2 e1)).
Proof.
  intros Hm He e1 m1.
  destruct (Zdigits2_bounds m Hm) as (Hd & Hlo & Hhi).
  set (d := Zdigits2 m) in *.
  subst m1. set (n := e1 - e) in *. set (m1 := m / 2 ^ n) in *.
  assert (Hn : 0 <= n) by (unfold n, e1; lia).
  assert (Hpn : 0 < 2 ^ n) by pow_pos.
  assert (Hpp : 0 < 2 ^ (prec - 1)) by pow_pos.
  assert (Hp2 : 2 ^ prec = 2 * 2 ^ (prec - 1)).
  { rewrite <- Z.pow_succ_r by lia. f_equal. lia. }
  assert (Hemin : emin <= e1) by apply fexp_ge_emin.
  assert (He1 : d + e - prec <= e1) by (unfold e1, SpecFloat.fexp; lia).
  assert (Hm1 : 0 <= m1) by (apply Z.div_pos; lia).
  assert (Hm1' : m1 < 2 ^ prec).
  { apply Z.div_lt_upper_bound; [lia|].
    rewrite <- Z.pow_add_r by lia.
    assert (2 ^ d <= 2 ^ (n + prec)) by (apply Z.pow_le_mono_r; [lia | unfold n; lia]).
    lia. }
  assert (Hnorm : emin < e1 -> 2 ^ (prec - 1) <= m1).
  { intros Hlt. assert (e1 = d + e - prec) by (unfold e1, SpecFloat.fexp in *; lia).
    apply Z.div_le_lower_bound; [lia|].
    rewrite Z.mul_comm, <- Z.pow_add_r by lia.
    replace (prec - 1 + n) with (d - 1) by (unfold n; lia). lia. }
  unfold binary_round_aux, shr_fexp. fold d. fold e1. fold n.
  pose proof (shr_spec (shr_record_of_loc m l) e n) as Hshr.
  rewrite shr_m_record_of_loc in Hshr.
  destruct Hshr as (Hs1 & Hs2 & Hs3 & Hs4); [lia | lia |].
  destruct (shr (shr_record_of_loc m l) e n) as [mrs' e'] eqn:Hshr. simpl in Hs1, Hs2, Hs3, Hs4.
  fold m1 in Hs2. rewrite Hs2.
  set (m2 := round_nearest_even m1 (loc_of_shr_record mrs')).
  replace e' with e1 by (unfold n in Hs1; lia).
  pose proof (rne_bounds m1 (loc_of_shr_record mrs')) as Hb. fold m2 in Hb.
  exists m2. split; [done|]. split; [done|]. split; [done|]. split.
  { intros -> Hmod. unfold m2. rewrite loc_of_shr_exact; [done|].
    apply Hs3; [apply shr_exact_of_loc | done]. }
  unfold renorm. destruct (Z.ltb_spec m2 (2 ^ prec)) as [Hlt|Hge]; cbn [fst snd].
  - assert (Hn2 : fexp (Zdigits2 m2 + e1) - e1 <= 0).
    { destruct (Z.eq_dec m2 0) as [->|Hne].
      - simpl. unfold SpecFloat.fexp in *. lia.
      - pose proof (Zdigits2_le m2 prec ltac:(lia) Hlt). unfold SpecFloat.fexp in *. lia. }
    rewrite shr_nonpos by done. simpl. destruct m2; try done; lia.
  - assert (m2 = 2 ^ prec) as Hm2 by lia.
    assert (Zdigits2 m2 = prec + 1) as Hd2.
    { apply Zdigits2_unique; [|lia]. rewrite Hm2.
      replace (prec + 1 - 1) with prec by lia.
      rewrite Z.pow_add_r by lia. lia. }
    rewrite Hd2.
    assert (fexp (prec + 1 + e1) - e1 = 1) as -> by (unfold SpecFloat.fexp in *; lia).
    pose proof (shr_spec (shr_record_of_loc m2 loc_Exact) e1 1) as Hshr2.
    rewrite shr_m_record_of_loc in Hshr2.
    destruct Hshr2 as (Ht1 & Ht2 & _ & _); [lia | lia |].
    destruct (shr (shr_record_of_loc m2 loc_Exact) e1 1) as [mrs'' e''].
    simpl in Ht1, Ht2. rewrite Ht2, Ht1.
    replace (m2 / 2 ^ 1) with (2 ^ (prec - 1)); [done|].
    rewrite Hm2, Hp2. change (2 ^ 1) with 2. apply Z.div_unique_exact; lia.
Qed.

Lemma shr_fexp_nonneg (m e : Z) (l : location) :
  0 <= m -> 0 <= shr_m (fst (shr_fexp prec emax m e l)).
Proof.
  intros Hm. unfold shr_fexp.
  destruct (Z_le_gt_dec 0 (fexp (Zdigits2 m + e) - e)) as [Hn|Hn].
  - destruct (shr_spec (shr_record_of_loc m l) e _ ltac:(by rewrite shr_m_record_of_loc) Hn)
      as (_ & -> & _).
    rewrite shr_m_record_of_loc. apply Z.div_pos; [done|]. apply Z.pow_pos_nonneg; lia.
  - rewrite shr_nonpos by lia. simpl. by rewrite shr_m_record_of_loc.
Qed.

(** Rounding never produces a NaN and keeps the sign it is given. *)
Lemma bra_has_sign (s : bool) (m e : Z) (l : location) :
  0 <= m -> has_sign s (binary_round_aux prec emax s m e l).
Proof.
  intros Hm. unfold binary_round_aux.
  pose proof (shr_fexp_nonneg m e l Hm) as H1.
  destruct (shr_fexp prec emax m e l) as [mrs' e']. simpl in H1.
  pose proof (rne_bounds (shr_m mrs') (loc_of_shr_record mrs')) as Hb.
  pose proof (shr_fexp_nonneg (round_nearest_even (shr_m mrs') (loc_of_shr_record mrs'))
                e' loc_Exact ltac:(lia)) as H2.
  destruct (shr_fexp prec emax _ e' loc_Exact) as [mrs'' e'']. simpl in H2.
  destruct (shr_m mrs''); [done| |lia]. by destruct (_ <=? _).
Qed.

Lemma canon_facts (m e : Z) :
  0 < m -> canon m e -> emin <= e /\ Zdigits2 m <= prec /\ m < 2 ^ prec /\
    (emin < e -> Zdigits2 m = prec /\ 2 ^ (prec - 1) <= m).
Proof.
  intros Hm Hc. unfold canonical, SpecFloat.fexp in Hc.
  destruct (Zdigits2_bounds m Hm) as (Hd & Hlo & Hhi).
  assert (Zdigits2 m <= prec) by lia.
  assert (2 ^ Zdigits2 m <= 2 ^ prec) by (apply Z.pow_le_mono_r; lia).
  repeat split; try lia.
  assert (Zdigits2 m = prec) as Heq by lia. rewrite Heq in Hlo. done.
Qed.

(** Digits follow the order of values. *)
Lemma vle_digits (m1 e1 m2 e2 : Z) :
  0 < m1 -> 0 < m2 -> vle m1 e1 m2 e2 -> Zdigits2 m1 + e1 <= Zdigits2 m2 + e2.
Proof.
  intros H1 H2 Hle.
  destruct (Zdigits2_bounds m1 H1) as (Hd1 & Hlo1 & Hhi1).
  destruct (Zdigits2_bounds m2 H2) as (Hd2 & Hlo2 & Hhi2).
  unfold vle in Hle. set (b := Z.min e1 e2) in *.
  destruct (Z_le_gt_dec (Zdigits2 m1 + e1) (Zdigits2 m2 + e2)) as [|Hgt]; [done|exfalso].
  assert (0 < 2 ^ (e1 - b)) by pow_pos.
  assert (0 < 2 ^ (e2 - b)) by pow_pos.
  assert (m2 * 2 ^ (e2 - b) < 2 ^ (Zdigits2 m2 + (e2 - b))).
  { rewrite Z.pow_add_r by lia. nia. }
  assert (2 ^ (Zdigits2 m1 - 1 + (e1 - b)) <= m1 * 2 ^ (e1 - b)).
  { rewrite Z.pow_add_r by lia. nia. }
  assert (2 ^ (Zdigits2 m2 + (e2 - b)) <= 2 ^ (Zdigits2 m1 - 1 + (e1 - b)))
    by (apply Z.pow_le_mono_r; lia).
  lia.
Qed.

(** The result of rounding is a canonical float. *)
Lemma renorm_canon (m2 e1 m1 : Z) :
  emin <= e1 -> 0 < m2 -> m1 <= m2 <= m1 + 1 -> m1 < 2 ^ prec ->
  (emin < e1 -> 2 ^ (prec - 1) <= m1) ->
  canon (fst (renorm prec m2 e1)) (snd (renorm prec m2 e1)).
Proof.
  intros Hemin Hm2 Hb Hm1 Hnorm. unfold renorm, canonical.
  assert (Hp2 : 2 ^ prec = 2 * 2 ^ (prec - 1)).
  { rewrite <- Z.pow_succ_r by lia. f_equal. lia. }
  assert (Hpp : 0 < 2 ^ (prec - 1)) by pow_pos.
  destruct (Z.ltb_spec m2 (2 ^ prec)) as [Hlt|Hge]; cbn [fst snd].
  - pose proof (Zdigits2_le m2 prec Hm2 Hlt).
    destruct (Z.eq_dec e1 emin) as [->|Hne]; [unfold SpecFloat.fexp; lia|].
    specialize (Hnorm ltac:(lia)).
    rewrite (Zdigits2_unique m2 prec) by lia. unfold SpecFloat.fexp. lia.
  - rewrite (Zdigits2_unique (2 ^ (prec - 1)) prec) by lia. unfold SpecFloat.fexp. lia.
Qed.

Lemma finish_valid (s : bool) (m e : Z) :
  0 <= m -> (0 < m -> canon m e) -> valid_binary prec emax (finish prec emax s m e) = true.
Proof.
  intros Hm Hc. unfold finish. destruct m as [|p|p]; [done| |lia].
  destruct (Z.leb_spec e (emax - prec)); [|done].
  simpl. unfold bounded, canonical_mantissa.
  specialize (Hc ltac:(lia)). unfold canonical in Hc. simpl in Hc. rewrite Hc.
  rewrite Z.eqb_refl. simpl. by apply Z.leb_le.
Qed.

Lemma bra_valid (s : bool) (m e : Z) (l : location) :
  0 < m -> e <= fexp (Zdigits2 m + e) ->
  valid_binary prec emax (binary_round_aux prec emax s m e l) = true.
Proof.
  intros Hm He.
  destruct (bra_spec s m e l Hm He) as (m2 & Hb & Hm1 & Hnorm & _ & ->).
  assert (0 <= m / 2 ^ (fexp (Zdigits2 m + e) - e)).
  { apply Z.div_pos; [lia|]. apply Z.pow_pos_nonneg; lia. }
  pose proof (fexp_ge_emin (Zdigits2 m + e)) as Hemin.
  assert (Hp : 0 < 2 ^ (prec - 1)) by pow_pos.
  apply finish_valid.
  - unfold renorm. destruct (_ <? _); simpl; lia.
  - intros Hpos. eapply renorm_canon; try done.
    unfold renorm in Hpos.
    assert (0 < 2 ^ prec) by pow_pos.
    destruct (Z.ltb_spec m2 (2 ^ prec)); simpl in Hpos; lia.
Qed.

(** On canonical pairs the order of [SFcompare] is the order of values. *)
Lemma lex_vle (m1 e1 m2 e2 : Z) :
  0 < m1 -> 0 < m2 -> canon m1 e1 -> canon m2 e2 ->
  lex_le m1 e1 m2 e2 -> vle m1 e1 m2 e2.
Proof.
  intros H1 H2 C1 C2 Hlex.
  destruct (canon_facts m1 e1 H1 C1) as (Ha & Hb & Hc & Hd).
  destruct (canon_facts m2 e2 H2 C2) as (Ha' & Hb' & Hc' & Hd').
  assert (Hp2 : 2 ^ prec = 2 * 2 ^ (prec - 1)).
  { rewrite <- Z.pow_succ_r by lia. f_equal. lia. }
  destruct Hlex as [Hlt|[-> Hle]].
  - apply (vle_base e1); [lia..|]. rewrite Z.sub_diag, Z.mul_1_r.
    destruct (Hd' ltac:(lia)) as [_ Hm2].
    assert (2 ^ 1 <= 2 ^ (e2 - e1)) by (apply Z.pow_le_mono_r; lia).
    change (2 ^ 1) with 2 in *. nia.
  - apply (vle_base e2); [lia..|]. rewrite Z.sub_diag. lia.
Qed.

(** Rounding is monotone below: no result falls under a representable
    lower bound of the exact value. *)
Lemma bra_lower (s : bool) (m e : Z) (l : location) (M E : Z) :
  0 < m -> e <= fexp (Zdigits2 m + e) ->
  0 < M -> canon M E -> vle M E m e ->
  match binary_round_aux prec emax s m e l with
  | S754_finite _ m' e' => vle M E (Zpos m') e'
  | S754_infinity _ => True
  | _ => False
  end.
Proof.
  intros Hm He HM HC Hle.
  destruct (bra_spec s m e l Hm He) as (m2 & Hb & Hm1 & Hnorm & _ & ->).
  pose proof (vle_digits M E m e HM Hm Hle) as Hdig.
  destruct (canon_facts M E HM HC) as (Ha & _ & Hc & _).
  set (e1 := fexp (Zdigits2 m + e)) in *.
  set (m1 := m / 2 ^ (e1 - e)) in *.
  assert (HE : E <= e1).
  { unfold canonical in HC. rewrite <- HC. by apply fexp_mono. }
  assert (Hp2 : 2 ^ prec = 2 * 2 ^ (prec - 1)).
  { rewrite <- Z.pow_succ_r by lia. f_equal. lia. }
  assert (Hpp : 0 < 2 ^ (prec - 1)) by pow_pos.
  assert (Hpn : 0 < 2 ^ (e1 - e)) by pow_pos.
  assert (Hlow : M <= m2 * 2 ^ (e1 - E)).
  { destruct (Z.eq_dec E e1) as [Heq|Hne].
    - rewrite Heq, Z.sub_diag, Z.mul_1_r.
      apply (vle_base e) in Hle; [|lia..].
      rewrite Z.sub_diag, Z.mul_1_r, Heq in Hle.
      assert (M <= m1); [|lia].
      apply Z.div_le_lower_bound; lia.
    - specialize (Hnorm ltac:(lia)).
      assert (2 ^ 1 <= 2 ^ (e1 - E)) by (apply Z.pow_le_mono_r; lia).
      change (2 ^ 1) with 2 in *. nia. }
  assert (Hpe : 0 < 2 ^ (e1 - E)) by pow_pos.
  assert (Hm2 : 0 < m2) by nia.
  unfold renorm. destruct (Z.ltb_spec m2 (2 ^ prec)) as [Hlt|Hge]; cbn [fst snd].
  - unfold finish. destruct m2 as [|p|p]; try lia.
    destruct (_ <=? _); [|done].
    apply (vle_base E); [lia..|]. rewrite Z.sub_diag. lia.
  - unfold finish. destruct (2 ^ (prec - 1)) as [|p|p] eqn:Hp; try lia.
    destruct (_ <=? _); [|done].
    apply (vle_base E); [lia..|]. rewrite Z.sub_diag.
    replace (e1 + 1 - E) with (e1 - E + 1) by lia.
    rewrite Z.pow_add_r by lia. change (2 ^ 1) with 2. nia.
Qed.

(** ... and above: an exact value at most a representable bound rounds to
    at most that bound, without overflow. *)
Lemma bra_upper_exact (s : bool) (m e : Z) (M E : Z) :
  0 < m -> e <= fexp (Zdigits2 m + e) ->
  0 < M -> canon M E -> E <= emax - prec -> vle m e M E ->
  match binary_round_aux prec emax s m e loc_Exact with
  | S754_finite _ m' e' => lex_le (Zpos m') e' M E
  | S754_zero _ => True
  | _ => False
  end.
Proof.
  intros Hm He HM HC HE Hle.
  destruct (bra_spec s m e loc_Exact Hm He)
    as (m2 & Hb & Hm1 & Hnorm & Hex & ->).
  specialize (Hex eq_refl).
  pose proof (vle_digits m e M E Hm HM Hle) as Hdig.
  destruct (canon_facts M E HM HC) as (Ha & _ & Hc & Hd).
  pose proof (fexp_ge_emin (Zdigits2 m + e)) as Hemin.
  set (e1 := fexp (Zdigits2 m + e)) in *.
  set (m1 := m / 2 ^ (e1 - e)) in *.
  assert (HE1 : e1 <= E).
  { unfold canonical in HC. rewrite <- HC. by apply fexp_mono. }
  assert (Hp2 : 2 ^ prec = 2 * 2 ^ (prec - 1)).
  { rewrite <- Z.pow_succ_r by lia. f_equal. lia. }
  assert (Hpp : 0 < 2 ^ (prec - 1)) by pow_pos.
  assert (Hpn : 0 < 2 ^ (e1 - e)) by pow_pos.
  assert (H0 : 0 <= m1) by (apply Z.div_pos; lia).
  destruct (Z.eq_dec e1 E) as [Heq|Hne].
  - assert (Hm2 : m2 <= M).
    { apply (vle_base e) in Hle; [|lia..].
      rewrite Z.sub_diag, Z.mul_1_r, <- Heq in Hle.
      pose proof (Z.div_mod m (2 ^ (e1 - e)) ltac:(lia)) as Hdm. fold m1 in Hdm.
      pose proof (Z.mod_pos_bound m (2 ^ (e1 - e)) ltac:(lia)) as Hmod.
      destruct (Z.eq_dec (m mod 2 ^ (e1 - e)) 0) as [H0'|Hn0].
      - rewrite (Hex H0'). nia.
      - assert (m1 < M) by nia. lia. }
    unfold renorm. destruct (Z.ltb_spec m2 (2 ^ prec)) as [Hlt|Hge]; cbn [fst snd]; [|lia].
    unfold finish. destruct m2 as [|p|p]; [done| |lia].
    destruct (Z.leb_spec e1 (emax - prec)); [|lia].
    right. lia.
  - unfold renorm. destruct (Z.ltb_spec m2 (2 ^ prec)) as [Hlt|Hge]; cbn [fst snd].
    + unfold finish. destruct m2 as [|p|p]; [done| |lia].
      destruct (Z.leb_spec e1 (emax - prec)); [|lia].
      left. lia.
    + unfold finish. destruct (2 ^ (prec - 1)) as [|p|p] eqn:Hp; try lia.
      destruct (Z.leb_spec (e1 + 1) (emax - prec)); [|lia].
      destruct (Z.eq_dec (e1 + 1) E) as [Heq'|Hne']; [|left; lia].
      right. split; [done|]. destruct (Hd ltac:(lia)) as [_ HM']. lia.
Qed.

(** [binary_round] hands [binary_round_aux] a mantissa with enough digits. *)
Lemma binary_round_unfold (s : bool) (mx : positive) (ex : Z) :
  exists mz ez,
    binary_round prec emax s mx ex = binary_round_aux prec emax s mz ez loc_Exact /\
    0 < mz /\ ez <= fexp (Zdigits2 mz + ez) /\ ez <= ex /\ mz = Zpos mx * 2 ^ (ex - ez).
Proof.
  unfold binary_round.
  pose proof (shl_align_spec mx ex (fexp (Zpos (digits2_pos mx) + ex))) as H.
  destruct (shl_align mx ex _) as [mz ez]. destruct H as [Hez Hmz].
  exists (Zpos mz), ez. split; [done|]. split; [lia|].
  assert (Hd : Zdigits2 (Zpos mz) + ez = Zdigits2 (Zpos mx) + ex).
  { rewrite Hmz, Zdigits2_mul_pow2 by lia. lia. }
  rewrite Hd. change (Zdigits2 (Zpos mx)) with (Zpos (digits2_pos mx)).
  split; [lia|]. split; [lia|done].
Qed.

Lemma binary_round_has_sign (s : bool) (mx : positive) (ex : Z) :
  has_sign s (binary_round prec emax s mx ex).
Proof.
  destruct (binary_round_unfold s mx ex) as (mz & ez & -> & Hmz & _).
  apply bra_has_sign. lia.
Qed.

Lemma binary_round_valid (s : bool) (mx : positive) (ex : Z) :
  valid_binary prec emax (binary_round prec emax s mx ex) = true.
Proof.
  destruct (binary_round_unfold s mx ex) as (mz & ez & -> & Hmz & He & _).
  by apply bra_valid.
Qed.

Lemma binary_round_lower (s : bool) (mx : positive) (ex : Z) (M E : Z) :
  0 < M -> canon M E -> vle M E (Zpos mx) ex ->
  match binary_round prec emax s mx ex with
  | S754_finite _ m' e' => vle M E (Zpos m') e'
  | S754_infinity _ => True
  | _ => False
  end.
Proof.
  intros HM HC Hle.
  destruct (binary_round_unfold s mx ex) as (mz & ez & -> & Hmz & He & Hez & Heq).
  apply bra_lower; try done.
  rewrite Heq. replace ez with (ex - (ex - ez)) at 2 by lia.
  apply vle_shift_r; [lia|done].
Qed.

Lemma binary_round_upper (s : bool) (mx : positive) (ex : Z) (M E : Z) :
  0 < M -> canon M E -> E <= emax - prec -> vle (Zpos mx) ex M E ->
  match binary_round prec emax s mx ex with
  | S754_finite _ m' e' => lex_le (Zpos m') e' M E
  | S754_zero _ => True
  | _ => False
  end.
Proof.
  intros HM HC HE Hle.
  destruct (binary_round_unfold s mx ex) as (mz & ez & -> & Hmz & He & Hez & Heq).
  apply bra_upper_exact; try done.
  rewrite Heq. replace ez with (ex - (ex - ez)) at 2 by lia.
  apply vle_shift_l; [lia|done].
Qed.

Lemma binary_normalize_not_nan (m e : Z) (sz : bool) :
  binary_normalize prec emax m e sz <> S754_nan.
Proof.
  destruct m as [|p|p]; simpl; [done| |].
  - pose proof (binary_round_has_sign false p e). by destruct (binary_round _ _ _ _ _).
  - pose proof (binary_round_has_sign true p e). by destruct (binary_round _ _ _ _ _).
Qed.

Lemma binary_normalize_valid (m e : Z) (sz : bool) :
  valid_binary prec emax (binary_normalize prec emax m e sz) = true.
Proof. destruct m as [|p|p]; simpl; [done| |]; apply binary_round_valid. Qed.

(** *** Division *)

(** The quotient that [SFdiv] hands to the rounding, and its digits. *)
Lemma div_core_spec (m1 m2 : positive) (e1 e2 : Z) :
  let D := Zdigits2 (Zpos m1) + e1 - (Zdigits2 (Zpos m2) + e2) in
  let '(q, e', l) := SFdiv_core_binary prec emax (Zpos m1) e1 (Zpos m2) e2 in
  e' = Z.min (fexp D) (e1 - e2) /\
  q = (Zpos m1 * 2 ^ (e1 - e2 - e')) / Zpos m2 /\ 0 <= q /\
  (0 < q -> e' <= fexp (Zdigits2 q + e') /\ Zdigits2 q + e' <= D + 1).
Proof.
  intros D. unfold SFdiv_core_binary. fold D.
  set (e' := Z.min (fexp D) (e1 - e2)).
  set (s := e1 - e2 - e'). assert (Hs : 0 <= s) by (unfold s, e'; lia).
  set (m' := match s with Zpos _ => Z.shiftl (Zpos m1) s | Z0 => Zpos m1 | Zneg _ => 0 end).
  assert (Hm' : m' = Zpos m1 * 2 ^ s).
  { unfold m'. destruct s as [|p|p] eqn:Hsp; [simpl; lia| |lia].
    rewrite Z.shiftl_mul_pow2 by lia. done. }
  assert (Hq : fst (Z.div_eucl m' (Zpos m2)) = m' / Zpos m2) by done.
  destruct (Z.div_eucl m' (Zpos m2)) as [q r]. simpl in Hq. subst q.
  assert (Hps : 0 < 2 ^ s) by pow_pos.
  split; [done|]. split; [by rewrite Hm'|].
  split; [apply Z.div_pos; nia|].
  intros Hq.
  destruct (Zdigits2_bounds (Zpos m1) ltac:(lia)) as (Hd1 & Hlo1 & Hhi1).
  destruct (Zdigits2_bounds (Zpos m2) ltac:(lia)) as (Hd2 & Hlo2 & Hhi2).
  destruct (Zdigits2_bounds _ Hq) as (Hdq & Hloq & Hhiq).
  set (d1 := Zdigits2 (Zpos m1)) in *. set (d2 := Zdigits2 (Zpos m2)) in *.
  set (dq := Zdigits2 (m' / Zpos m2)) in *.
  pose proof (Z.div_mod m' (Zpos m2) ltac:(lia)) as Hdm.
  pose proof (Z.mod_pos_bound m' (Zpos m2) ltac:(lia)) as Hmod.
  set (q := m' / Zpos m2) in *.
  (* q * m2 <= m' < (q + 1) * m2 *)
  assert (Hlow : d1 + s - d2 <= dq).
  { destruct (Z_le_gt_dec (d1 + s - d2) dq) as [|Hgt]; [done|exfalso].
    assert (2 ^ dq <= 2 ^ (d1 + s - d2 - 1)) by (apply Z.pow_le_mono_r; lia).
    assert (0 < d1 + s - d2 - 1) by lia.
    assert (2 ^ (d1 - 1 + s) = 2 ^ (d1 + s - d2 - 1) * 2 ^ d2).
    { rewrite <- Z.pow_add_r by lia. f_equal. lia. }
    assert (2 ^ (d1 - 1 + s) <= m') by (rewrite Hm', Z.pow_add_r by lia; nia).
    nia. }
  assert (Hupp : dq <= d1 + s - d2 + 1).
  { destruct (Z_le_gt_dec dq (d1 + s - d2 + 1)) as [|Hgt]; [done|exfalso].
    assert (2 ^ (d1 + s - d2 + 1) <= 2 ^ (dq - 1)) by (apply Z.pow_le_mono_r; lia).
    assert (m' < 2 ^ (d1 + s)) by (rewrite Hm', Z.pow_add_r by lia; nia).
    assert (0 <= d1 + s - d2 + 1).
    { destruct (Z_le_gt_dec 0 (d1 + s - d2 + 1)) as [|Hneg]; [done|exfalso].
      assert (2 ^ (d1 + s) <= 2 ^ (d2 - 1)) by (apply Z.pow_le_mono_r; lia). nia. }
    assert (2 ^ (d1 + s) = 2 ^ (d1 + s - d2 + 1) * 2 ^ (d2 - 1)).
    { rewrite <- Z.pow_add_r by lia. f_equal. lia. }
    assert (0 < 2 ^ (d2 - 1)) by pow_pos.
    nia. }
  split.
  - assert (fexp D <= fexp (dq + e')) by (apply fexp_mono; unfold D, s in *; lia).
    unfold e' at 1. lia.
  - unfold D, s in *. lia.
Qed.

Lemma SFdiv_has_sign (sx sy : bool) (mx my : positive) (ex ey : Z) :
  has_sign (xorb sx sy)
    (SFdiv prec emax (S754_finite sx mx ex) (S754_finite sy my ey)).
Proof.
  cbn [SFdiv]. pose proof (div_core_spec mx my ex ey) as H.
  destruct (SFdiv_core_binary _ _ _ _ _ _) as [[q e'] l].
  destruct H as (_ & _ & Hq & _). by apply bra_has_sign.
Qed.

(** *** Signs and NaNs through the operations *)

Lemma has_sign_not_nan (s : bool) (x : spec_float) : has_sign s x -> not_nan x.
Proof. by destruct x. Qed.

Lemma SFsub_not_nan (x y : spec_float) :
  not_nan x -> finite_or_zero y -> not_nan (SFsub prec emax x y).
Proof.
  unfold not_nan. destruct x as [sx|sx| |sx mx ex], y as [sy|sy| |sy my ey]; try done.
  - destruct sx, sy; done.
  - intros _ _. cbn [SFsub]. apply binary_normalize_not_nan.
Qed.

Lemma SFsub_valid (x y : spec_float) :
  valid_binary prec emax x = true -> valid_binary prec emax y = true ->
  valid_binary prec emax (SFsub prec emax x y) = true.
Proof.
  destruct x as [sx|sx| |sx mx ex], y as [sy|sy| |sy my ey]; try done.
  - destruct sx, sy; done.
  - destruct sx, sy; done.
  - intros _ _. cbn [SFsub]. apply binary_normalize_valid.
Qed.

Lemma SFmul_self_sign (x : spec_float) :
  not_nan x -> has_sign false (SFmul prec emax x x).
Proof.
  unfold not_nan. destruct x as [sx|sx| |sx mx ex]; try done; intros _; cbn [SFmul].
  - apply xorb_nilpotent.
  - apply xorb_nilpotent.
  - rewrite xorb_nilpotent. apply bra_has_sign. lia.
Qed.

Lemma SFadd_sign (x y : spec_float) :
  has_sign false x -> has_sign false y -> has_sign false (SFadd prec emax x y).
Proof.
  destruct x as [sx|sx| |sx mx ex], y as [sy|sy| |sy my ey]; try done;
    simpl; intros -> ->; try done.
  cbn [SFadd cond_Zopp].
  destruct (shl_align mx ex (Z.min ex ey)) as [mx' ex'].
  destruct (shl_align my ey (Z.min ex ey)) as [my' ey']. cbn [fst].
  change (Zpos mx' + Zpos my') with (Zpos (mx' + my')).
  apply binary_round_has_sign.
Qed.

Lemma SFdiv_sign (x : spec_float) (my : positive) (ey : Z) :
  has_sign false x -> has_sign false (SFdiv prec emax x (S754_finite false my ey)).
Proof.
  destruct x as [sx|sx| |sx mx ex]; try done; simpl; intros ->; try done.
  apply (SFdiv_has_sign false false).
Qed.

Lemma SFsqrt_sign (x : spec_float) :
  has_sign false x -> has_sign false (SFsqrt prec emax x).
Proof.
  destruct x as [sx|sx| |sx mx ex]; try done; simpl; intros ->; try done.
  unfold SFsqrt_core_binary.
  set (e' := Z.min _ _). set (m' := match _ with Zpos _ => _ | Z0 => _ | Zneg _ => _ end).
  assert (Hm' : 0 <= m').
  { unfold m'. destruct (ex - 2 * e') as [|p|p]; [lia| |lia].
    rewrite Z.shiftl_mul_pow2 by lia.
    assert (0 < 2 ^ Zpos p) by pow_pos. nia. }
  pose proof (Z.sqrtrem_spec m' Hm') as Hs.
  destruct (Z.sqrtrem m') as [q r]. destruct Hs as [_ Hr].
  apply bra_has_sign. lia.
Qed.

Lemma binary_round_conv_sign (s : bool) (x : spec_float) :
  has_sign s x ->
  has_sign s match x with
             | S754_finite s' m e => binary_round prec emax s' m e
             | _ => x
             end.
Proof.
  destruct x as [sx|sx| |sx mx ex]; try done. simpl. intros ->.
  apply binary_round_has_sign.
Qed.

Lemma SFleb_zero_sign (x : spec_float) :
  has_sign false x -> SFleb (S754_zero false) x = true.
Proof. destruct x as [sx|sx| |sx mx ex]; try done; simpl; by intros ->. Qed.

Hypothesis Hemax : 2 <= emax.

Lemma canon_one : canon (2 ^ (prec - 1)) (1 - prec).
Proof.
  unfold canonical.
  assert (0 < 2 ^ (prec - 1)) by pow_pos.
  rewrite (Zdigits2_unique (2 ^ (prec - 1)) prec); [| |lia].
  - unfold SpecFloat.fexp, SpecFloat.emin. lia.
  - split; [lia|]. apply Z.pow_lt_mono_r; lia.
Qed.

Lemma canon_tiny : canon 1 emin.
Proof. unfold canonical. simpl. unfold SpecFloat.fexp. lia. Qed.

(** Away from underflow the quotient mantissa has [prec] digits or more. *)
Lemma div_core_big (m1 m2 : positive) (e1 e2 : Z) :
  let D := Zdigits2 (Zpos m1) + e1 - (Zdigits2 (Zpos m2) + e2) in
  let q := fst (fst (SFdiv_core_binary prec emax (Zpos m1) e1 (Zpos m2) e2)) in
  let e' := snd (fst (SFdiv_core_binary prec emax (Zpos m1) e1 (Zpos m2) e2)) in
  e' <= D - prec -> 2 ^ (prec - 1) <= q.
Proof.
  intros D q e' He'. subst q e'.
  pose proof (div_core_spec m1 m2 e1 e2) as H. fold D in H.
  destruct (SFdiv_core_binary _ _ _ _ _ _) as [[q e'] l]. cbn [fst snd] in *.
  destruct H as (He & Hq & Hq0 & _).
  destruct (Zdigits2_bounds (Zpos m1) ltac:(lia)) as (Hd1 & Hlo1 & Hhi1).
  destruct (Zdigits2_bounds (Zpos m2) ltac:(lia)) as (Hd2 & Hlo2 & Hhi2).
  set (d1 := Zdigits2 (Zpos m1)) in *. set (d2 := Zdigits2 (Zpos m2)) in *.
  set (s := e1 - e2 - e') in *.
  assert (Hs : prec - d1 + d2 <= s) by (unfold s, D in *; lia).
  rewrite Hq. apply Z.div_le_lower_bound; [lia|].
  assert (Hpp : 0 < 2 ^ (prec - 1)) by pow_pos.
  assert (2 ^ (d1 - 1 + (prec - d1 + d2)) <= 2 ^ (d1 - 1 + s)) by (apply Z.pow_le_mono_r; lia).
  replace (d1 - 1 + (prec - d1 + d2)) with (prec - 1 + d2) in * by lia.
  rewrite !Z.pow_add_r in * by lia.
  assert (0 < 2 ^ s) by pow_pos.
  nia.
Qed.

(** [y <= x] gives [1 <= x / y] before rounding. *)
Lemma div_core_ge_one (m1 m2 : positive) (e1 e2 : Z) :
  vle (Zpos m2) e2 (Zpos m1) e1 ->
  let q := fst (fst (SFdiv_core_binary prec emax (Zpos m1) e1 (Zpos m2) e2)) in
  let e' := snd (fst (SFdiv_core_binary prec emax (Zpos m1) e1 (Zpos m2) e2)) in
  0 < q /\ vle (2 ^ (prec - 1)) (1 - prec) q e'.
Proof.
  intros Hle q e'.
  pose proof (div_core_big m1 m2 e1 e2) as Hbig. fold q in Hbig. fold e' in Hbig.
  pose proof (div_core_spec m1 m2 e1 e2) as H. subst q e'.
  destruct (SFdiv_core_binary _ _ _ _ _ _) as [[q e'] l]. cbn [fst snd] in *.
  destruct H as (He & Hq & Hq0 & _).
  set (D := Zdigits2 (Zpos m1) + e1 - (Zdigits2 (Zpos m2) + e2)) in *.
  assert (Hpp : 0 < 2 ^ (prec - 1)) by pow_pos.
  destruct (Z_le_gt_dec e' (1 - prec)) as [Hlow|Hhigh].
  - (* the quotient is scaled by 2^(-e') *)
    assert (Hs : 0 <= e1 - e2 - e') by lia.
    assert (Hge : 2 ^ (- e') <= q).
    { rewrite Hq. apply Z.div_le_lower_bound; [lia|].
      destruct (Z_le_gt_dec e2 e1).
      - apply (vle_base e2) in Hle; [|lia..]. rewrite Z.sub_diag, Z.mul_1_r in Hle.
        replace (e1 - e2 - e') with ((e1 - e2) + (- e')) by lia.
        rewrite Z.pow_add_r by lia.
        assert (0 < 2 ^ (- e')) by pow_pos. nia.
      - apply (vle_base e1) in Hle; [|lia..]. rewrite Z.sub_diag, Z.mul_1_r in Hle.
        replace (- e') with ((e2 - e1) + (e1 - e2 - e')) by lia.
        rewrite Z.pow_add_r by lia.
        assert (0 < 2 ^ (e1 - e2 - e')) by pow_pos. nia. }
    assert (0 < 2 ^ (- e')) by pow_pos.
    split; [lia|].
    apply (vle_base e'); [lia..|]. rewrite Z.sub_diag, Z.mul_1_r.
    rewrite <- Z.pow_add_r by lia. replace (prec - 1 + (1 - prec - e')) with (- e') by lia.
    done.
  - assert (2 ^ (prec - 1) <= q).
    { apply Hbig. unfold SpecFloat.fexp, SpecFloat.emin in He. lia. }
    split; [lia|].
    apply (vle_base (1 - prec)); [lia..|]. rewrite Z.sub_diag, Z.mul_1_r.
    assert (0 < 2 ^ (e' - (1 - prec))) by pow_pos. nia.
Qed.

Lemma SFdiv_ge_one (mx my : positive) (ex ey : Z) :
  vle (Zpos my) ey (Zpos mx) ex ->
  match SFdiv prec emax (S754_finite false mx ex) (S754_finite false my ey) with
  | S754_finite s m' e' => s = false /\ vle (2 ^ (prec - 1)) (1 - prec) (Zpos m') e'
  | S754_infinity s => s = false
  | _ => False
  end.
Proof.
  intros Hle.
  pose proof (SFdiv_has_sign false false mx my ex ey) as Hsign.
  pose proof (div_core_ge_one mx my ex ey Hle) as H1.
  pose proof (div_core_spec mx my ex ey) as H2.
  cbn [SFdiv] in *. change (xorb false false) with false in *.
  destruct (SFdiv_core_binary _ _ _ _ _ _) as [[q e'] l]. cbn [fst snd] in *.
  destruct H1 as [Hq Hone]. destruct H2 as (_ & _ & _ & H2). destruct (H2 Hq) as [He _].
  assert (Hpp : 0 < 2 ^ (prec - 1)) by pow_pos.
  pose proof (bra_lower false q e' l _ _ Hq He Hpp canon_one Hone) as Hl.
  destruct (binary_round_aux _ _ _ _ _ _); try done.
Qed.

(** No overflow when the exponent stays below the largest one. *)
Lemma bra_not_inf (s : bool) (m e : Z) (l : location) :
  0 < m -> e <= fexp (Zdigits2 m + e) -> fexp (Zdigits2 m + e) + 1 <= emax - prec ->
  forall s', binary_round_aux prec emax s m e l <> S754_infinity s'.
Proof.
  intros Hm He Hb s'.
  destruct (bra_spec s m e l Hm He) as (m2 & _ & _ & _ & _ & ->).
  unfold renorm, finish.
  destruct (_ <? _); cbn [fst snd].
  - destruct m2; try done. destruct (Z.leb_spec (fexp (Zdigits2 m + e)) (emax - prec)); [done|lia].
  - destruct (2 ^ (prec - 1)); try done.
    destruct (Z.leb_spec (fexp (Zdigits2 m + e) + 1) (emax - prec)); [done|lia].
Qed.

(** A quotient of two floats is finite and valid when the exponents leave room. *)
Lemma SFdiv_finite (mx my : positive) (ex ey : Z) :
  let D := Zdigits2 (Zpos mx) + ex - (Zdigits2 (Zpos my) + ey) in
  emin + prec <= D -> emin <= ex - ey -> D + 2 <= emax ->
  exists m' e', SFdiv prec emax (S754_finite false mx ex) (S754_finite false my ey)
                = S754_finite false m' e' /\
    valid_binary prec emax (S754_finite false m' e') = true.
Proof.
  intros D HD1 HD3 HD2.
  pose proof (SFdiv_has_sign false false mx my ex ey) as Hsign.
  pose proof (div_core_big mx my ex ey) as H1.
  pose proof (div_core_spec mx my ex ey) as H2.
  fold D in H1, H2. cbn [SFdiv] in *. change (xorb false false) with false in *.
  destruct (SFdiv_core_binary _ _ _ _ _ _) as [[q e'] l]. cbn [fst snd] in *.
  destruct H2 as (He' & _ & _ & H2).
  assert (Hfe : fexp D = D - prec) by (unfold SpecFloat.fexp; lia).
  assert (Hpp : 0 < 2 ^ (prec - 1)) by pow_pos.
  specialize (H1 ltac:(lia)). assert (Hq : 0 < q) by lia.
  destruct (H2 Hq) as [He Hdq].
  pose proof (bra_valid false q e' l Hq He) as Hv.
  assert (Htiny : vle 1 emin q e').
  { apply (vle_base emin); [lia | unfold SpecFloat.fexp in *; lia |].
    rewrite Z.sub_diag.
    assert (0 < 2 ^ (e' - emin)) by (apply Z.pow_pos_nonneg; unfold SpecFloat.fexp in *; lia).
    nia. }
  pose proof (bra_lower false q e' l 1 emin Hq He ltac:(lia) canon_tiny Htiny) as Hl.
  assert (Hni : forall s', binary_round_aux prec emax false q e' l <> S754_infinity s').
  { apply bra_not_inf; try done.
    assert (fexp (Zdigits2 q + e') <= fexp (D + 1)) by (apply fexp_mono; lia).
    unfold SpecFloat.fexp, SpecFloat.emin in *. lia. }
  destruct (binary_round_aux prec emax false q e' l) as [| s' | |s' m' e''] eqn:Hr; try done.
  - by specialize (Hni s').
  - simpl in Hsign. subst s'. by exists m', e''.
Qed.

(** A number between the smallest and a representable bound rounds to a finite float. *)
Lemma binary_round_finite (s : bool) (mx : positive) (ex : Z) (M E : Z) :
  emin <= ex -> 0 < M -> canon M E -> E <= emax - prec ->
  vle (Zpos mx) ex M E ->
  exists m' e', binary_round prec emax s mx ex = S754_finite s m' e' /\
    valid_binary prec emax (S754_finite s m' e') = true /\
    lex_le (Zpos m') e' M E.
Proof.
  intros Hex HM HC HE Hle.
  pose proof (binary_round_has_sign s mx ex) as Hs.
  pose proof (binary_round_valid s mx ex) as Hv.
  pose proof (binary_round_upper s mx ex M E HM HC HE Hle) as Hu.
  assert (Htiny : vle 1 emin (Zpos mx) ex).
  { apply (vle_base emin); [lia..|]. rewrite Z.sub_diag.
    assert (0 < 2 ^ (ex - emin)) by pow_pos. nia. }
  pose proof (binary_round_lower s mx ex 1 emin ltac:(lia) canon_tiny Htiny) as Hl.
  destruct (binary_round prec emax s mx ex) as [| | |s' m' e']; try done.
  simpl in Hs. subst s'. by exists m', e'.
Qed.

Lemma SFdiv_ge_one_valid (mx my : positive) (ex ey : Z) :
  vle (Zpos my) ey (Zpos mx) ex ->
  valid_binary prec emax
    (SFdiv prec emax (S754_finite false mx ex) (S754_finite false my ey)) = true.
Proof.
  intros Hle.
  pose proof (div_core_ge_one mx my ex ey Hle) as H1.
  pose proof (div_core_spec mx my ex ey) as H2.
  cbn [SFdiv] in *. change (xorb false false) with false in *.
  destruct (SFdiv_core_binary _ _ _ _ _ _) as [[q e'] l]. cbn [fst snd] in *.
  destruct H1 as [Hq _]. destruct H2 as (_ & _ & _ & H2). destruct (H2 Hq) as [He _].
  by apply bra_valid.
Qed.

End Round.

Lemma SFleb_lex (m1 m2 : positive) (e1 e2 : Z) :
  SFleb (S754_finite false m1 e1) (S754_finite false m2 e2) = true <->
  lex_le (Zpos m1) e1 (Zpos m2) e2.
Proof.
  unfold SFleb, SFcompare, lex_le.
  destruct (Z.compare_spec e1 e2) as [->|Hlt|Hgt].
  - change (Pos.compare_cont Eq m1 m2) with (Pos.compare m1 m2).
    destruct (Pos.compare_spec m1 m2); split; try done; try lia.
  - split; [lia|done].
  - split; [done|lia].
Qed.

Lemma SFltb_lex (m1 m2 : positive) (e1 e2 : Z) :
  SFltb (S754_finite false m1 e1) (S754_finite false m2 e2) = false <->
  lex_le (Zpos m2) e2 (Zpos m1) e1.
Proof.
  unfold SFltb, SFcompare, lex_le.
  destruct (Z.compare_spec e1 e2) as [->|Hlt|Hgt].
  - change (Pos.compare_cont Eq m1 m2) with (Pos.compare m1 m2).
    destruct (Pos.compare_spec m1 m2); split; try done; try lia.
  - split; [done|lia].
  - split; [lia|done].
Qed.

Lemma valid_canon (prec emax : Z) (s : bool) (m : positive) (e : Z) :
  valid_binary prec emax (S754_finite s m e) = true ->
  canonical prec emax (Zpos m) e /\ e <= emax - prec.
Proof.
  simpl. unfold bounded, canonical_mantissa, canonical. simpl.
  intros [H1 H2]%andb_prop. split; [by apply Z.eqb_eq|by apply Z.leb_le].
Qed.

(** ** Statistics *)
(** The literals are the doubles of 1 and 100. *)
Lemma one_is_1 : one = d_of_Z 1.
Proof. by vm_compute. Qed.

Lemma hundred_is_100 : hundred = d_of_Z 100.
Proof. by vm_compute. Qed.

Lemma dprec_pos : 0 < dprec.
Proof. done. Qed.

Lemma demax_ge : 2 <= demax.
Proof. done. Qed.

Lemma lprec_pos : 0 < lprec.
Proof. done. Qed.

Lemma lemax_ge : 2 <= lemax.
Proof. done. Qed.

Lemma d_of_Z_pos (n : Z) :
  1 <= n < 2 ^ 64 ->
  exists m e, d_of_Z n = S754_finite false m e /\ dvalid (d_of_Z n) /\
    1 <= Zdigits2 (Zpos m) + e <= 65 /\ -52 <= e <= 12.
Proof.
  intros Hn. destruct n as [|p|p]; try lia.
  unfold d_of_Z, dvalid. cbn [binary_normalize].
  assert (Hc : canonical dprec demax (2 ^ 52) 12) by done.
  assert (Hone : canonical dprec demax (2 ^ 52) (-52)) by done.
  destruct (binary_round_finite dprec demax dprec_pos demax_ge false p 0 (2 ^ 52) 12)
    as (m & e & Heq & Hv & Hlex); try done; try reflexivity; try lia.
  { unfold vle. rewrite Z.min_l by lia. simpl Z.sub.
    change (2 ^ 0) with 1. change (2 ^ 12) with 4096. lia. }
  pose proof (binary_round_lower dprec demax dprec_pos false p 0 (2 ^ 52) (-52)
                ltac:(reflexivity) Hone) as Hl.
  rewrite Heq in Hl.
  assert (Hle1 : vle (2 ^ 52) (-52) (Zpos p) 0).
  { unfold vle. rewrite Z.min_l by lia. simpl Z.sub.
    change (2 ^ 0) with 1. change (2 ^ 52) with 4503599627370496. lia. }
  specialize (Hl Hle1).
  pose proof (vle_digits (2 ^ 52) (-52) (Zpos m) e ltac:(reflexivity) ltac:(lia) Hl) as Hdig.
  change (Zdigits2 (2 ^ 52)) with 53 in Hdig.
  destruct (valid_canon _ _ _ _ _ Hv) as [Hcan _].
  destruct (canon_facts dprec demax dprec_pos _ _ (Pos2Z.is_pos _) Hcan) as (_ & Hd & _ & _).
  exists m, e. rewrite Heq. split; [done|]. split; [done|].
  unfold canonical, SpecFloat.fexp, SpecFloat.emin, dprec, demax in *.
  destruct Hlex as [Hlt|[-> _]]; lia.
Qed.

Lemma mean_dpos (n m : Z) :
  1 <= n < 2 ^ 64 -> 1 <= m < 2 ^ 64 -> dpos (ddiv (d_of_Z n) (d_of_Z m)).
Proof.
  intros Hn Hm.
  destruct (d_of_Z_pos n Hn) as (mn & en & -> & _ & Hdn & Hen).
  destruct (d_of_Z_pos m Hm) as (mm & em & -> & _ & Hdm & Hem).
  destruct (SFdiv_finite dprec demax dprec_pos demax_ge mn mm en em) as (mq & eq & Heq & Hv).
  - unfold SpecFloat.emin, dprec, demax. lia.
  - unfold SpecFloat.emin, dprec, demax. lia.
  - unfold demax. lia.
  - exists mq, eq. unfold ddiv, dvalid. rewrite Heq. done.
Qed.

Lemma dpos_lt_zero (x : spec_float) : dpos x -> dlt zero x = true.
Proof. by intros (m & e & -> & _). Qed.

(** A valid positive [double] converts to a finite positive [long double]. *)
Lemma ld_of_d_pos (x : spec_float) :
  dpos x -> exists m e, ld_of_d x = S754_finite false m e.
Proof.
  intros (m & e & -> & Hv). unfold ld_of_d.
  destruct (valid_canon _ _ _ _ _ Hv) as [Hcan Hemax].
  destruct (canon_facts dprec demax dprec_pos _ _ (Pos2Z.is_pos _) Hcan) as (Hemin & _ & Hm & _).
  unfold SpecFloat.emin, dprec, demax in *.
  destruct (binary_round_finite lprec lemax lprec_pos lemax_ge false m e (2 ^ 63) 1000)
    as (m' & e' & Heq & _); try done; try reflexivity; try lia.
  - unfold SpecFloat.emin, lprec, lemax. lia.
  - apply (vle_base e); [lia..|]. rewrite Z.sub_diag, Z.mul_1_r.
    assert (0 < 2 ^ (1000 - e)) by pow_pos.
    change (2 ^ 53) with 9007199254740992 in Hm.
    change (2 ^ 63) with 9223372036854775808. nia.
  - by exists m', e'.
Qed.

Lemma ld_of_Z_pos (n : Z) :
  1 <= n < 2 ^ 64 -> exists m e, ld_of_Z n = S754_finite false m e.
Proof.
  intros Hn. destruct n as [|p|p]; try lia.
  unfold ld_of_Z. cbn [binary_normalize].
  destruct (binary_round_finite lprec lemax lprec_pos lemax_ge false p 0 (2 ^ 63) 1)
    as (m & e & Heq & _); try done; try reflexivity; try lia.
  - unfold vle. rewrite Z.min_l by lia. simpl Z.sub.
    change (2 ^ 0) with 1. change (2 ^ 1) with 2.
    change (2 ^ 63) with 9223372036854775808. lia.
  - by exists m, e.
Qed.

Lemma ld_of_Z_not_nan (c : Z) : not_nan (ld_of_Z c).
Proof. apply binary_normalize_not_nan. Qed.

Lemma d_of_Z_not_nan (c : Z) : not_nan (d_of_Z c).
Proof. apply binary_normalize_not_nan. Qed.

Lemma d_of_Z_valid (c : Z) : dvalid (d_of_Z c).
Proof. apply binary_normalize_valid. done. Qed.

Lemma SFabs_sign (x : spec_float) : not_nan x -> has_sign false (SFabs x).
Proof. by destruct x. Qed.

Lemma SFabs_valid (prec emax : Z) (x : spec_float) :
  valid_binary prec emax x = true -> valid_binary prec emax (SFabs x) = true.
Proof. by destruct x. Qed.

Lemma SFsub_finite_l_valid (s : bool) (m : positive) (e : Z) (y : spec_float) :
  dvalid (S754_finite s m e) -> dvalid (dsub (S754_finite s m e) y).
Proof.
  intros Hv. destruct y as [sy|sy| |sy my ey]; try done.
  unfold dvalid, dsub. cbn [SFsub]. apply binary_normalize_valid. done.
Qed.

Lemma SFsub_finite_l_not_nan (s : bool) (m : positive) (e : Z) (y : spec_float) :
  not_nan y -> not_nan (dsub (S754_finite s m e) y).
Proof.
  intros Hy. destruct y as [sy|sy| |sy my ey]; try done.
  unfold dsub. cbn [SFsub]. apply binary_normalize_not_nan.
Qed.

(** The deviation [|c - mean|] of a count from a positive mean. *)
Lemma deviation_ok (c : Z) (mean : spec_float) :
  dpos mean ->
  has_sign false (dabs (dsub (d_of_Z c) mean)) /\ dvalid (dabs (dsub (d_of_Z c) mean)).
Proof.
  intros (m & e & -> & Hv). split.
  - apply SFabs_sign, SFsub_not_nan; [apply d_of_Z_not_nan|done].
  - apply SFabs_valid, SFsub_valid; [done|apply d_of_Z_valid|done].
Qed.

Lemma dmax_cases (x y : spec_float) : dmax x y = x \/ dmax x y = y.
Proof. unfold dmax. destruct (dlt x y); auto. Qed.

Lemma clamp_cases (u : spec_float) :
  not_nan u -> dvalid u ->
  (exists s, clamp u = S754_zero s) \/
  (exists m e, clamp u = S754_finite false m e /\ dvalid (clamp u) /\
     lex_le (Zpos m) e (2 ^ 52) (-52)).
Proof.
  intros Hn Hv. unfold clamp.
  destruct u as [s|s| |s m e]; try done.
  - left. by exists s.
  - destruct s; simpl.
    + left. by exists false.
    + right. exists 4503599627370496%positive, (-52). split; [done|]. split; [done|]. right. done.
  - destruct s.
    + left. by exists false.
    + change (dlt (S754_finite false m e) zero) with false. cbv iota.
      destruct (dlt one (S754_finite false m e)) eqn:Hlt.
      * right. exists 4503599627370496%positive, (-52). split; [done|]. split; [done|]. right. done.
      * right. exists m, e. split; [done|]. split; [done|].
        by apply SFltb_lex in Hlt.
Qed.

Lemma dmul_hundred_bounds (m : positive) (e : Z) :
  dvalid (S754_finite false m e) -> lex_le (Zpos m) e (2 ^ 52) (-52) ->
  dle zero (dmul (S754_finite false m e) hundred) = true /\
  dle (dmul (S754_finite false m e) hundred) hundred = true.
Proof.
  intros Hv Hlex.
  destruct (valid_canon _ _ _ _ _ Hv) as [Hcan _].
  destruct (canon_facts dprec demax dprec_pos _ _ (Pos2Z.is_pos _) Hcan) as (Hemin & _ & Hm & _).
  unfold dmul, hundred. cbn [SFmul xorb].
  set (M := 7036874417766400%positive).
  assert (Hsign : has_sign false
            (binary_round_aux dprec demax false (Zpos (m * M)) (e + -46) loc_Exact)).
  { apply bra_has_sign. lia. }
  assert (HM : 2 ^ 52 <= Zpos M) by (by vm_compute).
  assert (He : e <= -52) by (destruct Hlex as [|[-> _]]; lia).
  assert (Hm' : Zpos m <= 2 ^ (- e)).
  { destruct Hlex as [Hlt|[-> Hle]]; [|done].
    assert (2 ^ dprec <= 2 ^ (- e)) by (apply Z.pow_le_mono_r; unfold dprec; lia). lia. }
  split; [by apply SFleb_zero_sign|].
  assert (Hres : match binary_round_aux dprec demax false (Zpos (m * M)) (e + -46) loc_Exact with
                 | S754_finite _ m' e' => lex_le (Zpos m') e' (Zpos M) (-46)
                 | S754_zero _ => True
                 | _ => False
                 end).
  { apply (bra_upper_exact dprec demax dprec_pos); [lia | | lia | done | done |].
    - rewrite Pos2Z.inj_mul.
      assert (dprec <= Zdigits2 (Zpos m * Zpos M)).
      { apply Zdigits2_ge; [lia|]. unfold dprec. change (2 ^ (53 - 1)) with (2 ^ 52). nia. }
      unfold SpecFloat.fexp. lia.
    - apply (vle_base (e + -46)); [lia..|]. rewrite Z.sub_diag, Z.mul_1_r.
      replace (-46 - (e + -46)) with (- e) by lia.
      rewrite Pos2Z.inj_mul. nia. }
  destruct (binary_round_aux dprec demax false (Zpos (m * M)) (e + -46) loc_Exact)
    as [s| | |s m' e'] eqn:Hr; [by destruct s | done | done |].
  simpl in Hsign. subst s. unfold dle. by apply SFleb_lex.
Qed.

Lemma fold_accumulate (h : list Z) (a : Z) :
  fold_left (fun acc c => to_size (acc + c)) h (to_size a) = to_size (a + sum_counts h).
Proof.
  revert a. induction h as [|c h IH]; intros a; simpl.
  - by rewrite Z.add_0_r.
  - rewrite IH. unfold to_size.
    rewrite <- Z.add_assoc, Z.add_mod_idemp_l by lia. done.
Qed.

Lemma accumulate_spec (h : list Z) : Stats.accumulate h = sum_counts h mod 2 ^ 64.
Proof. apply (fold_accumulate h 0). Qed.

Lemma sum_counts_nonneg (h : list Z) : Forall is_size h -> 0 <= sum_counts h.
Proof. induction 1 as [|c h [Hc _] _ IH]; simpl; lia. Qed.

Lemma acc_fold_sign (mean : spec_float) (h : list Z) (acc : spec_float) :
  dpos mean -> has_sign false acc ->
  has_sign false (fold_left (Stats.acc_step mean) h acc).
Proof.
  intros Hmean. destruct (ld_of_d_pos mean Hmean) as (m & e & Hld).
  revert acc. induction h as [|c h IH]; intros acc Hacc; simpl; [done|].
  apply IH. unfold Stats.acc_step.
  apply SFadd_sign; [done|]. apply SFmul_self_sign.
  apply SFsub_not_nan; [apply ld_of_Z_not_nan|]. by rewrite Hld.
Qed.

Lemma chi_fold_sign (mean : spec_float) (h : list Z) (chi : spec_float) :
  dpos mean -> has_sign false chi ->
  has_sign false (fold_left (Stats.chi_step mean) h chi).
Proof.
  intros Hmean. destruct (ld_of_d_pos mean Hmean) as (m & e & Hld).
  revert chi. induction h as [|c h IH]; intros chi Hchi; simpl; [done|].
  apply IH. unfold Stats.chi_step.
  apply SFadd_sign; [done|]. rewrite !Hld. apply SFdiv_sign.
  apply SFmul_self_sign.
  by apply SFsub_not_nan; [apply ld_of_Z_not_nan|].
Qed.

Lemma max_dev_ok (mean : spec_float) (lo hi : Z) :
  dpos mean ->
  let max_dev := dmax (dabs (dsub (d_of_Z hi) mean)) (dabs (dsub (d_of_Z lo) mean)) in
  has_sign false max_dev /\ dvalid max_dev.
Proof.
  intros Hmean max_dev.
  destruct (dmax_cases (dabs (dsub (d_of_Z hi) mean)) (dabs (dsub (d_of_Z lo) mean))) as [H|H];
    unfold max_dev; rewrite H; by apply deviation_ok.
Qed.

Lemma uniformity_of_clamp (mean : spec_float) (h : list Z) :
  dpos mean ->
  Stats.uniformity_of mean h =
    dmul (clamp (dsub one (ddiv
      (dmax (dabs (dsub (d_of_Z (snd (Stats.minmax_element h))) mean))
            (dabs (dsub (d_of_Z (fst (Stats.minmax_element h))) mean))) mean))) hundred.
Proof.
  intros Hmean. unfold Stats.uniformity_of, clamp.
  destruct (Stats.minmax_element h) as [lo hi]. cbn [fst snd].
  by rewrite (dpos_lt_zero mean Hmean).
Qed.

Lemma uniformity_of_bounds (mean : spec_float) (h : list Z) :
  dpos mean ->
  dle zero (Stats.uniformity_of mean h) = true /\
  dle (Stats.uniformity_of mean h) hundred = true.
Proof.
  intros Hmean. rewrite uniformity_of_clamp by done.
  set (lo := fst (Stats.minmax_element h)). set (hi := snd (Stats.minmax_element h)).
  destruct (max_dev_ok mean lo hi Hmean) as [Hs Hv].
  set (max_dev := dmax _ _) in *.
  destruct Hmean as (m & e & -> & Hvm).
  assert (Hq : has_sign false (ddiv max_dev (S754_finite false m e))) by (by apply SFdiv_sign).
  destruct (clamp_cases (dsub one (ddiv max_dev (S754_finite false m e)))) as [[s Hc]|(m' & e' & Hc & Hv' & Hlex)].
  - apply SFsub_finite_l_not_nan. by eapply has_sign_not_nan.
  - by apply SFsub_finite_l_valid.
  - rewrite Hc. by destruct s.
  - rewrite Hc in *. by apply dmul_hundred_bounds.
Qed.

Lemma stats_float_bounds (h : list Z) :
  let r := Stats.compute_stats h in
  dle zero (Stats.uniformity r) = true /\ dle (Stats.uniformity r) hundred = true /\
  dle zero (Stats.stddev r) = true /\ dle zero (Stats.chi2 r) = true.
Proof.
  unfold Stats.compute_stats.
  set (m := to_size (Z.of_nat (length h))). set (n := Stats.accumulate h).
  destruct ((m =? 0) || (n =? 0)) eqn:Hdeg; [done|].
  apply orb_false_elim in Hdeg as [Hm Hn]. apply Z.eqb_neq in Hm, Hn.
  assert (Hm' : 1 <= m < 2 ^ 64).
  { pose proof (Z.mod_pos_bound (Z.of_nat (length h)) (2 ^ 64) ltac:(lia)). unfold m, to_size in *. lia. }
  assert (Hn' : 1 <= n < 2 ^ 64).
  { unfold n in *. rewrite accumulate_spec in *.
    pose proof (Z.mod_pos_bound (sum_counts h) (2 ^ 64) ltac:(lia)). lia. }
  pose proof (mean_dpos n m Hn' Hm') as Hmean.
  set (mean := ddiv (d_of_Z n) (d_of_Z m)) in *.
  cbn [Stats.uniformity Stats.stddev Stats.chi2].
  destruct (uniformity_of_bounds mean h Hmean) as [Hu1 Hu2].
  split; [done|]. split; [done|]. split.
  - apply SFleb_zero_sign, SFsqrt_sign, (binary_round_conv_sign dprec demax).
    destruct (ld_of_Z_pos m Hm') as (mm & em & ->).
    apply SFdiv_sign. by apply acc_fold_sign.
  - apply SFleb_zero_sign, (binary_round_conv_sign dprec demax).
    by apply chi_fold_sign.
Qed.

Lemma minmax_from_spec (l : list Z) (lo hi : Z) :
  let lo' := fst (Stats.minmax_from lo hi l) in
  let hi' := snd (Stats.minmax_from lo hi l) in
  (lo' = lo \/ In lo' l) /\ lo' <= lo /\ Forall (fun c => lo' <= c) l /\
  (hi' = hi \/ In hi' l) /\ hi <= hi' /\ Forall (fun c => c <= hi') l.
Proof.
  revert lo hi. induction l as [|c l IH]; intros lo hi; cbn [Stats.minmax_from].
  - simpl. repeat split; auto; lia.
  - specialize (IH (if c <? lo then c else lo) (if c <? hi then hi else c)).
    cbv zeta in IH. destruct IH as (H1 & H2 & H3 & H4 & H5 & H6).
    set (lo' := fst _) in *. set (hi' := snd _) in *.
    assert (Hlo : lo' <= lo /\ lo' <= c) by (destruct (Z.ltb_spec c lo); lia).
    assert (Hhi : hi <= hi' /\ c <= hi') by (destruct (Z.ltb_spec c hi); lia).
    split; [|split; [lia|split; [constructor; [lia|done]|]]].
    { destruct H1 as [H1|H1]; [|right; by right].
      destruct (Z.ltb_spec c lo); [right; left; lia|by left]. }
    split; [|split; [lia|constructor; [lia|done]]].
    destruct H4 as [H4|H4]; [|right; by right].
    destruct (Z.ltb_spec c hi); [by left|right; left; lia].
Qed.

Lemma minmax_element_spec (h : list Z) :
  h <> [] ->
  is_min (fst (Stats.minmax_element h)) h /\ is_max (snd (Stats.minmax_element h)) h.
Proof.
  destruct h as [|c t]; [done|intros _]. unfold Stats.minmax_element.
  destruct (minmax_from_spec t c c) as (H1 & H2 & H3 & H4 & H5 & H6).
  cbv zeta in *. set (lo' := fst _) in *. set (hi' := snd _) in *.
  split; split.
  - destruct H1 as [->|]; [by left|by right].
  - by constructor.
  - destruct H4 as [->|]; [by left|by right].
  - by constructor.
Qed.

Lemma is_min_zero (lo : Z) (h : list Z) :
  is_min lo h -> Forall is_size h -> In 0 h -> lo = 0.
Proof.
  intros [Hin Hle] Hwf H0.
  rewrite Forall_forall in Hle, Hwf.
  apply list_elem_of_In in Hin, H0.
  specialize (Hle 0 H0). destruct (Hwf lo Hin). lia.
Qed.

Lemma ddiv_ge_one (x : spec_float) (m : positive) (e : Z) :
  has_sign false x -> dvalid x -> dvalid (S754_finite false m e) ->
  dlt x (S754_finite false m e) = false ->
  ge_one (ddiv x (S754_finite false m e)).
Proof.
  intros Hs Hv Hvm Hlt.
  destruct x as [s|s| |s mx ex]; try done; simpl in Hs; subst s; try done.
  apply SFltb_lex in Hlt.
  destruct (valid_canon _ _ _ _ _ Hv) as [Hc1 _].
  destruct (valid_canon _ _ _ _ _ Hvm) as [Hc2 _].
  pose proof (lex_vle dprec demax dprec_pos _ _ _ _ (Pos2Z.is_pos _) (Pos2Z.is_pos _) Hc2 Hc1 Hlt) as Hle.
  pose proof (SFdiv_ge_one dprec demax dprec_pos demax_ge mx m ex e Hle) as H1.
  pose proof (SFdiv_ge_one_valid dprec demax dprec_pos demax_ge mx m ex e Hle) as H2.
  unfold ge_one, ddiv, dvalid.
  destruct (SFdiv dprec demax _ _) as [s|s| |s m' e']; try done.
  destruct H1 as [-> H1]. done.
Qed.

Lemma clamp_sub_ge_one (q : spec_float) :
  ge_one q -> dmul (clamp (dsub one q)) hundred = zero.
Proof.
  destruct q as [s|s| |s m e]; try done; cbn [ge_one].
  - by intros ->.
  - intros (-> & Hv & Hle).
    destruct (valid_canon _ _ _ _ _ Hv) as [Hc _].
    destruct (canon_facts dprec demax dprec_pos _ _ (Pos2Z.is_pos _) Hc) as (_ & Hd & _ & _).
    pose proof (vle_digits (2 ^ 52) (-52) (Zpos m) e ltac:(reflexivity) (Pos2Z.is_pos _) Hle) as Hdig.
    change (Zdigits2 (2 ^ 52)) with 53 in Hdig. unfold dprec in Hd.
    assert (He : -52 <= e) by lia.
    unfold dsub, one. cbn [SFsub cond_Zopp].
    rewrite (Z.min_l (-52) e) by lia.
    pose proof (shl_align_spec 4503599627370496 (-52) (-52)) as H1.
    pose proof (shl_align_spec m e (-52)) as H2.
    destruct (shl_align 4503599627370496 (-52) (-52)) as [m1 e1].
    destruct (shl_align m e (-52)) as [m2 e2]. cbn [fst].
    destruct H1 as [He1 H1]. destruct H2 as [He2 H2].
    rewrite Z.min_r in He2 by lia. change (Z.min (-52) (-52)) with (-52) in He1. subst e1 e2.
    unfold vle in Hle. rewrite (Z.min_l (-52) e) in Hle by lia.
    assert (Hz : Zpos m1 - Zpos m2 <= 0) by (rewrite H1, H2; lia).
    destruct (Zpos m1 - Zpos m2) as [|p|p] eqn:Hp; [done|lia|].
    cbn [binary_normalize].
    pose proof (binary_round_has_sign dprec demax true p (-52)) as Hs.
    pose proof (binary_round_lower dprec demax dprec_pos true p (-52) 1 (SpecFloat.emin dprec demax)
                  ltac:(lia) (canon_tiny dprec demax dprec_pos)) as Hl.
    destruct (binary_round dprec demax true p (-52)) as [s|s| |s m' e'].
    + exfalso. apply Hl. unfold vle.
      change (Z.min (SpecFloat.emin dprec demax) (-52)) with (SpecFloat.emin dprec demax).
      rewrite Z.sub_diag.
      assert (0 < 2 ^ (-52 - SpecFloat.emin dprec demax)) by (by apply Z.pow_pos_nonneg).
      nia.
    + simpl in Hs. by subst s.
    + done.
    + simpl in Hs. by subst s.
Qed.

Lemma uniformity_of_zero_bucket (mean : spec_float) (h : list Z) :
  dpos mean -> fst (Stats.minmax_element h) = 0 ->
  Stats.uniformity_of mean h = zero.
Proof.
  intros Hmean Hlo. rewrite uniformity_of_clamp, Hlo by done.
  destruct (deviation_ok (snd (Stats.minmax_element h)) mean Hmean) as [Hs Hv].
  set (A := dabs (dsub (d_of_Z (snd (Stats.minmax_element h))) mean)) in *.
  destruct Hmean as (m & e & -> & Hvm).
  change (dabs (dsub (d_of_Z 0) (S754_finite false m e))) with (S754_finite false m e).
  apply clamp_sub_ge_one. unfold dmax.
  destruct (dlt A (S754_finite false m e)) eqn:Hlt.
  - apply ddiv_ge_one; try done. apply SFltb_lex. right. split; [done|lia].
  - by apply ddiv_ge_one.
Qed.

Lemma fmax_dmax (x y : spec_float) :
  has_sign false x -> has_sign false y -> fmax_spec x y = dmax x y.
Proof.
  unfold fmax_spec, dmax, dle, dlt, SFleb, SFltb.
  destruct x as [sx|sx| |sx mx ex], y as [sy|sy| |sy my ey]; try done;
    simpl; intros -> ->; try done.
  destruct (Z.compare_spec ex ey) as [->| |]; try done.
  change (Pos.compare_cont Eq mx my) with (Pos.compare mx my).
  destruct (Pos.compare_spec mx my) as [->| |]; done.
Qed.

Lemma clamp01_clamp (u : spec_float) : clamp01 u = clamp u.
Proof. unfold clamp01, clamp. by destruct (dlt u zero). Qed.

Lemma is_min_unique (a b : Z) (h : list Z) : is_min a h -> is_min b h -> a = b.
Proof.
  intros [Ha Ha'] [Hb Hb']. rewrite Forall_forall in Ha', Hb'.
  apply list_elem_of_In in Ha, Hb. specialize (Ha' b Hb). specialize (Hb' a Ha). lia.
Qed.

Lemma is_max_unique (a b : Z) (h : list Z) : is_max a h -> is_max b h -> a = b.
Proof.
  intros [Ha Ha'] [Hb Hb']. rewrite Forall_forall in Ha', Hb'.
  apply list_elem_of_In in Ha, Hb. specialize (Ha' b Hb). specialize (Hb' a Ha). lia.
Qed.

Lemma compute_stats_nondegenerate (h : list Z) :
  Stats.bucket_count (Stats.compute_stats h) <> 0 ->
  Stats.sample_count (Stats.compute_stats h) <> 0 ->
  let mean := ddiv (d_of_Z (Stats.accumulate h)) (d_of_Z (to_size (Z.of_nat (length h)))) in
  dpos mean /\
  Stats.mean (Stats.compute_stats h) = mean /\
  Stats.uniformity (Stats.compute_stats h) = Stats.uniformity_of mean h.
Proof.
  intros Hm0 Hn0 mean. revert Hm0 Hn0. subst mean. unfold Stats.compute_stats.
  set (m := to_size (Z.of_nat (length h))). set (n := Stats.accumulate h).
  destruct (Z.eqb_spec m 0) as [Hm|Hm]; [by simpl|].
  destruct (Z.eqb_spec n 0) as [Hn|Hn]; [by simpl|].
  intros _ _. cbn [orb Stats.mean Stats.uniformity]. split; [|done].
  apply mean_dpos.
  - unfold n in *. rewrite accumulate_spec in *.
    pose proof (Z.mod_pos_bound (sum_counts h) (2 ^ 64) ltac:(lia)). lia.
  - pose proof (Z.mod_pos_bound (Z.of_nat (length h)) (2 ^ 64) ltac:(lia)).
    unfold m, to_size in *. lia.
Qed.

(** C5, as amended: for every histogram of nonzero length whose counts sum
    to a value that is nonzero modulo [2^64] - the sample count the code
    computes, the sum itself when that is below [2^64] - [compute_stats]
    takes as mean the sample count over the length, in [double]; this mean
    is positive, so that the [mean == 0] case never arises, and the
    uniformity returned is the one of the specification: with [max_dev] the
    larger of [|max - mean|] and [|min - mean|], the fraction
    [1 - max_dev / mean] clamped to [[0, 1]], times 100. When the sum is
    below [2^64] the mean is the specification's. *)
Theorem uniformity_formula (h : list Z) (lo hi : Z) :
  wf_counts h -> h <> [] -> sum_counts h mod 2 ^ 64 <> 0 ->
  is_min lo h -> is_max hi h ->
  let r := Stats.compute_stats h in
  let mean := ddiv (d_of_Z (sum_counts h mod 2 ^ 64)) (d_of_Z (Z.of_nat (length h))) in
  Stats.mean r = mean /\
  dlt zero mean = true /\
  Stats.uniformity r =
    dmul (clamp01 (dsub one (ddiv (fmax_spec (dabs (dsub (d_of_Z hi) mean))
                                             (dabs (dsub (d_of_Z lo) mean)))
                                  mean)))
         hundred /\
  uniformity_spec mean lo hi = Some (Stats.uniformity r) /\
  (sum_counts h < 2 ^ 64 ->
   Stats.mean r = mean_spec h /\
   uniformity_spec (mean_spec h) lo hi = Some (Stats.uniformity r)).
Proof.
  intros [Hwf Hlen] Hne Hsum Hlo Hhi r mean.
  assert (Hm : Stats.bucket_count r <> 0).
  { unfold r, Stats.compute_stats. rewrite (to_size_small (Z.of_nat (length h))) by lia.
    destruct h; [done|]. destruct (_ || _); cbn [Stats.bucket_count length]; lia. }
  assert (Hn : Stats.sample_count r <> 0).
  { unfold r, Stats.compute_stats. rewrite accumulate_spec.
    by destruct (_ || _). }
  destruct (compute_stats_nondegenerate h Hm Hn) as (Hmean & Hmr & Hur).
  rewrite accumulate_spec, (to_size_small (Z.of_nat (length h))) in Hmean, Hmr, Hur by lia.
  fold mean in Hmean, Hmr, Hur. fold r in Hmr, Hur.
  destruct (minmax_element_spec h Hne) as [Hlo' Hhi'].
  assert (Hu : Stats.uniformity r =
               dmul (clamp01 (dsub one (ddiv (fmax_spec (dabs (dsub (d_of_Z hi) mean))
                                                        (dabs (dsub (d_of_Z lo) mean)))
                                             mean)))
                    hundred).
  { rewrite Hur, uniformity_of_clamp by done.
    rewrite <- (is_min_unique _ _ _ Hlo Hlo'), <- (is_max_unique _ _ _ Hhi Hhi').
    rewrite clamp01_clamp, fmax_dmax; [done|by apply deviation_ok..]. }
  assert (Hspec : uniformity_spec mean lo hi = Some (Stats.uniformity r)).
  { unfold uniformity_spec. rewrite (dpos_lt_zero mean Hmean). cbn [option_map].
    by rewrite Hu. }
  split; [done|]. split; [by apply dpos_lt_zero|]. split; [done|]. split; [done|].
  intros Hlt.
  assert (Hms : mean_spec h = mean).
  { unfold mean_spec, mean. rewrite Z.mod_small; [done|].
    pose proof (sum_counts_nonneg h Hwf). lia. }
  by rewrite Hms.
Qed.

Lemma uniformity_formula_witness :
  let r := Stats.compute_stats [3; 0; 5] in
  let mean := ddiv (d_of_Z (sum_counts [3; 0; 5] mod 2 ^ 64))
                   (d_of_Z (Z.of_nat (length [3; 0; 5]))) in
  Stats.mean r = mean /\
  dlt zero mean = true /\
  Stats.uniformity r =
    dmul (clamp01 (dsub one (ddiv (fmax_spec (dabs (dsub (d_of_Z 5) mean))
                                             (dabs (dsub (d_of_Z 0) mean)))
                                  mean)))
         hundred /\
  uniformity_spec mean 0 5 = Some (Stats.uniformity r) /\
  (sum_counts [3; 0; 5] < 2 ^ 64 ->
   Stats.mean r = mean_spec [3; 0; 5] /\
   uniformity_spec (mean_spec [3; 0; 5]) 0 5 = Some (Stats.uniformity r)).
Proof.
  apply (uniformity_formula [3; 0; 5] 0 5).
  - split; [|simpl; lia]. repeat constructor; unfold is_size; lia.
  - done.
  - vm_compute. discriminate.
  - split; [simpl; auto|]. repeat constructor; lia.
  - split; [simpl; auto|]. repeat constructor; lia.
Defined.

(** C5, counterexample: the histogram [[2^63; 2^63]] is a well-formed vector
    of length 2 whose counts sum to [2^64], both nonzero; its mean is
    [2^63], which both counts equal, so that the formula of the
    specification gives a uniformity of 100. [std::accumulate] wraps to 0,
    the early return is taken and the uniformity returned is [+0.0]. *)
Lemma uniformity_formula_fails_on_wrap :
  wf_counts [2 ^ 63; 2 ^ 63] /\
  length [2 ^ 63; 2 ^ 63] <> 0%nat /\ sum_counts [2 ^ 63; 2 ^ 63] <> 0 /\
  is_min (2 ^ 63) [2 ^ 63; 2 ^ 63] /\ is_max (2 ^ 63) [2 ^ 63; 2 ^ 63] /\
  uniformity_spec (mean_spec [2 ^ 63; 2 ^ 63]) (2 ^ 63) (2 ^ 63) = Some hundred /\
  Stats.uniformity (Stats.compute_stats [2 ^ 63; 2 ^ 63]) = zero /\
  uniformity_spec (mean_spec [2 ^ 63; 2 ^ 63]) (2 ^ 63) (2 ^ 63) <>
    Some (Stats.uniformity (Stats.compute_stats [2 ^ 63; 2 ^ 63])).
Proof.
  split_and!.
  - split; [|simpl; lia]. repeat constructor; unfold is_size; lia.
  - done.
  - vm_compute. discriminate.
  - split; [simpl; auto|]. repeat constructor; lia.
  - split; [simpl; auto|]. repeat constructor; lia.
  - by vm_compute.
  - by vm_compute.
  - vm_compute. discriminate.
Qed.

(** C4, as amended: for every histogram [h], [sample_count] is the sum of
    the counts reduced modulo [2^64] (the sum itself when that is below
    [2^64]), [bucket_count] is the length of [h], the uniformity lies in
    [[0, 100]], and [stddev] and [chi2] are at least 0. *)
Theorem compute_stats_invariants (h : list Z) :
  wf_counts h ->
  let r := Stats.compute_stats h in
  Stats.sample_count r = sum_counts h mod 2 ^ 64 /\
  (sum_counts h < 2 ^ 64 -> Stats.sample_count r = sum_counts h) /\
  Stats.bucket_count r = Z.of_nat (length h) /\
  dle zero (Stats.uniformity r) = true /\ dle (Stats.uniformity r) hundred = true /\
  dle zero (Stats.stddev r) = true /\ dle zero (Stats.chi2 r) = true.
Proof.
  intros [Hwf Hlen] r.
  assert (Hs : Stats.sample_count r = sum_counts h mod 2 ^ 64).
  { unfold r, Stats.compute_stats. rewrite <- accumulate_spec. by destruct (_ || _). }
  assert (Hb : Stats.bucket_count r = Z.of_nat (length h)).
  { unfold r, Stats.compute_stats. rewrite (to_size_small (Z.of_nat (length h))) by lia.
    by destruct (_ || _). }
  split; [done|]. split.
  { intros Hsum. rewrite Hs. apply Z.mod_small.
    pose proof (sum_counts_nonneg h Hwf). lia. }
  split; [done|]. apply stats_float_bounds.
Qed.

Lemma compute_stats_invariants_witness :
  Stats.sample_count (Stats.compute_stats [3; 0; 5]) = sum_counts [3; 0; 5] mod 2 ^ 64 /\
  (sum_counts [3; 0; 5] < 2 ^ 64 ->
   Stats.sample_count (Stats.compute_stats [3; 0; 5]) = sum_counts [3; 0; 5]) /\
  Stats.bucket_count (Stats.compute_stats [3; 0; 5]) = Z.of_nat (length [3; 0; 5]) /\
  dle zero (Stats.uniformity (Stats.compute_stats [3; 0; 5])) = true /\
  dle (Stats.uniformity (Stats.compute_stats [3; 0; 5])) hundred = true /\
  dle zero (Stats.stddev (Stats.compute_stats [3; 0; 5])) = true /\
  dle zero (Stats.chi2 (Stats.compute_stats [3; 0; 5])) = true.
Proof.
  apply (compute_stats_invariants [3; 0; 5]).
  split; [|simpl; lia]. repeat constructor; unfold is_size; lia.
Defined.

(** C4, counterexample: the histogram [[2^64 - 1; 1]] is a well-formed
    vector whose counts sum to [2^64]; [std::accumulate] wraps and the
    sample count returned is 0. *)
Lemma compute_stats_sample_count_wraps :
  wf_counts [2 ^ 64 - 1; 1] /\
  Stats.sample_count (Stats.compute_stats [2 ^ 64 - 1; 1]) <> sum_counts [2 ^ 64 - 1; 1].
Proof.
  split.
  - split; [|simpl; lia]. repeat constructor; unfold is_size; lia.
  - vm_compute. discriminate.
Qed.

(** C6: for a histogram of length zero or of total zero, [compute_stats]
    returns the record with the sample count and the bucket count set and
    mean, stddev, chi2 and uniformity all at [+0.0]; the function is total,
    there is no error to raise. *)
Theorem compute_stats_degenerate (h : list Z) :
  Z.of_nat (length h) < 2 ^ 64 ->
  length h = 0%nat \/ sum_counts h = 0 ->
  Stats.compute_stats h =
    Stats.mkStats (sum_counts h) (Z.of_nat (length h)) zero zero zero zero.
Proof.
  intros Hlen Hdeg.
  assert (Hn : Stats.accumulate h = 0 /\ sum_counts h = 0).
  { rewrite accumulate_spec. destruct Hdeg as [H0|H0].
    - destruct h; [done|simpl in H0; lia].
    - by rewrite H0. }
  destruct Hn as [Hn Hs]. unfold Stats.compute_stats.
  rewrite Hn, Hs, (to_size_small (Z.of_nat (length h))) by lia.
  by rewrite orb_true_r.
Qed.

Lemma compute_stats_degenerate_witness :
  Stats.compute_stats [0; 0; 0] = Stats.mkStats (sum_counts [0; 0; 0]) 3 zero zero zero zero.
Proof.
  apply (compute_stats_degenerate [0; 0; 0]).
  - simpl. lia.
  - right. reflexivity.
Defined.

(** A bucket with count zero drives the uniformity to [+0.0]. *)
Lemma uniformity_zero_bucket (h : list Z) :
  Forall is_size h -> In 0 h ->
  Stats.uniformity (Stats.compute_stats h) = zero.
Proof.
  intros Hwf H0.
  destruct (Z.eq_dec (Stats.bucket_count (Stats.compute_stats h)) 0) as [Hm|Hm];
    [|destruct (Z.eq_dec (Stats.sample_count (Stats.compute_stats h)) 0) as [Hn|Hn]].
  - revert Hm. unfold Stats.compute_stats.
    destruct (Z.eqb_spec (to_size (Z.of_nat (length h))) 0); [done|].
    destruct (_ =? 0); simpl; [done|]. lia.
  - revert Hn. unfold Stats.compute_stats.
    destruct (Z.eqb_spec (Stats.accumulate h) 0).
    + by rewrite orb_true_r.
    + destruct (_ =? 0); simpl; [done|]. lia.
  - destruct (compute_stats_nondegenerate h Hm Hn) as (Hmean & _ & ->).
    apply uniformity_of_zero_bucket; [done|].
    assert (Hne : h <> []) by (by destruct h).
    destruct (minmax_element_spec h Hne) as [Hlo _].
    by eapply is_min_zero.
Qed.

(** C10: for every histogram with at least two buckets, a positive total
    and at least one bucket whose count is zero, [compute_stats] returns
    the uniformity [+0.0]. *)
Theorem uniformity_zero_when_bucket_empty (h : list Z) :
  wf_counts h -> (2 <= length h)%nat -> 0 < sum_counts h -> In 0 h ->
  Stats.uniformity (Stats.compute_stats h) = zero.
Proof. intros [Hwf _] _ _ H0. by apply uniformity_zero_bucket. Qed.

Lemma uniformity_zero_when_bucket_empty_witness :
  Stats.uniformity (Stats.compute_stats [3; 0; 5]) = zero.
Proof.
  apply (uniformity_zero_when_bucket_empty [3; 0; 5]).
  - split; [|simpl; lia]. repeat constructor; unfold is_size; lia.
  - simpl. lia.
  - simpl. lia.
  - simpl. auto.
Defined.

(** C2, counterexample: with multiplier 1, offset 0 and [k = 4] the
    histogram of the range [[0, 128)] does not have the count 8 in every
    bucket. *)
Lemma scenario1_not_uniform :
  ~ (exists h, BucketEngine.distribution_range 128 (Config.mk 1 0 4) 0 128 = Some h /\
               Forall (fun c => c = 8) h).
Proof.
  intros (h & Hh & Hall). vm_compute in Hh. injection Hh as <-.
  apply Forall_inv in Hall. discriminate.
Qed.

(** C2, as amended: with multiplier 1, offset 0 and [k = 4] the range
    [[0, 128)] falls into bucket 0 as a whole (the top four bits of every
    value below [2^28] are zero): the histogram is 128 followed by fifteen
    zeros, and its statistics are mean 8.0, stddev [sqrt 960], chi2 1920.0
    and uniformity 0.0. Mean 8.0, stddev 0.0, chi2 0.0 and uniformity 100.0
    are the statistics of the histogram of sixteen counts of 8. *)
Theorem scenario1_histogram_and_stats :
  BucketEngine.distribution_range 128 (Config.mk 1 0 4) 0 128 = Some (128 :: replicate 15 0) /\
  Stats.compute_stats (128 :: replicate 15 0) =
    Stats.mkStats 128 16 (d_of_Z 8) (dsqrt (d_of_Z 960)) (d_of_Z 1920) zero /\
  Stats.compute_stats (replicate 16 8) =
    Stats.mkStats 128 16 (d_of_Z 8) zero zero hundred.
Proof. split; [|split]; by vm_compute. Qed.

(** C8: what [parse_ipv4] does on malformed and on well-formed input. It
    accepts a token with characters after its digits, a dot after the
    fourth octet, and leading white space or a sign; it parses
    ["192.168.0.1"] to [0xC0A80001] and ["10.0.0.1"] to [0x0A000001], and
    rejects the four malformed inputs the specification lists. *)
Theorem parse_ipv4_accepts_malformed :
  Utils.parse_ipv4 "1.2.3.4x" = Some 16909060 /\
  Utils.parse_ipv4 "1.2.3.4." = Some 16909060 /\
  Utils.parse_ipv4 " 1.+2.3.4" = Some 16909060 /\
  Utils.parse_ipv4 "192.168.0.1" = Some 3232235521 /\
  Utils.parse_ipv4 "10.0.0.1" = Some 167772161 /\
  Utils.parse_ipv4 "1.2.3" = None /\
  Utils.parse_ipv4 "1.2.3.4.5" = None /\
  Utils.parse_ipv4 "1.2.3.256" = None /\
  Utils.parse_ipv4 "1.2.3." = None.
Proof. repeat split; by vm_compute. Qed.

(** ** Bucket engine *)
Lemma zero_counts_length (cfg : Config.t) :
  0 <= Config.k cfg ->
  Z.of_nat (length (BucketEngine.zero_counts (Config.bucket_count cfg))) = Config.bucket_count cfg.
Proof.
  intros Hk. pose proof (bucket_count_range cfg Hk).
  unfold BucketEngine.zero_counts. rewrite length_replicate. lia.
Qed.

Lemma zero_counts_lookup (m : Z) (i : nat) :
  (i < Z.to_nat m)%nat -> BucketEngine.zero_counts m !! i = Some 0.
Proof. intros. unfold BucketEngine.zero_counts. by apply lookup_replicate_2. Qed.

Lemma zero_counts_nonneg (m : Z) : Forall (fun x => 0 <= x) (BucketEngine.zero_counts m).
Proof. unfold BucketEngine.zero_counts. apply Forall_replicate. lia. Qed.

(** C1: for every configuration [(a, b, k)] and every 32-bit address [x],
    with [y = (a * x + b) mod 2^32], [bucket_index x] is 0 when [k = 0],
    [y] itself when [k >= 32], and [y] shifted right by [32 - k] bits
    otherwise. *)
Theorem bucket_index_top_bits (cfg : Config.t) (x : Z) :
  Config.wf cfg -> is_u32 x ->
  let y := (Config.a cfg * x + Config.b cfg) mod 2 ^ 32 in
  BucketEngine.bucket_index cfg x =
    if Config.k cfg =? 0 then 0
    else if 32 <=? Config.k cfg then y
    else Z.shiftr y (32 - Config.k cfg).
Proof.
  intros (_ & _ & Hk) _ y. unfold BucketEngine.bucket_index.
  rewrite affine_wrap. fold y.
  apply bucket_from_y_spec; [|exact Hk].
  apply Z.mod_pos_bound. lia.
Qed.

Lemma bucket_index_top_bits_witness :
  BucketEngine.bucket_index (Config.mk 2654435761 2246822519 12) 3232235521 =
    Z.shiftr ((2654435761 * 3232235521 + 2246822519) mod 2 ^ 32) (32 - 12).
Proof.
  apply (bucket_index_top_bits (Config.mk 2654435761 2246822519 12) 3232235521).
  - unfold Config.wf, is_u32. simpl. lia.
  - unfold is_u32. lia.
Defined.

(** C7: when [end <= start], [distribution(start, end)] returns a histogram
    of length [bucket_count] whose counts are all zero, whatever the
    configuration (and so for [start = 0], [end = 0]); no turn of the loop is
    taken, so no fuel is needed. *)
Theorem distribution_range_empty (cfg : Config.t) (start end_ : Z) (fuel : nat) :
  end_ <= start ->
  exists h, BucketEngine.distribution_range fuel cfg start end_ = Some h /\
    Z.of_nat (length h) = Config.bucket_count cfg /\
    Forall (fun c => c = 0) h.
Proof.
  intros Hle. exists (BucketEngine.zero_counts (Config.bucket_count cfg)).
  split; [|split].
  - unfold BucketEngine.distribution_range.
    destruct (_ =? 0); [done|].
    destruct (Z.leb_spec end_ start); [done|lia].
  - unfold BucketEngine.zero_counts. rewrite length_replicate.
    assert (0 <= Config.bucket_count cfg); [|lia].
    unfold Config.bucket_count, to_size.
    destruct (_ <=? _); apply Z.mod_pos_bound; lia.
  - unfold BucketEngine.zero_counts. by apply Forall_replicate.
Qed.

Lemma distribution_range_empty_witness :
  exists h, BucketEngine.distribution_range 0 (Config.mk 2654435761 2246822519 12) 0 0 = Some h /\
    Z.of_nat (length h) = Config.bucket_count (Config.mk 2654435761 2246822519 12) /\
    Forall (fun c => c = 0) h.
Proof.
  apply (distribution_range_empty (Config.mk 2654435761 2246822519 12) 0 0 0). lia.
Defined.

(** C9: for every configuration and every list of addresses,
    [bucket_index] is below the length of the histogram, which is
    [bucket_count], so the guard of [distribution(addresses)] never drops an
    address, and the counts sum to the length of the list. *)
Theorem distribution_total (cfg : Config.t) (ips : list Z) :
  Config.wf cfg -> Z.of_nat (length ips) < 2 ^ 64 ->
  (forall ip, 0 <= BucketEngine.bucket_index cfg ip
              < Z.of_nat (length (BucketEngine.distribution cfg ips))) /\
  Z.of_nat (length (BucketEngine.distribution cfg ips)) = Config.bucket_count cfg /\
  sum_counts (BucketEngine.distribution cfg ips) = Z.of_nat (length ips).
Proof.
  intros (_ & _ & Hk) Hlen.
  pose proof (bucket_count_range cfg ltac:(unfold is_u32 in Hk; lia)) as Hm.
  assert (Hd : BucketEngine.distribution cfg ips =
               fold_left (step cfg) ips (BucketEngine.zero_counts (Config.bucket_count cfg))).
  { unfold BucketEngine.distribution. destruct (Z.eqb_spec (Config.bucket_count cfg) 0); [lia|done]. }
  assert (Hl : Z.of_nat (length (BucketEngine.distribution cfg ips)) = Config.bucket_count cfg).
  { rewrite Hd, fold_step_length. apply zero_counts_length. apply Hk. }
  split; [|split; [exact Hl|]].
  - intros ip. rewrite Hl. by apply bucket_index_lt.
  - rewrite Hd, (fold_step_sum cfg Hk).
    + unfold BucketEngine.zero_counts. rewrite sum_counts_replicate. lia.
    + apply zero_counts_length, Hk.
    + apply zero_counts_nonneg.
    + unfold BucketEngine.zero_counts. rewrite sum_counts_replicate. lia.
Qed.

Lemma distribution_total_witness :
  sum_counts (BucketEngine.distribution (Config.mk 2654435761 2246822519 2)
                [0; 1; 42; 2130706433; 3232235521; 4294967295]) = 6.
Proof.
  apply (distribution_total (Config.mk 2654435761 2246822519 2)
           [0; 1; 42; 2130706433; 3232235521; 4294967295]).
  - unfold Config.wf, is_u32. simpl. lia.
  - simpl. lia.
Defined.


(** C3: for every configuration and every 32-bit [start < end], the loop of
    [distribution(start, end)] ends within [end - start] turns; the
    histogram it returns has length [bucket_count], holds in each bucket the
    number of values of [[start, end)] that map to it, and sums to
    [end - start]. The 64-bit counter does not wrap: run up to [2^32], one
    more than the largest address, the loop still ends after visiting each
    value of [[start, 2^32)] once. *)
Theorem distribution_range_counts (cfg : Config.t) (start end_ : Z) (fuel : nat) :
  Config.wf cfg -> is_u32 start -> is_u32 end_ -> start < end_ ->
  (Z.to_nat (end_ - start) <= fuel)%nat ->
  (exists h, BucketEngine.distribution_range fuel cfg start end_ = Some h /\
     Z.of_nat (length h) = Config.bucket_count cfg /\
     (forall i, 0 <= i < Config.bucket_count cfg ->
        h !! Z.to_nat i = Some (hits cfg i (seqZ start (end_ - start)))) /\
     sum_counts h = end_ - start) /\
  (forall counts,
     BucketEngine.range_loop (Z.to_nat (2 ^ 32 - start)) cfg start (2 ^ 32) counts =
       Some (fold_left (step cfg) (seqZ start (2 ^ 32 - start)) counts)).
Proof.
  intros (_ & _ & Hk) Hs He Hlt Hfuel. unfold is_u32 in *.
  pose proof (bucket_count_range cfg ltac:(lia)) as Hm.
  split.
  - exists (fold_left (step cfg) (seqZ start (end_ - start))
              (BucketEngine.zero_counts (Config.bucket_count cfg))).
    assert (Hlen : Z.of_nat (length (seqZ start (end_ - start))) = end_ - start)
      by (rewrite length_seqZ; lia).
    split; [|split; [|split]].
    + unfold BucketEngine.distribution_range.
      destruct (Z.eqb_spec (Config.bucket_count cfg) 0); [lia|].
      destruct (Z.leb_spec end_ start); [lia|].
      rewrite !to_u64_small by lia.
      rewrite (range_loop_unroll cfg (Z.to_nat (end_ - start))) by lia.
      rewrite fmap_to_u32_seqZ by lia. done.
    + rewrite fold_step_length. apply zero_counts_length. lia.
    + intros i Hi.
      rewrite (fold_step_lookup cfg Hk _ _ (Z.to_nat i) 0).
      * rewrite Z2Nat.id by lia. done.
      * apply zero_counts_length. lia.
      * apply zero_counts_lookup. lia.
      * lia.
      * lia.
    + rewrite (fold_step_sum cfg Hk).
      * unfold BucketEngine.zero_counts. rewrite sum_counts_replicate. lia.
      * apply zero_counts_length. lia.
      * apply zero_counts_nonneg.
      * unfold BucketEngine.zero_counts. rewrite sum_counts_replicate. lia.
  - intros counts.
    rewrite (range_loop_unroll cfg (Z.to_nat (2 ^ 32 - start))) by lia.
    rewrite fmap_to_u32_seqZ by lia. done.
Qed.

Lemma distribution_range_counts_witness :
  exists h, BucketEngine.distribution_range 128 (Config.mk 1 0 4) 0 128 = Some h /\
     Z.of_nat (length h) = Config.bucket_count (Config.mk 1 0 4) /\
     (forall i, 0 <= i < Config.bucket_count (Config.mk 1 0 4) ->
        h !! Z.to_nat i = Some (hits (Config.mk 1 0 4) i (seqZ 0 (128 - 0)))) /\
     sum_counts h = 128 - 0.
Proof.
  apply (distribution_range_counts (Config.mk 1 0 4) 0 128 128).
  - unfold Config.wf, is_u32. simpl. lia.
  - unfold is_u32. lia.
  - unfold is_u32. lia.
  - lia.
  - simpl. lia.
Defined.

(** * Further properties of the code *)

(** ** Histograms in closed form *)

Lemma distribution_unfold (cfg : Config.t) (ips : list Z) :
  0 <= Config.k cfg ->
  BucketEngine.distribution cfg ips =
    fold_left (step cfg) ips (BucketEngine.zero_counts (Config.bucket_count cfg)).
Proof.
  intros Hk. pose proof (bucket_count_range cfg Hk).
  unfold BucketEngine.distribution.
  destruct (Z.eqb_spec (Config.bucket_count cfg) 0); [lia|done].
Qed.

Lemma distribution_closed_form (cfg : Config.t) (ips : list Z) :
  Config.wf cfg -> Z.of_nat (length ips) < 2 ^ 64 ->
  BucketEngine.distribution cfg ips =
    (fun i => hits cfg i ips) <$> seqZ 0 (Config.bucket_count cfg).
Proof.
  intros (_ & _ & Hk) Hlen. unfold is_u32 in Hk.
  pose proof (bucket_count_range cfg ltac:(lia)) as Hm.
  rewrite distribution_unfold by lia.
  apply list_eq. intros i.
  rewrite list_lookup_fmap.
  destruct (decide (Z.of_nat i < Config.bucket_count cfg)) as [Hi|Hi].
  - rewrite (fold_step_lookup cfg Hk _ _ i 0);
      [| apply zero_counts_length; lia | apply zero_counts_lookup; lia | lia | lia].
    rewrite (lookup_seqZ_lt 0 (Config.bucket_count cfg) i) by lia.
    cbn [fmap option_fmap option_map]. by rewrite !Z.add_0_l.
  - rewrite (lookup_seqZ_ge 0 (Config.bucket_count cfg) i) by lia. simpl.
    apply lookup_ge_None. rewrite fold_step_length.
    pose proof (zero_counts_length cfg ltac:(lia)). lia.
Qed.

(** X1: the histogram of [distribution(ips)] has one entry per bucket, and
    entry [i] is the number of addresses of [ips] that [bucket_index] sends
    to [i]: no address is dropped by the guard [b < counts.size()] and no
    count wraps. *)
Theorem distribution_hits (cfg : Config.t) (ips : list Z) :
  Config.wf cfg -> Z.of_nat (length ips) < 2 ^ 64 ->
  Z.of_nat (length (BucketEngine.distribution cfg ips)) = Config.bucket_count cfg /\
  (forall i, 0 <= i < Config.bucket_count cfg ->
     BucketEngine.distribution cfg ips !! Z.to_nat i = Some (hits cfg i ips)).
Proof.
  intros Hwf Hlen. rewrite distribution_closed_form by done.
  pose proof Hwf as (_ & _ & Hk). unfold is_u32 in Hk.
  pose proof (bucket_count_range cfg ltac:(lia)) as Hm.
  split.
  - rewrite length_fmap, length_seqZ. lia.
  - intros i Hi.
    rewrite list_lookup_fmap, (lookup_seqZ_lt 0 _ (Z.to_nat i)) by lia.
    cbn [fmap option_fmap option_map]. do 2 f_equal. lia.
Qed.

Lemma distribution_hits_witness :
  Z.of_nat (length (BucketEngine.distribution (Config.mk 2654435761 2246822519 2) [0; 1; 42]))
    = Config.bucket_count (Config.mk 2654435761 2246822519 2) /\
  (forall i, 0 <= i < Config.bucket_count (Config.mk 2654435761 2246822519 2) ->
     BucketEngine.distribution (Config.mk 2654435761 2246822519 2) [0; 1; 42] !! Z.to_nat i
       = Some (hits (Config.mk 2654435761 2246822519 2) i [0; 1; 42])).
Proof.
  apply (distribution_hits (Config.mk 2654435761 2246822519 2) [0; 1; 42]).
  - unfold Config.wf, is_u32. simpl. lia.
  - simpl. lia.
Defined.

Lemma hits_bucketize (cfg : Config.t) (i : Z) (ips : list Z) :
  hits cfg i ips =
    Z.of_nat (length (filter (fun b => b = i) (BucketEngine.bucketize cfg ips))).
Proof.
  unfold hits, BucketEngine.bucketize.
  induction ips as [|x l IH]; [done|]. cbn [map].
  rewrite !filter_cons.
  destruct (decide (BucketEngine.bucket_index cfg x = i)); cbn [length]; lia.
Qed.

(** X2: [distribution] and [bucketize] agree: bucket [i] of the histogram
    holds the number of times [i] occurs in the vector of bucket indices. *)
Theorem distribution_bucketize (cfg : Config.t) (ips : list Z) (i : Z) :
  Config.wf cfg -> Z.of_nat (length ips) < 2 ^ 64 ->
  0 <= i < Config.bucket_count cfg ->
  BucketEngine.distribution cfg ips !! Z.to_nat i =
    Some (Z.of_nat (length (filter (fun b => b = i) (BucketEngine.bucketize cfg ips)))).
Proof.
  intros Hwf Hlen Hi. rewrite distribution_closed_form by done.
  rewrite list_lookup_fmap, (lookup_seqZ_lt 0 _ (Z.to_nat i)) by lia.
  cbn [fmap option_fmap option_map].
  replace (0 + Z.of_nat (Z.to_nat i)) with i by lia.
  by rewrite hits_bucketize.
Qed.

Lemma distribution_bucketize_witness :
  BucketEngine.distribution (Config.mk 2654435761 2246822519 2) [0; 1; 42] !! Z.to_nat 2 =
    Some (Z.of_nat (length (filter (fun b => b = 2)
      (BucketEngine.bucketize (Config.mk 2654435761 2246822519 2) [0; 1; 42])))).
Proof.
  apply (distribution_bucketize (Config.mk 2654435761 2246822519 2) [0; 1; 42] 2).
  - unfold Config.wf, is_u32. simpl. lia.
  - simpl. lia.
  - split; [lia|reflexivity].
Defined.

Lemma hits_app (cfg : Config.t) (i : Z) (xs ys : list Z) :
  hits cfg i (xs ++ ys) = hits cfg i xs + hits cfg i ys.
Proof. unfold hits. rewrite filter_app, length_app. lia. Qed.

Lemma zip_with_fmap_same {A B : Type} (f g h : A -> B) (op : B -> B -> B) (l : list A) :
  (forall x, h x = op (f x) (g x)) ->
  h <$> l = zip_with op (f <$> l) (g <$> l).
Proof.
  intros Hh. induction l as [|x l IH]; simpl; [done|].
  f_equal; [apply Hh|exact IH].
Qed.

(** X3: histograms add up: the histogram of two address vectors put end to
    end is the bucket-wise sum of their histograms. *)
Theorem distribution_app (cfg : Config.t) (xs ys : list Z) :
  Config.wf cfg -> Z.of_nat (length (xs ++ ys)) < 2 ^ 64 ->
  BucketEngine.distribution cfg (xs ++ ys) =
    zip_with Z.add (BucketEngine.distribution cfg xs) (BucketEngine.distribution cfg ys).
Proof.
  intros Hwf Hlen. rewrite length_app in Hlen.
  rewrite !distribution_closed_form by (done || lia || rewrite length_app; lia).
  apply zip_with_fmap_same. intros i. apply hits_app.
Qed.

Lemma distribution_app_witness :
  BucketEngine.distribution (Config.mk 2654435761 2246822519 2) ([0; 1] ++ [42; 7]) =
    zip_with Z.add (BucketEngine.distribution (Config.mk 2654435761 2246822519 2) [0; 1])
                   (BucketEngine.distribution (Config.mk 2654435761 2246822519 2) [42; 7]).
Proof.
  apply (distribution_app (Config.mk 2654435761 2246822519 2) [0; 1] [42; 7]).
  - unfold Config.wf, is_u32. simpl. lia.
  - simpl. lia.
Defined.

(** X4: the histogram does not depend on the order of the addresses. *)
Theorem distribution_Permutation (cfg : Config.t) (xs ys : list Z) :
  Config.wf cfg -> Z.of_nat (length xs) < 2 ^ 64 -> xs ≡ₚ ys ->
  BucketEngine.distribution cfg xs = BucketEngine.distribution cfg ys.
Proof.
  intros Hwf Hlen Hp.
  rewrite !distribution_closed_form; try done.
  - apply list_fmap_ext. intros _ i _. unfold hits. by rewrite Hp.
  - by rewrite <- Hp.
Qed.

Lemma distribution_Permutation_witness :
  BucketEngine.distribution (Config.mk 2654435761 2246822519 2) [0; 1; 42] =
  BucketEngine.distribution (Config.mk 2654435761 2246822519 2) [1; 0; 42].
Proof.
  apply (distribution_Permutation (Config.mk 2654435761 2246822519 2) [0; 1; 42] [1; 0; 42]).
  - unfold Config.wf, is_u32. simpl. lia.
  - simpl. lia.
  - apply perm_swap.
Defined.

(** ** The two overloads of [distribution] *)

Lemma distribution_range_fold (cfg : Config.t) (start end_ : Z) (fuel : nat) :
  Config.wf cfg -> is_u32 start -> is_u32 end_ ->
  (Z.to_nat (end_ - start) <= fuel)%nat ->
  BucketEngine.distribution_range fuel cfg start end_ =
    Some (fold_left (step cfg) (seqZ start (end_ - start))
            (BucketEngine.zero_counts (Config.bucket_count cfg))).
Proof.
  intros (_ & _ & Hk) Hs He Hfuel. unfold is_u32 in *.
  pose proof (bucket_count_range cfg ltac:(lia)) as Hm.
  unfold BucketEngine.distribution_range.
  destruct (Z.eqb_spec (Config.bucket_count cfg) 0); [lia|].
  destruct (Z.leb_spec end_ start).
  - by rewrite seqZ_nil by lia.
  - rewrite !to_u64_small by lia.
    rewrite (range_loop_unroll cfg (Z.to_nat (end_ - start))) by lia.
    by rewrite fmap_to_u32_seqZ by lia.
Qed.

(** X5: [distribution(start, end)] returns what [distribution(ips)] returns
    on the vector [start, start + 1, ..., end - 1] (the empty vector when
    [end <= start]). *)
Theorem distribution_range_as_list (cfg : Config.t) (start end_ : Z) (fuel : nat) :
  Config.wf cfg -> is_u32 start -> is_u32 end_ ->
  (Z.to_nat (end_ - start) <= fuel)%nat ->
  BucketEngine.distribution_range fuel cfg start end_ =
    Some (BucketEngine.distribution cfg (seqZ start (end_ - start))).
Proof.
  intros Hwf Hs He Hfuel. pose proof Hwf as (_ & _ & Hk). unfold is_u32 in Hk.
  rewrite distribution_unfold by lia.
  by apply distribution_range_fold.
Qed.

Lemma distribution_range_as_list_witness :
  BucketEngine.distribution_range 8 (Config.mk 2654435761 2246822519 2) 3 11 =
    Some (BucketEngine.distribution (Config.mk 2654435761 2246822519 2) (seqZ 3 (11 - 3))).
Proof.
  apply (distribution_range_as_list (Config.mk 2654435761 2246822519 2) 3 11 8).
  - unfold Config.wf, is_u32. simpl. lia.
  - unfold is_u32. lia.
  - unfold is_u32. lia.
  - simpl. lia.
Defined.

(** X6: a range can be cut anywhere: the histogram of [[start, end)] is the
    bucket-wise sum of those of [[start, mid)] and [[mid, end)]. *)
Theorem distribution_range_split (cfg : Config.t) (start mid end_ : Z) (fuel : nat) :
  Config.wf cfg -> is_u32 start -> is_u32 end_ -> start <= mid <= end_ ->
  (Z.to_nat (end_ - start) <= fuel)%nat ->
  exists h h1 h2,
    BucketEngine.distribution_range fuel cfg start end_ = Some h /\
    BucketEngine.distribution_range fuel cfg start mid = Some h1 /\
    BucketEngine.distribution_range fuel cfg mid end_ = Some h2 /\
    h = zip_with Z.add h1 h2.
Proof.
  intros Hwf Hs He Hmid Hfuel. pose proof Hwf as (_ & _ & Hk). unfold is_u32 in *.
  exists (BucketEngine.distribution cfg (seqZ start (end_ - start))),
         (BucketEngine.distribution cfg (seqZ start (mid - start))),
         (BucketEngine.distribution cfg (seqZ mid (end_ - mid))).
  rewrite !(distribution_unfold cfg) by lia.
  split; [|split; [|split]].
  - by apply distribution_range_fold.
  - apply distribution_range_fold; unfold is_u32; try done; lia.
  - apply distribution_range_fold; unfold is_u32; try done; lia.
  - rewrite <- !(distribution_unfold cfg) by lia.
    replace (end_ - start) with ((mid - start) + (end_ - mid)) by lia.
    rewrite seqZ_app by lia. replace (start + (mid - start)) with mid by lia.
    rewrite !distribution_closed_form by (done || rewrite ?length_app, !length_seqZ; lia).
    apply zip_with_fmap_same. intros i. apply hits_app.
Qed.

Lemma distribution_range_split_witness :
  exists h h1 h2,
    BucketEngine.distribution_range 8 (Config.mk 2654435761 2246822519 2) 3 11 = Some h /\
    BucketEngine.distribution_range 8 (Config.mk 2654435761 2246822519 2) 3 6 = Some h1 /\
    BucketEngine.distribution_range 8 (Config.mk 2654435761 2246822519 2) 6 11 = Some h2 /\
    h = zip_with Z.add h1 h2.
Proof.
  apply (distribution_range_split (Config.mk 2654435761 2246822519 2) 3 6 11 8).
  - unfold Config.wf, is_u32. simpl. lia.
  - unfold is_u32. lia.
  - unfold is_u32. lia.
  - lia.
  - simpl. lia.
Defined.

(** ** No bucket bits *)

Lemma hits_all (cfg : Config.t) (i : Z) (vs : list Z) :
  (forall v, BucketEngine.bucket_index cfg v = i) ->
  hits cfg i vs = Z.of_nat (length vs).
Proof.
  intros Hall. unfold hits. induction vs as [|v vs IH]; [done|].
  rewrite filter_cons_True by apply Hall. cbn [length]. lia.
Qed.

(** X7: with [k = 0] there is one bucket: [bucketize] gives index 0 for
    every address and [distribution] the one-entry histogram holding the
    number of addresses. *)
Theorem distribution_single_bucket (cfg : Config.t) (ips : list Z) :
  Config.wf cfg -> Config.k cfg = 0 -> Z.of_nat (length ips) < 2 ^ 64 ->
  BucketEngine.bucketize cfg ips = replicate (length ips) 0 /\
  BucketEngine.distribution cfg ips = [Z.of_nat (length ips)].
Proof.
  intros Hwf Hk Hlen.
  assert (Hidx : forall v, BucketEngine.bucket_index cfg v = 0).
  { intros v. unfold BucketEngine.bucket_index, BucketEngine.bucket_from_y. by rewrite Hk. }
  split.
  - unfold BucketEngine.bucketize. induction ips as [|x l IH]; [done|].
    cbn [map length replicate]. rewrite Hidx, IH; [done|]. simpl in Hlen. lia.
  - rewrite distribution_closed_form by done.
    unfold Config.bucket_count. rewrite Hk. simpl. by rewrite hits_all.
Qed.

Lemma distribution_single_bucket_witness :
  BucketEngine.bucketize (Config.mk 2654435761 2246822519 0)
    [0; 1; 42; 2130706433; 3232235521; 4294967295] = replicate 6 0 /\
  BucketEngine.distribution (Config.mk 2654435761 2246822519 0)
    [0; 1; 42; 2130706433; 3232235521; 4294967295] = [6].
Proof.
  apply (distribution_single_bucket (Config.mk 2654435761 2246822519 0)
           [0; 1; 42; 2130706433; 3232235521; 4294967295]).
  - unfold Config.wf, is_u32. simpl. lia.
  - reflexivity.
  - simpl. lia.
Defined.

(** ** Statistics of a histogram of the engine *)

Lemma distribution_length (cfg : Config.t) (ips : list Z) :
  0 <= Config.k cfg < 2 ^ 32 ->
  Z.of_nat (length (BucketEngine.distribution cfg ips)) = Config.bucket_count cfg.
Proof.
  intros Hk. rewrite distribution_unfold, fold_step_length by lia.
  apply zero_counts_length. lia.
Qed.

Lemma distribution_sum (cfg : Config.t) (ips : list Z) :
  0 <= Config.k cfg < 2 ^ 32 -> Z.of_nat (length ips) < 2 ^ 64 ->
  sum_counts (BucketEngine.distribution cfg ips) = Z.of_nat (length ips).
Proof.
  intros Hk Hlen. rewrite distribution_unfold by lia.
  assert (Hz : sum_counts (BucketEngine.zero_counts (Config.bucket_count cfg)) = 0)
    by apply sum_counts_replicate.
  rewrite (fold_step_sum cfg Hk); rewrite ?Hz; try lia.
  - apply zero_counts_length. lia.
  - apply zero_counts_nonneg.
Qed.

Lemma compute_stats_counts (h : list Z) :
  Stats.sample_count (Stats.compute_stats h) = sum_counts h mod 2 ^ 64 /\
  Stats.bucket_count (Stats.compute_stats h) = to_size (Z.of_nat (length h)).
Proof.
  unfold Stats.compute_stats. rewrite accumulate_spec. by destruct (_ || _).
Qed.

(** X8: [compute_stats] applied to the histogram of [distribution(ips)]
    reports the number of addresses as [sample_count] and the number of
    buckets of the configuration as [bucket_count]. *)
Theorem stats_of_distribution (cfg : Config.t) (ips : list Z) :
  Config.wf cfg -> Z.of_nat (length ips) < 2 ^ 64 ->
  Stats.sample_count (Stats.compute_stats (BucketEngine.distribution cfg ips))
    = Z.of_nat (length ips) /\
  Stats.bucket_count (Stats.compute_stats (BucketEngine.distribution cfg ips))
    = Config.bucket_count cfg.
Proof.
  intros (_ & _ & Hk) Hlen. unfold is_u32 in Hk.
  pose proof (bucket_count_range cfg ltac:(lia)) as Hm.
  destruct (compute_stats_counts (BucketEngine.distribution cfg ips)) as [-> ->].
  rewrite distribution_length, distribution_sum by done.
  rewrite Z.mod_small, to_size_small by lia. done.
Qed.

Lemma stats_of_distribution_witness :
  Stats.sample_count (Stats.compute_stats
     (BucketEngine.distribution (Config.mk 2654435761 2246822519 2) [0; 1; 42])) =
    Z.of_nat (length [0; 1; 42]) /\
  Stats.bucket_count (Stats.compute_stats
     (BucketEngine.distribution (Config.mk 2654435761 2246822519 2) [0; 1; 42]))
    = Config.bucket_count (Config.mk 2654435761 2246822519 2).
Proof.
  apply (stats_of_distribution (Config.mk 2654435761 2246822519 2) [0; 1; 42]).
  - unfold Config.wf, is_u32. simpl. lia.
  - simpl. lia.
Defined.

(** ** The affine map as a permutation *)

Lemma pow2_divide_odd (a : Z) (n : nat) (d : Z) :
  Z.odd a = true -> (2 ^ Z.of_nat n | a * d) -> (2 ^ Z.of_nat n | d).
Proof.
  intros Ha. revert d. induction n as [|n IH]; intros d Hd.
  - apply Z.divide_1_l.
  - rewrite Nat2Z.inj_succ, Z.pow_succ_r in * by lia.
    destruct Hd as [q Hq].
    apply Zodd_bool_iff in Ha as Ha'. apply Zodd_ex in Ha' as [t Ht].
    destruct (Zeven_odd_dec d) as [He|Ho].
    + apply Zeven_ex in He as [d' Hd'].
      destruct (IH d') as [r Hr].
      { exists q. nia. }
      exists r. nia.
    + apply Zodd_ex in Ho as [d' Hd']. exfalso. nia.
Qed.

(** The affine map is one-to-one on 32-bit values when the multiplier is
    odd. *)
Lemma affine_injective (a b x x' : Z) :
  Z.odd a = true -> 0 <= x < 2 ^ 32 -> 0 <= x' < 2 ^ 32 ->
  (a * x + b) mod 2 ^ 32 = (a * x' + b) mod 2 ^ 32 -> x = x'.
Proof.
  intros Ha Hx Hx' Heq.
  assert (Hdiv : (2 ^ 32 | a * (x - x'))).
  { replace (a * (x - x')) with ((a * x + b) - (a * x' + b)) by lia.
    apply Z.mod_divide; [lia|]. rewrite Zminus_mod, Heq, Z.sub_diag. done. }
  apply (pow2_divide_odd a 32) in Hdiv; [|done].
  destruct Hdiv as [q Hq]. change (2 ^ Z.of_nat 32) with (2 ^ 32) in Hq. nia.
Qed.

(** X9: with an odd multiplier and [k >= 32] no two 32-bit addresses share a
    bucket index. *)
Theorem bucket_index_injective (cfg : Config.t) (x x' : Z) :
  Config.wf cfg -> Z.odd (Config.a cfg) = true -> 32 <= Config.k cfg ->
  is_u32 x -> is_u32 x' -> x <> x' ->
  BucketEngine.bucket_index cfg x <> BucketEngine.bucket_index cfg x'.
Proof.
  intros Hwf Ha Hk Hx Hx' Hne. unfold BucketEngine.bucket_index. rewrite !affine_wrap.
  unfold BucketEngine.bucket_from_y.
  destruct (Z.eqb_spec (Config.k cfg) 0); [lia|].
  destruct (Z.leb_spec 32 (Config.k cfg)); [|lia].
  intros Heq. apply Hne. by apply (affine_injective (Config.a cfg) (Config.b cfg)).
Qed.

Lemma bucket_index_injective_witness :
  BucketEngine.bucket_index (Config.mk 2654435761 2246822519 32) 7 <>
  BucketEngine.bucket_index (Config.mk 2654435761 2246822519 32) 8.
Proof.
  apply (bucket_index_injective (Config.mk 2654435761 2246822519 32) 7 8).
  - unfold Config.wf, is_u32. simpl. lia.
  - reflexivity.
  - simpl. lia.
  - unfold is_u32. lia.
  - unfold is_u32. lia.
  - lia.
Defined.

(** X10: with an even multiplier two addresses [2^31] apart always share
    their bucket index, whatever [b] and [k] are: the constructor does not
    check the oddness its comment assumes. *)
Theorem bucket_index_even_collision (cfg : Config.t) (x : Z) :
  Z.even (Config.a cfg) = true ->
  BucketEngine.bucket_index cfg (x + 2 ^ 31) = BucketEngine.bucket_index cfg x.
Proof.
  intros Ha. unfold BucketEngine.bucket_index. rewrite !affine_wrap. f_equal.
  apply Zeven_bool_iff in Ha. apply Zeven_ex in Ha as [t Ht].
  replace (Config.a cfg * (x + 2 ^ 31) + Config.b cfg)
    with (Config.a cfg * x + Config.b cfg + t * 2 ^ 32) by (rewrite Ht; lia).
  apply Z.mod_add. lia.
Qed.

Lemma bucket_index_even_collision_witness :
  BucketEngine.bucket_index (Config.mk 2 5 32) (1 + 2 ^ 31) =
  BucketEngine.bucket_index (Config.mk 2 5 32) 1.
Proof. apply (bucket_index_even_collision (Config.mk 2 5 32) 1). reflexivity. Defined.

Lemma bucket_index_div (cfg : Config.t) (x : Z) :
  0 <= Config.k cfg < 2 ^ 32 ->
  BucketEngine.bucket_index cfg x =
    ((Config.a cfg * x + Config.b cfg) mod 2 ^ 32) / 2 ^ (32 - Z.min (Config.k cfg) 32).
Proof.
  intros Hk. unfold BucketEngine.bucket_index. rewrite affine_wrap.
  set (y := (Config.a cfg * x + Config.b cfg) mod 2 ^ 32).
  assert (Hy : 0 <= y < 2 ^ 32) by (apply Z.mod_pos_bound; lia).
  rewrite bucket_from_y_spec by done.
  destruct (Z.eqb_spec (Config.k cfg) 0) as [->|Hk0].
  - rewrite Z.min_l by lia. rewrite Z.sub_0_r. symmetry. apply Z.div_small. done.
  - destruct (Z.leb_spec 32 (Config.k cfg)).
    + rewrite Z.min_r by lia. rewrite Z.sub_diag. simpl. by rewrite Z.div_1_r.
    + rewrite Z.min_l by lia. apply Z.shiftr_div_pow2. lia.
Qed.

Lemma filter_fmap_length_Z (f : Z -> Z) (P Q : Z -> Prop)
    `{!forall y, Decision (P y)} `{!forall x, Decision (Q x)} (l : list Z) :
  (forall x, Q x <-> P (f x)) ->
  length (filter Q l) = length (filter P (f <$> l)).
Proof.
  intros HPQ. induction l as [|x l IH]; [done|].
  rewrite fmap_cons, !filter_cons.
  destruct (decide (Q x)) as [HQ|HQ], (decide (P (f x))) as [HP|HP]; simpl;
    try (by rewrite IH); exfalso; apply HPQ in HQ || apply HPQ in HP; done.
Qed.

(** The affine map with an odd multiplier permutes the 32-bit values. *)
Lemma affine_fmap_Permutation (a b : Z) :
  Z.odd a = true ->
  (fun x => (a * x + b) mod 2 ^ 32) <$> seqZ 0 (2 ^ 32) ≡ₚ seqZ 0 (2 ^ 32).
Proof.
  intros Ha. apply submseteq_length_Permutation.
  - apply NoDup_submseteq.
    + apply NoDup_fmap_2_strong; [|apply NoDup_seqZ].
      intros x y Hx%elem_of_seqZ Hy%elem_of_seqZ Hxy.
      apply (affine_injective a b); [done|lia|lia|done].
    + intros y Hy%list_elem_of_fmap. destruct Hy as (x & -> & _).
      apply elem_of_seqZ. pose proof (Z.mod_pos_bound (a * x + b) (2 ^ 32)). lia.
  - by rewrite length_fmap.
Qed.

Lemma filter_interval_length (lo w n : Z) (P : Z -> Prop) `{!forall y, Decision (P y)} :
  0 <= lo -> 0 <= w -> lo + w <= n ->
  (forall y, 0 <= y < n -> (P y <-> lo <= y < lo + w)) ->
  Z.of_nat (length (filter P (seqZ 0 n))) = w.
Proof.
  intros Hlo Hw Hn HP.
  assert (Hperm : filter P (seqZ 0 n) ≡ₚ seqZ lo w).
  { apply NoDup_Permutation.
    - apply NoDup_filter, NoDup_seqZ.
    - apply NoDup_seqZ.
    - intros y. rewrite list_elem_of_filter, !elem_of_seqZ. split.
      + intros [Hy Hin]. apply HP in Hy; lia.
      + intros Hy. split; [apply HP; lia|lia]. }
  rewrite Hperm, length_seqZ. lia.
Qed.

Lemma hits_full_space (cfg : Config.t) (i : Z) :
  Config.wf cfg -> Z.odd (Config.a cfg) = true ->
  0 <= i < Config.bucket_count cfg ->
  hits cfg i (seqZ 0 (2 ^ 32)) = 2 ^ (32 - Z.min (Config.k cfg) 32).
Proof.
  intros (Ha & Hb & Hk) Hodd Hi. unfold is_u32 in Hk.
  rewrite bucket_count_spec in Hi by lia.
  set (s := 32 - Z.min (Config.k cfg) 32) in *.
  set (f := fun x => (Config.a cfg * x + Config.b cfg) mod 2 ^ 32).
  unfold hits.
  rewrite (filter_fmap_length_Z f (fun y => y / 2 ^ s = i)
    (fun v => BucketEngine.bucket_index cfg v = i)).
  2:{ intros x. rewrite bucket_index_div by done. done. }
  unfold f. rewrite (affine_fmap_Permutation _ _ Hodd).
  assert (Hs : 0 <= s <= 32) by lia.
  assert (Hpow : 2 ^ 32 = 2 ^ s * 2 ^ Z.min (Config.k cfg) 32).
  { rewrite <- Z.pow_add_r by lia. f_equal. lia. }
  assert (H2s : 0 < 2 ^ s) by (apply Z.pow_pos_nonneg; lia).
  apply (filter_interval_length (i * 2 ^ s)); [nia|lia|nia|].
  intros y Hy. split.
  - intros <-. pose proof (Z.mul_div_le y (2 ^ s) H2s).
    pose proof (Z.mul_succ_div_gt y (2 ^ s) H2s). lia.
  - intros Hyi. symmetry. apply (Z.div_unique y (2 ^ s) i (y - i * 2 ^ s)); lia.
Qed.

(** X11: with an odd multiplier the 2^32 addresses spread perfectly: every
    bucket receives the same number of them, [2^(32 - k)] for [k <= 32] (and
    one each for [k >= 32]). *)
Theorem full_space_equidistributed (cfg : Config.t) (i : Z) :
  Config.wf cfg -> Z.odd (Config.a cfg) = true ->
  0 <= i < Config.bucket_count cfg ->
  hits cfg i (seqZ 0 (2 ^ 32)) = 2 ^ (32 - Z.min (Config.k cfg) 32).
Proof. apply hits_full_space. Qed.

Lemma full_space_equidistributed_witness :
  hits (Config.mk 2654435761 2246822519 12) 5 (seqZ 0 (2 ^ 32)) =
    2 ^ (32 - Z.min (Config.k (Config.mk 2654435761 2246822519 12)) 32).
Proof.
  apply (full_space_equidistributed (Config.mk 2654435761 2246822519 12) 5).
  - unfold Config.wf, is_u32. simpl. lia.
  - reflexivity.
  - split; [lia|reflexivity].
Defined.

(** ** Exact conversions and quotients *)

Section Exact.
Variables prec emax : Z.
Hypothesis Hprec : 0 < prec.
Hypothesis Hemax : 3 <= emax.
Hypothesis Hpe : prec <= emax.

Local Abbreviation fexp := (SpecFloat.fexp prec emax).
Local Abbreviation emin := (SpecFloat.emin prec emax).
Local Abbreviation canon := (canonical prec emax).

Lemma bra_exact (s : bool) (m e M E : Z) :
  0 < m -> e <= fexp (Zdigits2 m + e) ->
  0 < M -> canon M E -> E <= emax - prec ->
  vle m e M E -> vle M E m e ->
  binary_round_aux prec emax s m e loc_Exact = S754_finite s (Z.to_pos M) E.
Proof.
  intros Hm He HM HC HE H1 H2.
  pose proof (vle_digits _ _ _ _ Hm HM H1) as Hd1.
  pose proof (vle_digits _ _ _ _ HM Hm H2) as Hd2.
  assert (Hd : Zdigits2 m + e = Zdigits2 M + E) by lia.
  destruct (bra_spec prec emax Hprec s m e loc_Exact Hm He) as (m2 & _ & _ & _ & Hex & ->).
  rewrite Hd in *. unfold canonical in HC. rewrite HC in *.
  destruct (canon_facts prec emax Hprec M E HM HC) as (_ & _ & HMlt & _).
  apply (vle_base e) in H1; [|lia..]. apply (vle_base e) in H2; [|lia..].
  rewrite Z.sub_diag in *. change (2 ^ 0) with 1 in *.
  assert (HmM : m = M * 2 ^ (E - e)) by lia.
  assert (Hp : 0 < 2 ^ (E - e)) by pow_pos.
  rewrite (Hex eq_refl) by (rewrite HmM; apply Z.mod_mul; lia).
  rewrite HmM, Z.div_mul by lia.
  unfold renorm. destruct (Z.ltb_spec M (2 ^ prec)); [|lia]. cbn [fst snd].
  unfold finish. destruct M as [|p|p]; try lia.
  destruct (Z.leb_spec E (emax - prec)); [done|lia].
Qed.

Lemma binary_round_exact (s : bool) (mx : positive) (ex M E : Z) :
  0 < M -> canon M E -> E <= emax - prec ->
  vle (Zpos mx) ex M E -> vle M E (Zpos mx) ex ->
  binary_round prec emax s mx ex = S754_finite s (Z.to_pos M) E.
Proof.
  intros HM HC HE H1 H2.
  destruct (binary_round_unfold prec emax s mx ex) as (mz & ez & -> & Hmz & He & Hez & Heq).
  apply bra_exact; try done.
  - rewrite Heq. replace ez with (ex - (ex - ez)) at 2 by lia.
    apply vle_shift_l; [lia|done].
  - rewrite Heq. replace ez with (ex - (ex - ez)) at 2 by lia.
    apply vle_shift_r; [lia|done].
Qed.

Lemma int_canon (v : Z) :
  0 < v < 2 ^ prec ->
  0 < int_mant prec v /\ canon (int_mant prec v) (int_exp prec v) /\
  int_exp prec v <= 0 /\ emin <= int_exp prec v /\
  Zdigits2 (int_mant prec v) = prec /\
  int_mant prec v = v * 2 ^ (- int_exp prec v).
Proof.
  intros Hv. unfold int_mant, int_exp.
  destruct (Zdigits2_bounds v ltac:(lia)) as (Hd & Hlo & Hhi).
  assert (Hdle : Zdigits2 v <= prec) by (apply Zdigits2_le; lia).
  assert (Hp : 0 < 2 ^ (prec - Zdigits2 v)) by pow_pos.
  assert (Hdig : Zdigits2 (v * 2 ^ (prec - Zdigits2 v)) = prec).
  { rewrite Zdigits2_mul_pow2 by lia. lia. }
  split; [nia|]. split.
  - unfold canonical. rewrite Hdig. unfold SpecFloat.fexp, SpecFloat.emin. lia.
  - split; [lia|]. split; [unfold SpecFloat.emin; lia|]. split; [done|].
    f_equal. f_equal. lia.
Qed.

(** An integer of at most [prec] bits converts exactly. *)
Lemma of_Z_exact (v : Z) :
  0 < v < 2 ^ prec ->
  binary_normalize prec emax v 0 false =
    S754_finite false (Z.to_pos (int_mant prec v)) (int_exp prec v).
Proof.
  intros Hv. destruct (int_canon v Hv) as (HM & HC & HE & Hemin & _ & Heq).
  destruct v as [|p|p]; try lia. cbn [binary_normalize].
  set (M := int_mant prec (Zpos p)) in *. set (E := int_exp prec (Zpos p)) in *.
  apply binary_round_exact; try done; try lia.
  - apply (vle_base E); [lia|lia|]. rewrite Z.sub_diag, Z.sub_0_l. change (2 ^ 0) with 1. lia.
  - apply (vle_base E); [lia|lia|]. rewrite Z.sub_diag, Z.sub_0_l. change (2 ^ 0) with 1. lia.
Qed.

Lemma div_core_loc (m1 m2 : positive) (e1 e2 : Z) :
  let e' := Z.min (fexp (Zdigits2 (Zpos m1) + e1 - (Zdigits2 (Zpos m2) + e2))) (e1 - e2) in
  (Zpos m1 * 2 ^ (e1 - e2 - e')) mod Zpos m2 = 0 ->
  snd (SFdiv_core_binary prec emax (Zpos m1) e1 (Zpos m2) e2) = loc_Exact.
Proof.
  intros e' Hmod. unfold SFdiv_core_binary. fold e'.
  set (s := e1 - e2 - e') in *. assert (Hs : 0 <= s) by (unfold s, e'; lia).
  set (m' := match s with Zpos _ => Z.shiftl (Zpos m1) s | Z0 => Zpos m1 | Zneg _ => 0 end).
  assert (Hm' : m' = Zpos m1 * 2 ^ s).
  { unfold m'. destruct s as [|p|p] eqn:Hsp; [simpl; lia| |lia].
    rewrite Z.shiftl_mul_pow2 by lia. done. }
  assert (Hr : snd (Z.div_eucl m' (Zpos m2)) = m' mod Zpos m2) by done.
  destruct (Z.div_eucl m' (Zpos m2)) as [q r]. cbn [snd] in *.
  rewrite Hr, Hm', Hmod. unfold new_location, new_location_even, new_location_odd.
  by destruct (Z.even (Zpos m2)).
Qed.

(** The quotient of two integers of at most [prec] bits, one a multiple of
    the other, is exact. *)
Lemma SFdiv_int_exact (c m : Z) :
  0 < c -> 0 < m -> m * c < 2 ^ prec ->
  SFdiv prec emax
    (S754_finite false (Z.to_pos (int_mant prec (m * c))) (int_exp prec (m * c)))
    (S754_finite false (Z.to_pos (int_mant prec m)) (int_exp prec m)) =
  S754_finite false (Z.to_pos (int_mant prec c)) (int_exp prec c).
Proof.
  intros Hc Hm Hmc.
  assert (Hm' : 0 < m < 2 ^ prec) by nia.
  assert (Hc' : 0 < c < 2 ^ prec) by nia.
  assert (Hn' : 0 < m * c < 2 ^ prec) by nia.
  destruct (int_canon _ Hn') as (HM1 & HC1 & HE1 & Hemin1 & Hd1 & Heq1).
  destruct (int_canon _ Hm') as (HM2 & HC2 & HE2 & Hemin2 & Hd2 & Heq2).
  destruct (int_canon _ Hc') as (HM3 & HC3 & HE3 & Hemin3 & Hd3 & Heq3).
  set (M1 := int_mant prec (m * c)) in *. set (E1 := int_exp prec (m * c)) in *.
  set (M2 := int_mant prec m) in *. set (E2 := int_exp prec m) in *.
  set (M3 := int_mant prec c) in *. set (E3 := int_exp prec c) in *.
  cbn [SFdiv]. change (xorb false false) with false.
  pose proof (div_core_spec prec emax (Z.to_pos M1) (Z.to_pos M2) E1 E2) as Hspec.
  pose proof (div_core_loc (Z.to_pos M1) (Z.to_pos M2) E1 E2) as Hloc.
  rewrite !Z2Pos.id in Hspec, Hloc by lia. rewrite !Z2Pos.id by lia.
  rewrite Hd1, Hd2 in Hspec, Hloc.
  replace (prec + E1 - (prec + E2)) with (E1 - E2) in Hspec, Hloc by lia.
  (* the digit counts *)
  assert (HD0 : 0 <= E1 - E2).
  { unfold E1, E2, int_exp.
    assert (Zdigits2 m <= Zdigits2 (m * c)); [|lia].
    destruct (Zdigits2_bounds m ltac:(lia)) as (? & ? & ?).
    apply Zdigits2_ge; [lia|nia]. }
  assert (HDc : E1 - E2 <= Zdigits2 c).
  { unfold E1, E2, int_exp.
    assert (Zdigits2 (m * c) <= Zdigits2 m + Zdigits2 c); [|lia].
    destruct (Zdigits2_bounds m ltac:(lia)) as (? & ? & ?).
    destruct (Zdigits2_bounds c ltac:(lia)) as (? & ? & ?).
    apply Zdigits2_le; [lia|]. rewrite Z.pow_add_r by lia. nia. }
  assert (Hdc : Zdigits2 c <= prec) by (apply Zdigits2_le; lia).
  set (e' := Z.min (fexp (E1 - E2)) (E1 - E2)) in *.
  assert (He' : e' = E1 - E2 - prec).
  { unfold e', SpecFloat.fexp, SpecFloat.emin. lia. }
  assert (Hquot : M1 * 2 ^ (E1 - E2 - e') = (c * 2 ^ (- e')) * M2).
  { rewrite Heq1, Heq2, He'.
    replace (E1 - E2 - (E1 - E2 - prec)) with prec by lia.
    replace (- (E1 - E2 - prec)) with (prec - E1 + E2) by lia.
    replace (m * c * 2 ^ (- E1) * 2 ^ prec) with (c * m * (2 ^ (- E1) * 2 ^ prec)) by lia.
    replace (c * 2 ^ (prec - E1 + E2) * (m * 2 ^ (- E2)))
      with (c * m * (2 ^ (prec - E1 + E2) * 2 ^ (- E2))) by lia.
    rewrite <- (Z.pow_add_r 2 (- E1) prec) by lia.
    rewrite <- (Z.pow_add_r 2 (prec - E1 + E2) (- E2)) by lia.
    do 2 f_equal. lia. }
  assert (HE3' : E3 = Zdigits2 c - prec) by done.
  assert (Hp : 0 < 2 ^ (- e')) by pow_pos.
  specialize (Hloc ltac:(rewrite Hquot; apply Z.mod_mul; lia)).
  destruct (SFdiv_core_binary prec emax M1 E1 M2 E2) as [[q e''] l].
  cbn [snd] in Hloc. subst l.
  destruct Hspec as (-> & -> & _ & Hq).
  fold e' in Hq |- *. rewrite Hquot, Z.div_mul in Hq |- * by lia.
  destruct (Hq ltac:(nia)) as [Hfe _].
  assert (HM3e : M3 * 2 ^ (E3 - e') = c * 2 ^ (- e')).
  { rewrite Heq3, <- Z.mul_assoc, <- (Z.pow_add_r 2 (- E3) (E3 - e')) by lia.
    do 2 f_equal. lia. }
  apply bra_exact; try done; try lia; try nia.
  - apply (vle_base e'); [lia|lia|]. rewrite Z.sub_diag, HM3e. change (2 ^ 0) with 1. lia.
  - apply (vle_base e'); [lia|lia|]. rewrite Z.sub_diag, HM3e. change (2 ^ 0) with 1. lia.
Qed.

End Exact.

(** ** A histogram of equal counts *)

Lemma d_of_Z_exact (v : Z) :
  0 < v < 2 ^ 53 ->
  d_of_Z v = S754_finite false (Z.to_pos (int_mant dprec v)) (int_exp dprec v).
Proof. intros Hv. by apply of_Z_exact. Qed.

Lemma ld_of_Z_exact (v : Z) :
  0 < v < 2 ^ 53 ->
  ld_of_Z v = S754_finite false (Z.to_pos (int_mant lprec v)) (int_exp lprec v).
Proof.
  intros Hv. apply of_Z_exact; try done.
  assert (2 ^ 53 < 2 ^ lprec) by done. lia.
Qed.

(** Widening the [double] of an integer gives the [long double] of that
    integer. *)
Lemma ld_of_d_of_Z (v : Z) : 0 < v < 2 ^ 53 -> ld_of_d (d_of_Z v) = ld_of_Z v.
Proof.
  intros Hv. rewrite d_of_Z_exact, ld_of_Z_exact by done. unfold ld_of_d.
  assert (Hv' : 0 < v < 2 ^ lprec) by (assert (2 ^ 53 < 2 ^ lprec) by done; lia).
  destruct (int_canon dprec demax dprec_pos ltac:(done) v Hv) as (HM & _ & HE & _ & _ & Heq).
  destruct (int_canon lprec lemax lprec_pos ltac:(done) v Hv') as (HM' & HC' & HE' & _ & _ & Heq').
  assert (Hee : int_exp lprec v <= int_exp dprec v) by (unfold int_exp, lprec, dprec; lia).
  assert (Hval : int_mant dprec v * 2 ^ (int_exp dprec v - int_exp lprec v) = int_mant lprec v).
  { rewrite Heq, Heq', <- Z.mul_assoc.
    rewrite <- (Z.pow_add_r 2 (- int_exp dprec v) (int_exp dprec v - int_exp lprec v)) by lia.
    do 2 f_equal. lia. }
  apply binary_round_exact; try done.
  - assert (0 <= lemax - lprec) by done. lia.
  - rewrite Z2Pos.id by lia. apply (vle_base (int_exp lprec v)); [lia|lia|].
    rewrite Z.sub_diag, Hval. lia.
  - rewrite Z2Pos.id by lia. apply (vle_base (int_exp lprec v)); [lia|lia|].
    rewrite Z.sub_diag, Hval. lia.
Qed.

Lemma SFsub_diag (prec emax : Z) (s : bool) (m : positive) (e : Z) :
  SFsub prec emax (S754_finite s m e) (S754_finite s m e) = S754_zero false.
Proof. cbn [SFsub]. by rewrite Z.sub_diag. Qed.

Lemma acc_step_flat (c : Z) :
  0 < c < 2 ^ 53 -> Stats.acc_step (d_of_Z c) zero c = zero.
Proof.
  intros Hc. unfold Stats.acc_step. rewrite ld_of_d_of_Z by done.
  rewrite ld_of_Z_exact by done. unfold lsub. rewrite SFsub_diag. done.
Qed.

Lemma chi_step_flat (c : Z) :
  0 < c < 2 ^ 53 -> Stats.chi_step (d_of_Z c) zero c = zero.
Proof.
  intros Hc. unfold Stats.chi_step. rewrite ld_of_d_of_Z by done.
  rewrite ld_of_Z_exact by done. unfold lsub. rewrite SFsub_diag. done.
Qed.

Lemma sum_counts_replicate_const (n : nat) (c : Z) :
  sum_counts (replicate n c) = Z.of_nat n * c.
Proof.
  induction n as [|n IH]; [done|].
  change (sum_counts (replicate (S n) c)) with (c + sum_counts (replicate n c)).
  rewrite IH. lia.
Qed.

Lemma fold_left_fixed {A B : Type} (f : A -> B -> A) (a : A) (b : B) (n : nat) :
  f a b = a -> fold_left f (replicate n b) a = a.
Proof. intros H. induction n as [|n IH]; [done|]. simpl. by rewrite H. Qed.

Lemma minmax_from_replicate (c : Z) (n : nat) :
  Stats.minmax_from c c (replicate n c) = (c, c).
Proof. induction n as [|n IH]; [done|]. simpl. by rewrite Z.ltb_irrefl. Qed.

Lemma uniformity_flat (c : Z) (n : nat) :
  0 < c < 2 ^ 53 -> (0 < n)%nat ->
  Stats.uniformity_of (d_of_Z c) (replicate n c) = hundred.
Proof.
  intros Hc Hn. unfold Stats.uniformity_of.
  destruct n as [|n]; [lia|]. cbn [replicate Stats.minmax_element].
  rewrite minmax_from_replicate.
  rewrite d_of_Z_exact by done. unfold dsub. rewrite SFsub_diag. done.
Qed.

Lemma compute_stats_replicate (m : nat) (c : Z) :
  (0 < m)%nat -> 0 < c -> Z.of_nat m * c < 2 ^ 53 ->
  Stats.compute_stats (replicate m c) =
    Stats.mkStats (Z.of_nat m * c) (Z.of_nat m) (d_of_Z c) zero zero hundred.
Proof.
  intros Hm Hc Hmc.
  assert (Hc' : 0 < c < 2 ^ 53) by nia.
  assert (Hm' : 0 < Z.of_nat m < 2 ^ 53) by nia.
  assert (H5364 : 2 ^ 53 < 2 ^ 64) by done.
  unfold Stats.compute_stats.
  rewrite length_replicate, accumulate_spec, sum_counts_replicate_const.
  rewrite (to_size_small (Z.of_nat m)) by lia.
  rewrite (Z.mod_small (Z.of_nat m * c)) by nia.
  destruct (Z.eqb_spec (Z.of_nat m) 0); [lia|].
  destruct (Z.eqb_spec (Z.of_nat m * c) 0); [nia|]. cbn [orb].
  assert (Hmean : ddiv (d_of_Z (Z.of_nat m * c)) (d_of_Z (Z.of_nat m)) = d_of_Z c).
  { rewrite !d_of_Z_exact by nia. unfold ddiv.
    apply SFdiv_int_exact; [done|done|done|lia|lia|exact Hmc]. }
  rewrite Hmean.
  rewrite (fold_left_fixed _ _ _ _ (acc_step_flat c Hc')).
  rewrite (fold_left_fixed _ _ _ _ (chi_step_flat c Hc')).
  rewrite uniformity_flat by done.
  rewrite ld_of_Z_exact by done. done.
Qed.

(** X12: a non-empty histogram whose buckets all hold the same count [c > 0]
    has mean exactly [c], standard deviation and chi-square exactly [+0.0]
    and uniformity exactly [100.0], as long as the sample count stays below
    [2^53]: no rounding error enters anywhere. *)
Theorem compute_stats_flat (h : list Z) (c : Z) :
  h <> [] -> Forall (fun x => x = c) h -> 0 < c -> Z.of_nat (length h) * c < 2 ^ 53 ->
  Stats.compute_stats h =
    Stats.mkStats (Z.of_nat (length h) * c) (Z.of_nat (length h)) (d_of_Z c)
      zero zero hundred.
Proof.
  intros Hne Hall Hc Hlen.
  assert (Hrep : h = replicate (length h) c).
  { clear Hne Hlen. induction Hall as [|x h -> _ IH]; [done|].
    cbn [length replicate]. by rewrite <- IH. }
  rewrite Hrep at 1. apply compute_stats_replicate; [|done|done].
  destruct h; [done|]. cbn [length]. lia.
Qed.

Lemma compute_stats_flat_witness :
  Stats.compute_stats [8; 8; 8; 8] =
    Stats.mkStats (Z.of_nat (length [8; 8; 8; 8]) * 8) (Z.of_nat (length [8; 8; 8; 8]))
      (d_of_Z 8) zero zero hundred.
Proof.
  apply (compute_stats_flat [8; 8; 8; 8] 8); [done|by repeat constructor|lia|reflexivity].
Defined.

(** X24: the whole address space through an odd multiplier: the histogram
    of the 2^32 addresses is flat, and [compute_stats] reports 2^32 samples,
    a mean of exactly [2^(32 - k)] per bucket ([k <= 32]), standard deviation
    and chi-square [+0.0] and a uniformity of exactly [100.0]. *)
Theorem full_space_stats (cfg : Config.t) :
  Config.wf cfg -> Z.odd (Config.a cfg) = true ->
  BucketEngine.distribution cfg (seqZ 0 (2 ^ 32)) =
    replicate (Z.to_nat (Config.bucket_count cfg)) (2 ^ (32 - Z.min (Config.k cfg) 32)) /\
  Stats.compute_stats (BucketEngine.distribution cfg (seqZ 0 (2 ^ 32))) =
    Stats.mkStats (2 ^ 32) (Config.bucket_count cfg)
      (d_of_Z (2 ^ (32 - Z.min (Config.k cfg) 32))) zero zero hundred.
Proof.
  intros Hwf Hodd. pose proof Hwf as (_ & _ & Hk). unfold is_u32 in Hk.
  pose proof (bucket_count_range cfg ltac:(lia)) as Hm.
  pose proof (bucket_count_spec cfg ltac:(lia)) as Hmk.
  set (c := 2 ^ (32 - Z.min (Config.k cfg) 32)).
  assert (Hc : 0 < c) by (apply Z.pow_pos_nonneg; lia).
  assert (Hmc : Config.bucket_count cfg * c = 2 ^ 32).
  { rewrite Hmk. unfold c. rewrite <- Z.pow_add_r by lia. f_equal. lia. }
  assert (H3264 : 2 ^ 32 < 2 ^ 53) by reflexivity.
  assert (Hflat : BucketEngine.distribution cfg (seqZ 0 (2 ^ 32)) =
                  replicate (Z.to_nat (Config.bucket_count cfg)) c).
  { rewrite distribution_closed_form; [|done|rewrite length_seqZ; lia].
    rewrite <- (length_seqZ 0 (Config.bucket_count cfg)).
    rewrite <- (const_fmap (fun _ : Z => c)) by done.
    apply list_fmap_ext. intros n i Hi. apply lookup_seqZ in Hi as [-> Hn].
    apply hits_full_space; [done|done|lia]. }
  split; [exact Hflat|].
  rewrite Hflat, compute_stats_replicate; [|lia|done|rewrite Z2Nat.id by lia; lia].
  rewrite Z2Nat.id by lia. by rewrite Hmc.
Qed.

Lemma full_space_stats_witness :
  BucketEngine.distribution (Config.mk 0x9E3779B1 0x85EBCA77 12) (seqZ 0 (2 ^ 32)) =
    replicate (Z.to_nat (Config.bucket_count (Config.mk 0x9E3779B1 0x85EBCA77 12)))
      (2 ^ (32 - Z.min (Config.k (Config.mk 0x9E3779B1 0x85EBCA77 12)) 32)) /\
  Stats.compute_stats
      (BucketEngine.distribution (Config.mk 0x9E3779B1 0x85EBCA77 12) (seqZ 0 (2 ^ 32))) =
    Stats.mkStats (2 ^ 32) (Config.bucket_count (Config.mk 0x9E3779B1 0x85EBCA77 12))
      (d_of_Z (2 ^ (32 - Z.min (Config.k (Config.mk 0x9E3779B1 0x85EBCA77 12)) 32)))
      zero zero hundred.
Proof.
  apply (full_space_stats (Config.mk 0x9E3779B1 0x85EBCA77 12)).
  - unfold Config.wf, is_u32. simpl. lia.
  - reflexivity.
Defined.

(** ** Dotted quads *)

Lemma lor_add_disjoint (hi lo n : Z) :
  0 <= n -> 0 <= lo < 2 ^ n -> Z.lor (hi * 2 ^ n) lo = hi * 2 ^ n + lo.
Proof.
  intros Hn Hlo.
  assert (Hland : Z.land (hi * 2 ^ n) lo = 0).
  { apply Z.bits_inj'. intros i Hi. rewrite Z.land_spec, Z.bits_0.
    destruct (Z_lt_le_dec i n) as [Hlt|Hge].
    - rewrite Z.mul_pow2_bits_low by lia. done.
    - rewrite <- (Z.mod_small lo (2 ^ n)) by lia.
      rewrite Z.mod_pow2_bits_high by lia. apply andb_false_r. }
  rewrite <- Z.lxor_lor by done. symmetry. apply Z.add_nocarry_lxor. done.
Qed.

Lemma quad_lor (o0 o1 o2 o3 : Z) :
  0 <= o0 <= 255 -> 0 <= o1 <= 255 -> 0 <= o2 <= 255 -> 0 <= o3 <= 255 ->
  Z.lor (Z.lor (Z.lor (to_u32 (Z.shiftl (to_u32 o0) 24)) (to_u32 (Z.shiftl (to_u32 o1) 16)))
               (to_u32 (Z.shiftl (to_u32 o2) 8))) (to_u32 o3) = quad o0 o1 o2 o3.
Proof.
  intros H0 H1 H2 H3. unfold quad.
  rewrite !(to_u32_small o0), !(to_u32_small o1), !(to_u32_small o2), !(to_u32_small o3) by lia.
  rewrite !Z.shiftl_mul_pow2 by lia.
  rewrite !to_u32_small by lia.
  rewrite (lor_add_disjoint o0 (o1 * 2 ^ 16) 24) by lia.
  replace (o0 * 2 ^ 24 + o1 * 2 ^ 16) with ((o0 * 2 ^ 8 + o1) * 2 ^ 16) by lia.
  rewrite (lor_add_disjoint _ (o2 * 2 ^ 8) 16) by lia.
  replace ((o0 * 2 ^ 8 + o1) * 2 ^ 16 + o2 * 2 ^ 8)
    with (((o0 * 2 ^ 8 + o1) * 2 ^ 8 + o2) * 2 ^ 8) by lia.
  rewrite (lor_add_disjoint _ o3 8) by lia. lia.
Qed.

Lemma quad_range (o0 o1 o2 o3 : Z) :
  0 <= o0 <= 255 -> 0 <= o1 <= 255 -> 0 <= o2 <= 255 -> 0 <= o3 <= 255 ->
  0 <= quad o0 o1 o2 o3 < 2 ^ 32.
Proof. unfold quad. lia. Qed.

Lemma read_digits_nonneg (s : string) (acc : option Z) (v : Z) :
  0 <= default 0 acc -> Utils.read_digits acc s = Some v -> 0 <= v.
Proof.
  revert acc. induction s as [|c s IH]; intros acc Hacc; simpl.
  - intros ->. done.
  - unfold Utils.digit_val.
    destruct (_ && _) eqn:Hd.
    + apply IH. simpl. apply andb_prop in Hd as [?%Z.leb_le ?]. lia.
    + intros ->. done.
Qed.

Lemma stoull_range (t : string) (v : Z) : Utils.stoull t = Some v -> 0 <= v < 2 ^ 64.
Proof.
  unfold Utils.stoull.
  set (p := match Utils.skip_space t with String c r => _ | EmptyString => _ end).
  destruct p as [neg s].
  destruct (Utils.read_digits None s) as [d|] eqn:Hd; [|done].
  apply read_digits_nonneg in Hd; [|done].
  destruct (Z.ltb_spec (2 ^ 64 - 1) d); [done|].
  intros [= <-]. destruct neg; [|lia].
  unfold to_u64. apply Z.mod_pos_bound. lia.
Qed.

Lemma fold_parse_step_None (l : list string) : fold_left Utils.parse_step l None = None.
Proof. by induction l. Qed.

Lemma parse_step_Some (st : option (Z * list Z)) (t : string) (idx' : Z) (parts' : list Z) :
  Utils.parse_step st t = Some (idx', parts') ->
  exists idx parts o, st = Some (idx, parts) /\ idx < 4 /\ octet_of t o /\ 0 <= o /\
    idx' = idx + 1 /\ parts' = <[Z.to_nat idx := to_u32 o]> parts.
Proof.
  unfold Utils.parse_step. destruct st as [[idx parts]|]; [|done].
  destruct (Z.leb_spec 4 idx); [done|].
  destruct (String.eqb_spec t EmptyString); [done|].
  destruct (Utils.stoull t) as [v|] eqn:Hv; [|done].
  destruct (Z.ltb_spec 255 v); [done|].
  intros [= <- <-]. exists idx, parts, v. pose proof (stoull_range _ _ Hv).
  unfold octet_of. repeat split; try done; lia.
Qed.

Lemma parse_step_octet (idx : Z) (parts : list Z) (t : string) (o : Z) :
  idx < 4 -> octet_of t o ->
  Utils.parse_step (Some (idx, parts)) t = Some (idx + 1, <[Z.to_nat idx := to_u32 o]> parts).
Proof.
  intros Hidx (Ht & Hv & Ho). unfold Utils.parse_step.
  destruct (Z.leb_spec 4 idx); [lia|].
  destruct (String.eqb_spec t EmptyString); [done|].
  rewrite Hv. destruct (Z.ltb_spec 255 o); [lia|done].
Qed.

Lemma fold_parse_step_idx (l : list string) (idx idx' : Z) (parts parts' : list Z) :
  fold_left Utils.parse_step l (Some (idx, parts)) = Some (idx', parts') ->
  idx' = idx + Z.of_nat (length l).
Proof.
  revert idx parts. induction l as [|t l IH]; intros idx parts; cbn [fold_left length].
  - intros [= <- <-]. lia.
  - destruct (Utils.parse_step (Some (idx, parts)) t) as [[i p]|] eqn:Hstep.
    + apply parse_step_Some in Hstep as (i0 & p0 & o & [= <- <-] & _ & _ & _ & -> & _).
      intros H%IH. lia.
    + by rewrite fold_parse_step_None.
Qed.

Lemma parse_ipv4_sound (s : string) (v : Z) :
  Utils.parse_ipv4 s = Some v ->
  exists t0 t1 t2 t3 o0 o1 o2 o3,
    Utils.getline_tokens s = [t0; t1; t2; t3] /\
    octet_of t0 o0 /\ octet_of t1 o1 /\ octet_of t2 o2 /\ octet_of t3 o3 /\
    v = quad o0 o1 o2 o3 /\ is_u32 v.
Proof.
  unfold Utils.parse_ipv4.
  destruct (fold_left _ _ _) as [[idx parts]|] eqn:Hfold; [|done].
  pose proof (fold_parse_step_idx _ _ _ _ _ Hfold) as Hidx.
  destruct parts as [|p0 [|p1 [|p2 [|p3 [|]]]]]; try done.
  destruct (Z.eqb_spec idx 4) as [->|]; [|done]. cbn [negb].
  destruct (Utils.getline_tokens s) as [|t0 [|t1 [|t2 [|t3 [|]]]]]; simpl in Hidx; try lia.
  cbn [fold_left] in Hfold.
  destruct (Utils.parse_step (Utils.parse_step (Utils.parse_step _ t0) t1) t2)
    as [[i3 q3]|] eqn:H3; [|done].
  apply parse_step_Some in Hfold as (i & q & o3 & [= <- <-] & _ & Ho3 & Hp3 & Hi3 & Hq3).
  apply parse_step_Some in H3 as (i2 & q2 & o2 & H2 & _ & Ho2 & Hp2 & -> & ->).
  apply parse_step_Some in H2 as (i1 & q1 & o1 & H1 & _ & Ho1 & Hp1 & -> & ->).
  apply parse_step_Some in H1 as (i0 & q0 & o0 & [= <- <-] & _ & Ho0 & Hp0 & -> & ->).
  simpl in Hq3. injection Hq3 as -> -> -> ->.
  intros [= <-]. exists t0, t1, t2, t3, o0, o1, o2, o3.
  pose proof Ho0 as (_ & _ & ?). pose proof Ho1 as (_ & _ & ?).
  pose proof Ho2 as (_ & _ & ?). pose proof Ho3 as (_ & _ & ?).
  split_and!; try done.
  - apply quad_lor; lia.
  - rewrite quad_lor by lia. apply quad_range; lia.
Qed.

Lemma parse_ipv4_complete (s : string) (t0 t1 t2 t3 : string) (o0 o1 o2 o3 : Z) :
  Utils.getline_tokens s = [t0; t1; t2; t3] ->
  octet_of t0 o0 -> octet_of t1 o1 -> octet_of t2 o2 -> octet_of t3 o3 ->
  Utils.parse_ipv4 s = Some (quad o0 o1 o2 o3).
Proof.
  intros Htok H0 H1 H2 H3. unfold Utils.parse_ipv4. rewrite Htok.
  cbn [fold_left].
  rewrite (parse_step_octet 0 _ t0 o0) by done.
  rewrite (parse_step_octet (0 + 1) _ t1 o1) by done.
  rewrite (parse_step_octet (0 + 1 + 1) _ t2 o2) by done.
  rewrite (parse_step_octet (0 + 1 + 1 + 1) _ t3 o3) by done.
  simpl. f_equal.
  destruct H0 as (_ & H0 & ?), H1 as (_ & H1 & ?), H2 as (_ & H2 & ?), H3 as (_ & H3 & ?).
  apply stoull_range in H0, H1, H2, H3.
  apply quad_lor; lia.
Qed.

(** ** [parse_ipv4]: what is accepted, and with which value *)

(** X13: [parse_ipv4] accepts a string exactly when [std::getline] splits it
    into four non-empty tokens that [std::stoull] each reads as a number of
    at most 255, and the result is the address with these four octets, a
    32-bit value. *)
Theorem parse_ipv4_spec (s : string) (v : Z) :
  Utils.parse_ipv4 s = Some v <->
  exists t0 t1 t2 t3 o0 o1 o2 o3,
    Utils.getline_tokens s = [t0; t1; t2; t3] /\
    octet_of t0 o0 /\ octet_of t1 o1 /\ octet_of t2 o2 /\ octet_of t3 o3 /\
    v = quad o0 o1 o2 o3 /\ is_u32 v.
Proof.
  split; [apply parse_ipv4_sound|].
  intros (t0 & t1 & t2 & t3 & o0 & o1 & o2 & o3 & Htok & H0 & H1 & H2 & H3 & -> & _).
  by apply (parse_ipv4_complete s t0 t1 t2 t3).
Qed.

Lemma is_digit_val (c : ascii) :
  is_digit c = true -> Utils.digit_val c = Some (Z.of_nat (nat_of_ascii c) - 48).
Proof. unfold is_digit, Utils.digit_val. by intros ->. Qed.

Lemma is_digit_not_dot (c : ascii) : is_digit c = true -> Ascii.eqb c "."%char = false.
Proof.
  intros Hd. destruct (Ascii.eqb_spec c "."%char) as [->|]; [|done]. discriminate Hd.
Qed.

Lemma is_digit_not_space (c : ascii) : is_digit c = true -> Utils.isspace c = false.
Proof.
  unfold is_digit, Utils.isspace. intros [H1%Z.leb_le H2]%andb_prop.
  destruct (Z.eqb_spec (Z.of_nat (nat_of_ascii c)) 32); [lia|].
  destruct (Z.leb_spec (Z.of_nat (nat_of_ascii c)) 13); [lia|]. by rewrite andb_false_r.
Qed.

Lemma is_digit_not_sign (c : ascii) :
  is_digit c = true -> Ascii.eqb c "-"%char = false /\ Ascii.eqb c "+"%char = false.
Proof.
  intros Hd. split.
  - destruct (Ascii.eqb_spec c "-"%char) as [->|]; [discriminate Hd|done].
  - destruct (Ascii.eqb_spec c "+"%char) as [->|]; [discriminate Hd|done].
Qed.

Lemma dec_value_nonneg (s : string) : all_digits s = true -> 0 <= dec_value s.
Proof.
  induction s as [|c s IH]; [done|]. cbn [all_digits dec_value].
  intros [[H1%Z.leb_le _]%andb_prop H2]%andb_prop.
  assert (0 < 10 ^ Z.of_nat (String.length s)) by (apply Z.pow_pos_nonneg; lia).
  specialize (IH H2). nia.
Qed.

Lemma read_digits_all (s : string) (a : Z) :
  all_digits s = true ->
  Utils.read_digits (Some a) s = Some (a * 10 ^ Z.of_nat (String.length s) + dec_value s).
Proof.
  revert a. induction s as [|c s IH]; intros a.
  - intros _. simpl. f_equal. lia.
  - cbn [all_digits]. intros [Hc Hs]%andb_prop.
    cbn [Utils.read_digits dec_value String.length]. rewrite (is_digit_val c Hc).
    rewrite IH by done. f_equal. cbn [default]. unfold id.
    rewrite Nat2Z.inj_succ, Z.pow_succ_r by lia. ring.
Qed.

(** [std::stoull] on a non-empty string of digits. *)
Lemma stoull_digits (t : string) :
  t <> EmptyString -> all_digits t = true -> dec_value t < 2 ^ 64 ->
  Utils.stoull t = Some (dec_value t).
Proof.
  destruct t as [|c t]; [done|]. intros _ Hall Hv.
  pose proof Hall as [Hc Ht]%andb_prop.
  unfold Utils.stoull. cbn [Utils.skip_space]. rewrite (is_digit_not_space c Hc).
  destruct (is_digit_not_sign c Hc) as [-> ->].
  cbn [Utils.read_digits]. rewrite (is_digit_val c Hc), read_digits_all by done.
  cbn [default dec_value] in *. rewrite Z.mul_0_r, Z.add_0_l.
  destruct (Z.ltb_spec (2 ^ 64 - 1) (dec_value (String c t))) as [Hlt|Hle];
    cbn [dec_value] in *; [lia|].
  destruct (Z.ltb_spec (2 ^ 64 - 1)
    ((Z.of_nat (nat_of_ascii c) - 48) * 10 ^ Z.of_nat (String.length t) + dec_value t)); [lia|done].
Qed.

Lemma octet_text_of (t : string) : octet_text t = true -> octet_of t (dec_value t).
Proof.
  unfold octet_text, octet_of.
  intros [[Hne Hall]%andb_prop Hle%Z.leb_le]%andb_prop.
  assert (t <> EmptyString) by (intros ->; done).
  split; [done|]. split; [|done]. apply stoull_digits; [done..|lia].
Qed.

(** The token before a dot. *)
Lemma getline_tokens_app_dot (t rest : string) :
  all_digits t = true ->
  Utils.getline_tokens (t ++ String "."%char rest) = t :: Utils.getline_tokens rest.
Proof.
  induction t as [|c t IH]; [done|]. cbn [all_digits]. intros [Hc Ht]%andb_prop.
  cbn [String.append Utils.getline_tokens]. rewrite (is_digit_not_dot c Hc), IH by done. done.
Qed.

(** The last token. *)
Lemma getline_tokens_last (t : string) :
  t <> EmptyString -> all_digits t = true -> Utils.getline_tokens t = [t].
Proof.
  induction t as [|c t IH]; [done|]. intros _. cbn [all_digits]. intros [Hc Ht]%andb_prop.
  cbn [Utils.getline_tokens]. rewrite (is_digit_not_dot c Hc).
  destruct t as [|c' t]; [done|]. by rewrite IH.
Qed.

(** X14: four decimal numbers of at most 255, each written with digits only
    (leading zeros allowed) and joined by dots, are accepted, with the address
    they denote. *)
Theorem parse_ipv4_dotted (t0 t1 t2 t3 : string) :
  octet_text t0 = true -> octet_text t1 = true ->
  octet_text t2 = true -> octet_text t3 = true ->
  Utils.parse_ipv4 (t0 ++ String "."%char (t1 ++ String "."%char (t2 ++ String "."%char t3))) =
    Some (quad (dec_value t0) (dec_value t1) (dec_value t2) (dec_value t3)).
Proof.
  intros H0 H1 H2 H3.
  pose proof H0 as [[_ A0]%andb_prop _]%andb_prop.
  pose proof H1 as [[_ A1]%andb_prop _]%andb_prop.
  pose proof H2 as [[_ A2]%andb_prop _]%andb_prop.
  pose proof H3 as [[N3 A3]%andb_prop _]%andb_prop.
  apply (parse_ipv4_complete _ t0 t1 t2 t3); try (by apply octet_text_of).
  rewrite !getline_tokens_app_dot by done. f_equal. f_equal. f_equal.
  apply getline_tokens_last; [|done]. intros ->. done.
Qed.

Lemma parse_ipv4_dotted_witness :
  Utils.parse_ipv4 ("192" ++ String "."%char ("168" ++ String "."%char ("000" ++ String "."%char "1"))) =
    Some (quad (dec_value "192") (dec_value "168") (dec_value "000") (dec_value "1")).
Proof. apply (parse_ipv4_dotted "192" "168" "000" "1"); reflexivity. Defined.

(** ** Empty octets *)

Lemma fold_parse_step_empty (l : list string) (st : option (Z * list Z)) :
  In EmptyString l -> fold_left Utils.parse_step l st = None.
Proof.
  revert st. induction l as [|t l IH]; intros st; [done|].
  intros [->|Hin]; cbn [fold_left].
  - replace (Utils.parse_step st EmptyString) with (@None (Z * list Z)).
    + apply fold_parse_step_None.
    + unfold Utils.parse_step. destruct st as [[idx parts]|]; [|done].
      by destruct (4 <=? idx).
  - by apply IH.
Qed.

Lemma getline_tokens_two_dots (s1 s2 : string) :
  exists t ts, Utils.getline_tokens (s1 ++ String "."%char (String "."%char s2)) = t :: ts /\
               In EmptyString ts.
Proof.
  induction s1 as [|c s1 (t & ts & IH & Hin)].
  - cbn. eexists _, _. split; [done|]. by left.
  - cbn [String.append Utils.getline_tokens]. rewrite IH.
    destruct (Ascii.eqb c "."%char).
    + eexists _, _. split; [done|]. by right.
    + eexists _, _. split; [done|]. done.
Qed.

(** X15: a string that starts with a dot, or holds two dots in a row, is
    rejected, whatever else it holds. *)
Theorem parse_ipv4_empty_octet (s1 s2 : string) :
  Utils.parse_ipv4 (String "."%char s2) = None /\
  Utils.parse_ipv4 (s1 ++ String "."%char (String "."%char s2)) = None.
Proof.
  unfold Utils.parse_ipv4. split.
  - rewrite fold_parse_step_empty; [done|]. cbn. by left.
  - destruct (getline_tokens_two_dots s1 s2) as (t & ts & -> & Hin).
    rewrite fold_parse_step_empty; [done|]. by right.
Qed.

(** ** The parse helpers of the command line *)

Lemma size_append (a b : string) : Cli.size (a ++ b) = Cli.size a + Cli.size b.
Proof.
  unfold Cli.size. induction a as [|c a IH]; [done|].
  cbn [String.append String.length]. rewrite !Nat2Z.inj_succ. lia.
Qed.

Lemma size_nonneg (s : string) : 0 <= Cli.size s.
Proof. unfold Cli.size. lia. Qed.

Lemma size_zero (s : string) : Cli.size s = 0 -> s = EmptyString.
Proof. destruct s; [done|]. unfold Cli.size. cbn [String.length]. lia. Qed.

Lemma append_nil_r (s : string) : (s ++ EmptyString)%string = s.
Proof. induction s as [|c s IH]; [done|]. cbn. by rewrite IH. Qed.

Lemma append_assoc (a b c : string) : ((a ++ b) ++ c)%string = (a ++ (b ++ c))%string.
Proof. induction a as [|x a IH]; [done|]. cbn. by rewrite IH. Qed.

(** What [skip_space] removes. *)
Lemma skip_space_split (s : string) :
  exists ws, s = (ws ++ Utils.skip_space s)%string /\ all_space ws = true.
Proof.
  induction s as [|c s (ws & IH & Hws)]; [by exists EmptyString|].
  cbn [Utils.skip_space]. destruct (Utils.isspace c) eqn:Hc.
  - exists (String c ws). cbn. by rewrite <- IH, Hc, Hws.
  - by exists EmptyString.
Qed.

Lemma skip_space_app (ws r : string) :
  all_space ws = true -> Utils.skip_space r = r -> Utils.skip_space (ws ++ r) = r.
Proof.
  intros Hws Hr. induction ws as [|c ws IH]; [done|].
  cbn [all_space] in Hws. apply andb_prop in Hws as [Hc Hws].
  cbn [String.append Utils.skip_space]. rewrite Hc. by apply IH.
Qed.

Lemma skip_space_nonspace (c : ascii) (r : string) :
  Utils.isspace c = false -> Utils.skip_space (String c r) = String c r.
Proof. intros H. cbn. by rewrite H. Qed.

(** What [read_number] reads in base 10. *)
Lemma read_number_split (s : string) (v n : Z) :
  exists ds rest, s = (ds ++ rest)%string /\ all_digits ds = true /\
    Cli.read_number 10 v n s =
      (v * 10 ^ Cli.size ds + dec_value ds, n + Cli.size ds).
Proof.
  revert v n. induction s as [|c s IH]; intros v n.
  - exists EmptyString, EmptyString. split; [done|]. split; [done|].
    cbn [Cli.read_number dec_value]. change (Cli.size EmptyString) with 0.
    rewrite Z.pow_0_r. f_equal; lia.
  - cbn [Cli.read_number]. unfold Cli.digit_of. cbn [Z.eqb Pos.eqb].
    destruct (is_digit c) eqn:Hc.
    + rewrite (is_digit_val c Hc).
      destruct (IH (10 * v + (Z.of_nat (nat_of_ascii c) - 48)) (n + 1)) as (ds & rest & -> & Hds & ->).
      exists (String c ds), rest. split; [done|]. split; [cbn; by rewrite Hc|].
      cbn [dec_value]. unfold Cli.size. cbn [String.length].
      rewrite Nat2Z.inj_succ, Z.pow_succ_r by lia. f_equal; ring.
    + assert (Utils.digit_val c = None) as ->.
      { unfold Utils.digit_val. unfold is_digit in Hc. by rewrite Hc. }
      exists EmptyString, (String c s). split; [done|]. split; [done|].
      cbn [Cli.read_number dec_value]. change (Cli.size EmptyString) with 0.
    rewrite Z.pow_0_r. f_equal; lia.
Qed.

Lemma read_number_digits (ds : string) (v n : Z) :
  all_digits ds = true ->
  Cli.read_number 10 v n ds = (v * 10 ^ Cli.size ds + dec_value ds, n + Cli.size ds).
Proof.
  revert v n. induction ds as [|c ds IH]; intros v n.
  - intros _. cbn [Cli.read_number dec_value]. change (Cli.size EmptyString) with 0.
    rewrite Z.pow_0_r. f_equal; lia.
  - cbn [all_digits]. intros [Hc Hds]%andb_prop.
    cbn [Cli.read_number]. unfold Cli.digit_of. cbn [Z.eqb Pos.eqb].
    rewrite (is_digit_val c Hc), IH by done.
    cbn [dec_value]. unfold Cli.size. cbn [String.length].
    rewrite Nat2Z.inj_succ, Z.pow_succ_r by lia. f_equal; ring.
Qed.

(** [std::stoull(s, &pos, 10)] reads to the end of [s] exactly when [s] is
    white space, an optional sign and at least one digit. *)
Lemma stoull_pos_10_full (s : string) (v : Z) :
  Cli.stoull_pos 10 s = Some (v, Cli.size s) <->
  exists neg ds, signed_digits s neg ds /\ ds <> EmptyString /\ all_digits ds = true /\
    dec_value ds < 2 ^ 64 /\ v = if neg then to_u64 (- dec_value ds) else dec_value ds.
Proof.
  unfold Cli.stoull_pos. cbn [Cli.skip_0x Z.eqb Pos.eqb]. split.
  - destruct (skip_space_split s) as (ws & Hs & Hws).
    set (s1 := Utils.skip_space s) in *.
    set (p := match s1 with String c r => _ | EmptyString => _ end).
    assert (Hp : exists sgn, s1 = (sgn ++ snd p)%string /\
              (sgn = EmptyString \/ sgn = "+"%string \/ sgn = "-"%string) /\
              fst p = String.eqb sgn "-").
    { unfold p. destruct s1 as [|c r]; [by exists EmptyString; auto|].
      destruct (Ascii.eqb_spec c "-"%char) as [->|]; [by exists "-"%string; auto|].
      destruct (Ascii.eqb_spec c "+"%char) as [->|]; [by exists "+"%string; auto|].
      by exists EmptyString; auto. }
    destruct p as [neg s2]. destruct Hp as (sgn & Hs1 & Hsg & Hneg). cbn [fst snd] in *.
    destruct (read_number_split s2 0 0) as (ds & rest & Hs2 & Hds & ->).
    rewrite Z.mul_0_l, !Z.add_0_l.
    destruct (Z.eqb_spec (Cli.size ds) 0) as [|Hn]; [done|].
    destruct (Z.ltb_spec (2 ^ 64 - 1) (dec_value ds)); [done|].
    intros [= <- Hpos].
    rewrite Hs2, size_append in Hpos.
    assert (rest = EmptyString) as -> by (apply size_zero; pose proof (size_nonneg rest); lia).
    rewrite append_nil_r in Hs2. subst s2.
    exists neg, ds. split.
    + exists ws, sgn. by rewrite <- Hs1.
    + split; [by intros ->|]. split; [done|]. split; [lia|done].
  - intros (neg & ds & (ws & sgn & -> & Hws & Hsg & ->) & Hne & Hds & Hv & ->).
    destruct ds as [|c ds]; [done|]. pose proof Hds as [Hc _]%andb_prop.
    assert (Hskip : Utils.skip_space (ws ++ sgn ++ String c ds) = (sgn ++ String c ds)%string).
    { apply skip_space_app; [done|].
      destruct Hsg as [-> | [-> | ->] ]; [|done..].
      apply skip_space_nonspace. by apply is_digit_not_space. }
    rewrite Hskip.
    destruct (is_digit_not_sign c Hc) as [Hm Hp].
    assert (Hsign : (match (sgn ++ String c ds)%string with
                     | String c' r =>
                         if Ascii.eqb c' "-"%char then (true, r)
                         else if Ascii.eqb c' "+"%char then (false, r)
                         else (false, (sgn ++ String c ds)%string)
                     | EmptyString => (false, (sgn ++ String c ds)%string)
                     end) = (String.eqb sgn "-", String c ds)).
    { destruct Hsg as [-> | [-> | ->] ]; [|done..]. cbn. by rewrite Hm, Hp. }
    rewrite Hsign, read_number_digits by done.
    rewrite Z.mul_0_l, !Z.add_0_l.
    destruct (Z.eqb_spec (Cli.size (String c ds)) 0) as [H0|_].
    { unfold Cli.size in H0. cbn [String.length] in H0. lia. }
    destruct (Z.ltb_spec (2 ^ 64 - 1) (dec_value (String c ds))); [lia|].
    do 2 f_equal. rewrite !size_append. lia.
Qed.


(** ** [parse_u64] *)

(** X16: [parse_u64] accepts exactly white space, an optional sign and at
    least one digit, with a value below [2^64]; nothing may follow the
    digits, and a minus sign negates modulo [2^64]. *)
Theorem parse_u64_spec (s : string) (v : Z) :
  Cli.parse_u64 s = Some v <->
  exists neg ds, signed_digits s neg ds /\ ds <> EmptyString /\ all_digits ds = true /\
    dec_value ds < 2 ^ 64 /\ v = if neg then to_u64 (- dec_value ds) else dec_value ds.
Proof.
  rewrite <- stoull_pos_10_full. unfold Cli.parse_u64. split.
  - destruct (Cli.stoull_pos 10 s) as [[value pos]|]; [|done].
    destruct (Z.eqb_spec pos (Cli.size s)) as [->|]; [|done]. by intros [= ->].
  - intros ->. by rewrite Z.eqb_refl.
Qed.

(** X17: a negative demo count or bucket limit is not an error: [-d] is
    read as [2^64 - d]. *)
Theorem parse_u64_minus (ds : string) :
  ds <> EmptyString -> all_digits ds = true -> 0 < dec_value ds < 2 ^ 64 ->
  Cli.parse_u64 (String "-"%char ds) = Some (2 ^ 64 - dec_value ds).
Proof.
  intros Hne Hds Hv. unfold Cli.parse_u64.
  assert (Hfull : Cli.stoull_pos 10 (String "-"%char ds)
                  = Some (2 ^ 64 - dec_value ds, Cli.size (String "-"%char ds))).
  { apply stoull_pos_10_full. exists true, ds. split.
    - exists EmptyString, "-"%string. split; [done|]. split; [done|]. split; [auto|done].
    - split; [done|]. split; [done|]. split; [lia|].
      unfold to_u64. apply (Z.mod_unique _ _ (-1)); lia. }
  rewrite Hfull. by rewrite Z.eqb_refl.
Qed.

Lemma parse_u64_minus_witness : Cli.parse_u64 (String "-"%char "1") = Some (2 ^ 64 - dec_value "1").
Proof. apply (parse_u64_minus "1"); [done|reflexivity|split; reflexivity]. Defined.

Lemma is_hex_val (c : ascii) : is_hex c = true -> Cli.hex_val c = Some (hex_digit c).
Proof.
  unfold is_hex, Cli.hex_val, hex_digit. set (n := Z.of_nat (nat_of_ascii c)).
  intros H.
  destruct (Z.leb_spec 48 n), (Z.leb_spec n 57), (Z.leb_spec 65 n), (Z.leb_spec n 70),
    (Z.leb_spec 97 n), (Z.leb_spec n 102); cbn in *; try done; try lia.
Qed.

Lemma is_hex_range (c : ascii) : is_hex c = true -> 0 <= hex_digit c <= 15.
Proof.
  unfold is_hex, hex_digit. set (n := Z.of_nat (nat_of_ascii c)).
  intros H.
  destruct (Z.leb_spec 48 n), (Z.leb_spec n 57), (Z.leb_spec 65 n), (Z.leb_spec n 70),
    (Z.leb_spec 97 n), (Z.leb_spec n 102); cbn in *; try done; try lia.
Qed.

Lemma is_hex_plain (c : ascii) :
  is_hex c = true ->
  Utils.isspace c = false /\ Ascii.eqb c "-"%char = false /\ Ascii.eqb c "+"%char = false /\
  Ascii.eqb c "x"%char = false /\ Ascii.eqb c "X"%char = false.
Proof.
  intros Hc. split_and!.
  - unfold is_hex, Utils.isspace in *. set (n := Z.of_nat (nat_of_ascii c)) in *.
    destruct (Z.eqb_spec n 32), (Z.leb_spec 9 n), (Z.leb_spec n 13); cbn; try done;
    destruct (Z.leb_spec 48 n), (Z.leb_spec n 57), (Z.leb_spec 65 n), (Z.leb_spec n 70),
      (Z.leb_spec 97 n), (Z.leb_spec n 102); cbn in *; try done; try lia.
  - destruct (Ascii.eqb_spec c "-"%char) as [->|]; [discriminate Hc|done].
  - destruct (Ascii.eqb_spec c "+"%char) as [->|]; [discriminate Hc|done].
  - destruct (Ascii.eqb_spec c "x"%char) as [->|]; [discriminate Hc|done].
  - destruct (Ascii.eqb_spec c "X"%char) as [->|]; [discriminate Hc|done].
Qed.

Lemma hex_value_nonneg (s : string) : all_hex s = true -> 0 <= hex_value s.
Proof.
  induction s as [|c s IH]; [done|]. cbn [all_hex hex_value].
  intros [Hc Hs]%andb_prop. pose proof (is_hex_range c Hc).
  assert (0 < 16 ^ Z.of_nat (String.length s)) by (apply Z.pow_pos_nonneg; lia).
  specialize (IH Hs). nia.
Qed.

Lemma read_number_hex (h : string) (v n : Z) :
  all_hex h = true ->
  Cli.read_number 16 v n h = (v * 16 ^ Cli.size h + hex_value h, n + Cli.size h).
Proof.
  revert v n. induction h as [|c h IH]; intros v n.
  - intros _. cbn [Cli.read_number hex_value]. change (Cli.size EmptyString) with 0.
    rewrite Z.pow_0_r. f_equal; lia.
  - cbn [all_hex]. intros [Hc Hh]%andb_prop.
    cbn [Cli.read_number]. unfold Cli.digit_of. cbn [Z.eqb Pos.eqb].
    rewrite (is_hex_val c Hc), IH by done.
    cbn [hex_value]. unfold Cli.size. cbn [String.length].
    rewrite Nat2Z.inj_succ, Z.pow_succ_r by lia. f_equal; ring.
Qed.

(** [std::stoull(h, &pos, 16)] on hexadecimal digits, with or without the
    prefix. *)
Lemma stoull_pos_16_hex (h : string) (pre : string) :
  h <> EmptyString -> all_hex h = true -> hex_value h < 2 ^ 64 ->
  pre = EmptyString \/ pre = "0x"%string \/ pre = "0X"%string ->
  Cli.stoull_pos 16 (pre ++ h) = Some (hex_value h, Cli.size (pre ++ h)).
Proof.
  intros Hne Hh Hv Hpre. destruct h as [|c h]; [done|].
  pose proof Hh as [Hc _]%andb_prop.
  destruct (is_hex_plain c Hc) as (Hsp & Hm & Hp & Hx & HX).
  pose proof (is_hex_val c Hc) as Hval.
  pose proof (hex_value_nonneg _ Hh) as Hnn.
  assert (Hsz : 0 < Cli.size (String c h)).
  { unfold Cli.size. cbn [String.length]. lia. }
  unfold Cli.stoull_pos.
  destruct Hpre as [-> | [-> | ->] ].
  - cbn [String.append Utils.skip_space]. rewrite Hsp, Hm, Hp.
    assert (Hskip : Cli.skip_0x 16 (String c h) = String c h).
    { unfold Cli.skip_0x. cbn [Z.eqb Pos.eqb].
      destruct h as [|c1 [|c2 r] ]; try done.
      destruct (Ascii.eqb c "0"%char); [|done].
      apply andb_prop in Hh as [_ [Hc1 _]%andb_prop].
      destruct (is_hex_plain c1 Hc1) as (_ & _ & _ & -> & ->). done. }
    rewrite Hskip, read_number_hex by done. rewrite Z.mul_0_l, !Z.add_0_l.
    destruct (Z.eqb_spec (Cli.size (String c h)) 0); [lia|].
    destruct (Z.ltb_spec (2 ^ 64 - 1) (hex_value (String c h))); [lia|].
    do 2 f_equal. lia.
  - cbn [String.append Utils.skip_space]. change (Utils.isspace "0") with false.
    cbn [Ascii.eqb Bool.eqb andb orb Cli.skip_0x Z.eqb Pos.eqb].
    rewrite Hval. rewrite bool_decide_eq_true_2 by done.
    rewrite read_number_hex by done. rewrite Z.mul_0_l, !Z.add_0_l.
    destruct (Z.eqb_spec (Cli.size (String c h)) 0); [lia|].
    destruct (Z.ltb_spec (2 ^ 64 - 1) (hex_value (String c h))); [lia|].
    do 2 f_equal. unfold Cli.size. cbn [String.length]. lia.
  - cbn [String.append Utils.skip_space]. change (Utils.isspace "0") with false.
    cbn [Ascii.eqb Bool.eqb andb orb Cli.skip_0x Z.eqb Pos.eqb].
    rewrite Hval. rewrite bool_decide_eq_true_2 by done.
    rewrite read_number_hex by done. rewrite Z.mul_0_l, !Z.add_0_l.
    destruct (Z.eqb_spec (Cli.size (String c h)) 0); [lia|].
    destruct (Z.ltb_spec (2 ^ 64 - 1) (hex_value (String c h))); [lia|].
    do 2 f_equal. unfold Cli.size. cbn [String.length]. lia.
Qed.

(** ** [parse_hex32] *)

(** X18: a non-empty string of hexadecimal digits with a value below [2^32]
    is accepted with that value, bare or after [0x] or [0X] - and also after
    a doubled prefix, since [std::stoull] skips a prefix of its own. *)
Theorem parse_hex32_hex (h : string) (p q : string) :
  h <> EmptyString -> all_hex h = true -> hex_value h < 2 ^ 32 ->
  p = EmptyString \/ p = "0x"%string \/ p = "0X"%string ->
  (q = EmptyString \/ p <> EmptyString /\ (q = "0x"%string \/ q = "0X"%string)) ->
  Cli.parse_hex32 (p ++ q ++ h) = Some (hex_value h).
Proof.
  intros Hne Hh Hv Hp Hq.
  assert (Hv' : hex_value h < 2 ^ 64) by lia.
  pose proof (hex_value_nonneg _ Hh) as Hnn.
  assert (Hgo : forall txt, Cli.stoull_pos 16 txt = Some (hex_value h, Cli.size txt) ->
            match Cli.stoull_pos 16 txt with
            | None => None
            | Some (value, pos) =>
                if negb (pos =? Cli.size txt) then None
                else if 4294967295 <? value then None
                else Some (to_u32 value)
            end = Some (hex_value h)).
  { intros txt ->. rewrite Z.eqb_refl. cbn [negb].
    destruct (Z.ltb_spec 4294967295 (hex_value h)); [lia|]. by rewrite to_u32_small by lia. }
  assert (Hsz : 0 < Cli.size h).
  { destruct h; [done|]. unfold Cli.size. cbn [String.length]. lia. }
  unfold Cli.parse_hex32.
  destruct Hp as [-> | Hp].
  - destruct Hq as [-> | [? _] ]; [|done]. cbn [String.append].
    destruct h as [|c [|c1 r] ]; [done| |].
    + apply Hgo. by apply (stoull_pos_16_hex _ EmptyString); auto.
    + pose proof Hh as [_ [Hc1 _]%andb_prop]%andb_prop.
      destruct (is_hex_plain c1 Hc1) as (_ & _ & _ & -> & ->).
      rewrite !andb_false_r.
      apply Hgo. by apply (stoull_pos_16_hex _ EmptyString); auto.
  - assert (Hpre : forall r, exists c1, (p ++ r)%string = String "0"%char (String c1 r) /\
              (Ascii.eqb c1 "x"%char || Ascii.eqb c1 "X"%char) = true).
    { intros r. destruct Hp as [-> | ->]; by eexists. }
    destruct (Hpre (q ++ h)%string) as (c1 & -> & Hc1).
    rewrite Hc1. cbn [Ascii.eqb Bool.eqb andb].
    assert (Hlen : (2 <? Cli.size (String "0" (String c1 (q ++ h)))) = true).
    { apply Z.ltb_lt. unfold Cli.size in *. cbn [String.length].
      pose proof (size_append q h) as Ha. unfold Cli.size in Ha. lia. }
    rewrite Hlen. apply Hgo.
    apply stoull_pos_16_hex; try done.
    destruct Hq as [-> | [_ Hq] ]; auto.
Qed.

Lemma parse_hex32_hex_witness :
  Cli.parse_hex32 ("0x" ++ "0X" ++ "9E3779B1") = Some (hex_value "9E3779B1").
Proof.
  apply (parse_hex32_hex "9E3779B1" "0x" "0X"); [done|reflexivity|reflexivity|auto|].
  right. split; [done|auto].
Defined.

(** Whatever [parse_uint] and [parse_hex32] accept fits 32 bits. *)
Lemma parse_uint_range (s : string) (v : Z) : Cli.parse_uint s = Some v -> is_u32 v.
Proof.
  unfold Cli.parse_uint. destruct (Cli.parse_u64 s) as [x|]; [|done].
  destruct (2 ^ 32 - 1 <? x); [done|]. intros [= <-].
  unfold is_u32, to_u32. apply Z.mod_pos_bound. lia.
Qed.

Lemma parse_hex32_range (s : string) (v : Z) : Cli.parse_hex32 s = Some v -> is_u32 v.
Proof.
  unfold Cli.parse_hex32.
  destruct (Cli.stoull_pos 16 _) as [[x pos]|]; [|done].
  destruct (negb _); [done|]. destruct (4294967295 <? x); [done|]. intros [= <-].
  unfold is_u32, to_u32. apply Z.mod_pos_bound. lia.
Qed.

(** ** [parse_args] *)

Lemma apply_preset_wf (c c' : Config.t) (name : string) :
  Config.wf c -> Cli.apply_preset c name = Some c' -> Config.wf c'.
Proof.
  intros (_ & _ & Hk). unfold Cli.apply_preset.
  destruct (String.eqb name "default"); [intros [= <-]; by split_and!|].
  destruct (String.eqb name "wang"); [intros [= <-]; by split_and!|done].
Qed.

Lemma parse_loop_wf (n : nat) :
  forall (args : list string) (opt opt' : Cli.Options) (c c' : Config.t),
  (length args <= n)%nat -> Config.wf c ->
  Cli.parse_loop args opt c = Cli.Returns (opt', c') -> Config.wf c'.
Proof.
  induction n as [|n IH]; intros args opt opt' c c' Hlen Hwf.
  - destruct args; [|simpl in Hlen; lia]. by intros [= _ <-].
  - destruct args as [|arg rest]; [by intros [= _ <-]|].
    cbn [length] in Hlen. cbn [Cli.parse_loop].
    destruct (_ || _); [done|].
    destruct Hwf as (Ha & Hb & Hk).
    destruct (String.eqb arg "--demo").
    { destruct rest as [|x rest']; [done|]. destruct (Cli.parse_u64 x); [|done].
      apply IH; [cbn [length] in Hlen; lia|done]. }
    destruct (String.eqb arg "--from-file").
    { destruct rest as [|x rest']; [done|].
      apply IH; [cbn [length] in Hlen; lia|done]. }
    destruct (String.eqb arg "--k").
    { destruct rest as [|x rest']; [done|].
      destruct (Cli.parse_uint x) as [v|] eqn:Hv; [|done].
      apply IH; [cbn [length] in Hlen; lia|]. apply parse_uint_range in Hv. done. }
    destruct (String.eqb arg "--a").
    { destruct rest as [|x rest']; [done|].
      destruct (Cli.parse_hex32 x) as [v|] eqn:Hv; [|done].
      apply IH; [cbn [length] in Hlen; lia|]. apply parse_hex32_range in Hv. done. }
    destruct (String.eqb arg "--b").
    { destruct rest as [|x rest']; [done|].
      destruct (Cli.parse_hex32 x) as [v|] eqn:Hv; [|done].
      apply IH; [cbn [length] in Hlen; lia|]. apply parse_hex32_range in Hv. done. }
    destruct (String.eqb arg "--preset").
    { destruct rest as [|x rest']; [done|].
      destruct (Cli.apply_preset c x) as [c1|] eqn:Hc; [|done].
      apply IH; [cbn [length] in Hlen; lia|]. by apply (apply_preset_wf c c1 x). }
    destruct (String.eqb arg "--show-buckets"); [|done].
    destruct rest as [|x rest']; [by intros [= _ <-]|].
    destruct x as [|c0 x].
    { apply IH; [lia|done]. }
    destruct (negb _).
    + destruct (Cli.parse_u64 _); [|done]. apply IH; [cbn [length] in Hlen; lia|done].
    + apply IH; [lia|done].
Qed.

(** X19: the options that [parse_args] returns have a mode, so that the
    [Mode::None] case of [main] is never reached, and a configuration whose
    three fields fit 32 bits. *)
Theorem parse_args_wf (args : list string) (opt : Cli.Options) :
  Cli.parse_args args = Cli.Returns opt ->
  Cli.mode opt <> Cli.Mode.None /\ Config.wf (Cli.cfg opt).
Proof.
  unfold Cli.parse_args.
  destruct (Cli.parse_loop args Cli.default_options Cli.default_config)
    as [[o c]| |] eqn:Hloop; [|done..].
  apply (parse_loop_wf (length args)) in Hloop; [|done|by split_and!].
  destruct (Cli.mode o) eqn:Hm; [done| |]; intros [= <-]; cbn [Cli.mode Cli.cfg]; by rewrite ?Hm.
Qed.

Lemma parse_args_wf_witness :
  Cli.mode (Cli.mkOptions Cli.Mode.Demo 1000 EmptyString (Config.mk 2 2246822519 16)
              false false 0) <> Cli.Mode.None /\
  Config.wf (Cli.cfg (Cli.mkOptions Cli.Mode.Demo 1000 EmptyString (Config.mk 2 2246822519 16)
                        false false 0)).
Proof.
  apply (parse_args_wf ["--demo"; "1000"; "--k"; "16"; "--a"; "0x2"]%string). reflexivity.
Defined.

Lemma parse_loop_preset_last (name : string) (n : nat) :
  name = "default"%string \/ name = "wang"%string ->
  forall (pre : list string) (opt opt' : Cli.Options) (c c' : Config.t),
  (length pre <= n)%nat ->
  Cli.parse_loop (pre ++ ["--preset"%string; name]) opt c = Cli.Returns (opt', c') ->
  Cli.apply_preset c' name = Some c'.
Proof.
  intros Hname. induction n as [|n IH]; intros pre opt opt' c c' Hlen.
  - destruct pre; [|simpl in Hlen; lia].
    destruct Hname as [-> | ->]; cbn; by intros [= _ <-].
  - destruct pre as [|arg pre]; [apply (IH []); simpl; lia|].
    cbn [length] in Hlen. cbn [app Cli.parse_loop].
    destruct (_ || _); [done|].
    destruct (String.eqb arg "--demo").
    { destruct pre as [|x pre]; [done|]. cbn [app].
      destruct (Cli.parse_u64 x); [|done]. apply IH. cbn [length] in Hlen. lia. }
    destruct (String.eqb arg "--from-file").
    { destruct pre as [|x pre]; [destruct Hname as [-> | ->]; done|]. cbn [app].
      apply IH. cbn [length] in Hlen. lia. }
    destruct (String.eqb arg "--k").
    { destruct pre as [|x pre]; [done|]. cbn [app].
      destruct (Cli.parse_uint x); [|done]. apply IH. cbn [length] in Hlen. lia. }
    destruct (String.eqb arg "--a").
    { destruct pre as [|x pre]; [done|]. cbn [app].
      destruct (Cli.parse_hex32 x); [|done]. apply IH. cbn [length] in Hlen. lia. }
    destruct (String.eqb arg "--b").
    { destruct pre as [|x pre]; [done|]. cbn [app].
      destruct (Cli.parse_hex32 x); [|done]. apply IH. cbn [length] in Hlen. lia. }
    destruct (String.eqb arg "--preset").
    { destruct pre as [|x pre]; [done|]. cbn [app].
      destruct (Cli.apply_preset c x); [|done]. apply IH. cbn [length] in Hlen. lia. }
    destruct (String.eqb arg "--show-buckets"); [|done].
    destruct pre as [|x pre].
    { cbn [app negb Ascii.eqb Bool.eqb]. apply (IH []). simpl. lia. }
    cbn [app]. destruct x as [|c0 x].
    { apply (IH (EmptyString :: pre)). lia. }
    destruct (negb _).
    + destruct (Cli.parse_u64 _); [|done]. apply IH. cbn [length] in Hlen. lia.
    + apply (IH (String c0 x :: pre)). lia.
Qed.

(** X20: the arguments are applied from left to right: when they end with
    [--preset <name>], the multiplier and the offset are those of the preset,
    whatever [--a] or [--b] came before - the usage text says the opposite,
    that [--a] and [--b] override the preset. *)
Theorem parse_args_preset_last (pre : list string) (name : string) (opt : Cli.Options) :
  name = "default"%string \/ name = "wang"%string ->
  Cli.parse_args (pre ++ ["--preset"%string; name]) = Cli.Returns opt ->
  Config.a (Cli.cfg opt) = (if String.eqb name "default" then 0x9E3779B1 else 0x27D4EB2D) /\
  Config.b (Cli.cfg opt) = (if String.eqb name "default" then 0x85EBCA77 else 0x165667B1).
Proof.
  intros Hname. unfold Cli.parse_args.
  destruct (Cli.parse_loop _ _ _) as [[o c]| |] eqn:Hloop; [|done..].
  apply (parse_loop_preset_last name (length pre) Hname) in Hloop; [|done].
  assert (Hc : Config.a c = (if String.eqb name "default" then 0x9E3779B1 else 0x27D4EB2D) /\
               Config.b c = (if String.eqb name "default" then 0x85EBCA77 else 0x165667B1)).
  { destruct Hname as [-> | ->]; cbn in Hloop; injection Hloop as Hc; by rewrite <- Hc. }
  destruct (Cli.mode o); [done| |]; by intros [= <-].
Qed.

Lemma parse_args_preset_last_witness :
  Config.a (Cli.cfg (Cli.mkOptions Cli.Mode.Demo 5 EmptyString
                       (Config.mk 0x27D4EB2D 0x165667B1 12) true false 0))
    = (if String.eqb "wang" "default" then 0x9E3779B1 else 0x27D4EB2D) /\
  Config.b (Cli.cfg (Cli.mkOptions Cli.Mode.Demo 5 EmptyString
                       (Config.mk 0x27D4EB2D 0x165667B1 12) true false 0))
    = (if String.eqb "wang" "default" then 0x85EBCA77 else 0x165667B1).
Proof.
  apply (parse_args_preset_last ["--demo"; "5"; "--a"; "0x2"]%string "wang");
    [auto|reflexivity].
Defined.

(** ** Trimming a line *)

Lemma skip_space_head (s : string) : no_leading_space (Utils.skip_space s).
Proof.
  induction s as [|c s IH]; [done|]. cbn [Utils.skip_space].
  destruct (Utils.isspace c) eqn:Hc; [done|]. exact Hc.
Qed.

Lemma list_ascii_of_string_app (a b : string) :
  list_ascii_of_string (a ++ b) = list_ascii_of_string a ++ list_ascii_of_string b.
Proof. induction a as [|c a IH]; [done|]. cbn. by rewrite IH. Qed.

Lemma string_of_list_ascii_app (l1 l2 : list ascii) :
  string_of_list_ascii (l1 ++ l2) =
    (string_of_list_ascii l1 ++ string_of_list_ascii l2)%string.
Proof. induction l1 as [|c l1 IH]; [done|]. cbn. by rewrite IH. Qed.

Lemma reverse_app (a b : string) :
  Cli.reverse (a ++ b) = (Cli.reverse b ++ Cli.reverse a)%string.
Proof.
  unfold Cli.reverse.
  by rewrite list_ascii_of_string_app, rev_app_distr, string_of_list_ascii_app.
Qed.

Lemma reverse_involutive (s : string) : Cli.reverse (Cli.reverse s) = s.
Proof.
  unfold Cli.reverse.
  by rewrite list_ascii_of_string_of_list_ascii, rev_involutive, string_of_list_ascii_of_string.
Qed.

Lemma all_space_forallb (s : string) :
  all_space s = forallb Utils.isspace (list_ascii_of_string s).
Proof. induction s as [|c s IH]; [done|]. cbn. by rewrite IH. Qed.

Lemma all_space_reverse (s : string) : all_space s = true -> all_space (Cli.reverse s) = true.
Proof.
  rewrite !all_space_forallb. unfold Cli.reverse.
  rewrite list_ascii_of_string_of_list_ascii, !forallb_forall.
  intros H c Hc. apply H. by apply in_rev.
Qed.

(** X25: the trimming of [run_from_file] removes white space at both ends
    and nothing else: the line is white space, the trimmed line, white space,
    and the trimmed line neither starts nor ends with white space. *)
Theorem trim_spec (line : string) :
  (exists ws1 ws2, line = (ws1 ++ Cli.trim line ++ ws2)%string /\
     all_space ws1 = true /\ all_space ws2 = true) /\
  no_leading_space (Cli.trim line) /\
  no_leading_space (Cli.reverse (Cli.trim line)).
Proof.
  unfold Cli.trim.
  destruct (skip_space_split line) as (ws1 & Hline & Hws1).
  set (x := Utils.skip_space line) in *.
  destruct (skip_space_split (Cli.reverse x)) as (ws2 & Hx & Hws2).
  set (y := Utils.skip_space (Cli.reverse x)) in *.
  assert (Hxy : x = (Cli.reverse y ++ Cli.reverse ws2)%string).
  { rewrite <- reverse_app, <- Hx. by rewrite reverse_involutive. }
  split; [|split].
  - exists ws1, (Cli.reverse ws2). split; [|split].
    + by rewrite <- Hxy.
    + done.
    + by apply all_space_reverse.
  - pose proof (skip_space_head line) as Hhead. fold x in Hhead.
    rewrite Hxy in Hhead. by destruct (Cli.reverse y).
  - rewrite reverse_involutive. apply skip_space_head.
Qed.

(** ** [run_from_file] *)

Lemma read_ips_cons (line : string) (rest : list string) (n : Z) (ips : list Z) :
  Cli.read_ips (line :: rest) n ips =
    match classify line with
    | Skipped => Cli.read_ips rest (to_size (n + 1)) ips
    | Address ip => Cli.read_ips rest (to_size (n + 1)) (ips ++ [ip])
    | Malformed => inl (Cli.ParseError (to_size (n + 1)))
    end.
Proof.
  cbn [Cli.read_ips]. unfold classify. destruct (Cli.trim line) as [|c r]; [done|].
  destruct (Ascii.eqb c "#"%char); [done|]. by destruct (Utils.parse_ipv4 _).
Qed.

Lemma read_ips_ok (lines : list string) (n : Z) (ips : list Z) :
  Forall well_formed_line lines ->
  Cli.read_ips lines n ips = inr (ips ++ addresses lines).
Proof.
  intros Hall. revert n ips. induction Hall as [|l lines Hl _ IH]; intros n ips.
  - cbn. by rewrite app_nil_r.
  - rewrite read_ips_cons. unfold addresses. cbn [omap list_omap].
    unfold well_formed_line in Hl. destruct (classify l) as [|ip|]; [| |done].
    + apply IH.
    + rewrite IH. by rewrite <- app_assoc.
Qed.


(** X21: when no line of the file is malformed and at least one holds an
    address, the histogram of [run_from_file] is that of the addresses of the
    file in their order; blank lines and lines whose first character after
    the white space is [#] contribute nothing. *)
Theorem run_from_file_histogram (text : string) (cfg : Config.t) :
  Forall well_formed_line (Cli.getlines text) -> addresses (Cli.getlines text) <> [] ->
  Cli.run_from_file_counts (Some text) cfg =
    inr (BucketEngine.distribution cfg (addresses (Cli.getlines text))).
Proof.
  intros Hall Hne. unfold Cli.run_from_file_counts.
  rewrite (read_ips_ok _ 0 [] Hall). cbn [app].
  by destruct (addresses (Cli.getlines text)).
Qed.

Lemma run_from_file_histogram_witness :
  Cli.run_from_file_counts
    (Some ("# a" ++ String "010" (" 1.2.3.4" ++ String "013" (String "010"
             (String "010" "9.8.7.6"))))%string)
    (Config.mk 2654435761 2246822519 2) =
  inr (BucketEngine.distribution (Config.mk 2654435761 2246822519 2)
    (addresses (Cli.getlines
       ("# a" ++ String "010" (" 1.2.3.4" ++ String "013" (String "010"
          (String "010" "9.8.7.6"))))%string))).
Proof.
  apply run_from_file_histogram.
  - repeat constructor; by vm_compute.
  - by vm_compute.
Defined.



(** ** [run_demo] *)


